(** * An adaptive PDF page viewer: shallow embedding and verified properties

    The development follows the viewer component ([PdfViewer], in its
    continuous-scroll and its single-page variants) and the PDFium adapter
    ([pdfiumRenderer]).  The first part embeds the program, one module per
    part of it:

    - [Js]           the string primitives the code calls ([toLowerCase],
                     [indexOf], [includes], [slice], [trim]);
    - [Analyzer]     [analyzePageComplexity];
    - [Eff]          state, exceptions and [try]/[catch]/[finally];
    - [Pdfium]       [renderPageWithPdfium] over a log of native calls;
    - [SinglePage]   [executeRender] of the single-page viewer;
    - [Scroll]       [renderSinglePage], the per-page state map and the
                     effects reacting to scale, rotation and query;
    - [TextLayer]    the span splitting of [renderTextLayer];
    - [SearchIndex]  [performSearch];
    - [Thumbs]       the thumbnail effect and its generator loop;
    - [Navigation]   [goToNextMatch] and [goToPrevMatch];
    - [TextOf]       what the text layer shows of the items;
    - [ThumbsRuns]   the runs of the thumbnail generators;
    - [Toolbar]      the zoom and rotation buttons;
    - [Loader]       [loadPdf], [loadPdfWithPassword] and the password
                     dialog;
    - [PdfiumInit]   [initPdfium];
    - [ScrollSpy]    [handleScroll].

    The second part states and proves the properties, in the same order.

    Asynchronous calls into pdf.js, PDFium and the DOM are modelled by the
    outcome they deliver (a value, or a thrown error); the outcomes are
    inputs of the embedded functions, so every theorem quantifies over all
    of them.  Floating-point layout arithmetic is kept symbolic. *)

From Stdlib Require Import ZArith NArith QArith Qround Qminmax Ascii String List
  Bool Lia.
From stdpp Require Import base option list gmap sorting.
Import ListNotations.
Close Scope Q_scope.

Set Default Proof Using "Type".

(* ===================================================================== *)
(** * JavaScript string primitives *)
(* ===================================================================== *)

Module Js.

(** A JavaScript string is a sequence of UTF-16 code units.  The model
    keeps the code units below U+0100 and two more: U+0130 (capital I with
    dot above), the one code unit whose lowercase form is longer than
    itself, and U+0307 (combining dot above), which that form ends with.
    On this alphabet [toLowerCase] is as in JavaScript, and the alphabet
    is closed under it. *)
Inductive CodeUnit : Type :=
  | Latin1 (c : ascii)
  | CapitalIDot
  | CombiningDot.

#[global] Instance CodeUnit_eq_dec : EqDecision CodeUnit.
Proof. solve_decision. Defined.

Abbreviation str := (list CodeUnit).

Definition lit (s : string) : str := Latin1 <$> list_ascii_of_string s.

(** The lowercase of a code unit below U+0100: A-Z and the capitals
    U+00C0-U+00DE (U+00D7 is the multiplication sign) move up by 32. *)
Definition lowerLatin1 (c : ascii) : ascii :=
  let n := N_of_ascii c in
  if ((65 <=? n) && (n <=? 90))%N
     || ((192 <=? n) && (n <=? 222) && negb (n =? 215))%N
  then ascii_of_N (n + 32)
  else c.

(** The lowercase of one code unit: U+0130 becomes the two code units
    U+0069 U+0307. *)
Definition lowerUnit (c : CodeUnit) : str :=
  match c with
  | Latin1 a => [Latin1 (lowerLatin1 a)]
  | CapitalIDot => [Latin1 "i"; CombiningDot]
  | CombiningDot => [CombiningDot]
  end.

(** [String.prototype.toLowerCase]. *)
Definition toLowerCase (s : str) : str := s ≫= lowerUnit.

(** [s.startsWith(p)]. *)
Fixpoint startsWith (p s : str) : bool :=
  match p, s with
  | [], _ => true
  | _ :: _, [] => false
  | a :: p', b :: s' => if bool_decide (a = b) then startsWith p' s' else false
  end.

(** Leftmost occurrence of [needle] in [hay], counted from the head. *)
Fixpoint find (needle hay : str) : option nat :=
  if startsWith needle hay then Some 0
  else match hay with
       | [] => None
       | _ :: hay' => S <$> find needle hay'
       end.

(** [hay.indexOf(needle, from)]: the position is clamped to the length,
    [None] stands for -1. *)
Definition indexOf (needle hay : str) (from : nat) : option nat :=
  let k := Nat.min from (length hay) in
  (Nat.add k) <$> find needle (drop k hay).

(** [hay.includes(needle)]. *)
Definition includes (needle hay : str) : bool :=
  match indexOf needle hay 0 with Some _ => true | None => false end.

(** [s.slice(a, b)] for non-negative [a], [b]. *)
Definition slice (a b : nat) (s : str) : str := take (b - a) (drop a s).

(** [s.slice(a)]. *)
Definition sliceFrom (a : nat) (s : str) : str := drop a s.

(** White space and line terminators of ECMAScript in the alphabet:
    TAB, LF, VT, FF, CR, SPACE, NBSP. *)
Definition isWhite (c : CodeUnit) : bool :=
  match c with
  | Latin1 a =>
      let n := N_of_ascii a in
      ((9 <=? n) && (n <=? 13) || (n =? 32) || (n =? 160))%N
  | _ => false
  end.

Fixpoint trimStart (s : str) : str :=
  match s with
  | c :: s' => if isWhite c then trimStart s' else s
  | [] => []
  end.

Definition trimEnd (s : str) : str := rev (trimStart (rev s)).

(** [s.trim()]. *)
Definition trim (s : str) : str := trimEnd (trimStart s).

(** Truthiness of a string: non-empty. *)
Definition truthy (s : str) : bool :=
  match s with [] => false | _ => true end.

(** The strings on which lowercasing keeps every position: those without
    U+0130.  On them [toLowerCase] maps code unit to code unit, by
    [lowerSame]. *)
Definition keepsPositions (s : str) : Prop := CapitalIDot ∉ s.

Definition lowerSame (c : CodeUnit) : CodeUnit :=
  match c with
  | Latin1 a => Latin1 (lowerLatin1 a)
  | c => c
  end.

End Js.

(* ===================================================================== *)
(** * Complexity analyzer *)
(* ===================================================================== *)

Module Analyzer.
Import Js.

Definition HEAVY_PAGE_THRESHOLD : N := 10000.
Definition HEAVY_TEXT_THRESHOLD : N := 1000.
Definition HEAVY_FONT_SWITCH_THRESHOLD : N := 200.
Definition TYPE3_COST_MULTIPLIER : N := 100.

(** The operator codes of pdf.js that the [switch] names; every other code
    is [otherOp]. *)
Inductive Op : Type :=
  | setFont
  | paintImageXObject | paintInlineImageXObject | paintImageMaskXObject
  | showText | showSpacedText
  | moveTo | lineTo | rectangle | constructPath
  | curveTo | curveTo2 | curveTo3
  | fill | eoFill | fillStroke | eoFillStroke
  | stroke
  | clip | eoClip
  | save | restore
  | transform
  | shadingFill
  | dependency
  | otherOp (code : N).

(** One entry of the operator list: [fnArray[i]] and, for the font
    operator, [String(args[0])] when [args && args[0]] is truthy. *)
Record Operation : Type := {
  fn : Op;
  arg0 : option str;
}.

(** The counters of the loop, one per group of [case] labels. *)
Inductive Counter : Type :=
  | kFont | kImage | kText | kPath | kCurve | kFill | kStroke | kClip
  | kSaveRestore | kTransform | kShading | kDependency.

#[global] Instance Counter_eq_dec : EqDecision Counter.
Proof. solve_decision. Defined.

(** The [switch (op)]: which counter a code increments, if any. *)
Definition counterOf (op : Op) : option Counter :=
  match op with
  | setFont => Some kFont
  | paintImageXObject | paintInlineImageXObject | paintImageMaskXObject =>
      Some kImage
  | showText | showSpacedText => Some kText
  | moveTo | lineTo | rectangle | constructPath => Some kPath
  | curveTo | curveTo2 | curveTo3 => Some kCurve
  | fill | eoFill | fillStroke | eoFillStroke => Some kFill
  | stroke => Some kStroke
  | clip | eoClip => Some kClip
  | save | restore => Some kSaveRestore
  | transform => Some kTransform
  | shadingFill => Some kShading
  | dependency => Some kDependency
  | otherOp _ => None
  end.

(** The loop's variables: the twelve counters and the [fontNames] set. *)
Record Counts : Type := {
  count : Counter -> N;
  fontNames : list str;
}.

Definition zeroCounts : Counts :=
  {| count := fun _ => 0%N; fontNames := [] |}.

(** [k++]. *)
Definition bump (k : Counter) (f : Counter -> N) : Counter -> N :=
  fun j => if decide (j = k) then (f j + 1)%N else f j.

(** [Set.prototype.add]: insertion order, no duplicate. *)
Definition setAdd (x : str) (s : list str) : list str :=
  if bool_decide (x ∈ s) then s else s ++ [x].

(** The body of the counting loop for one operator. *)
Definition tally (c : Counts) (o : Operation) : Counts :=
  match counterOf (fn o) with
  | Some k =>
      {| count := bump k (count c);
         fontNames := match fn o, arg0 o with
                      | setFont, Some f => setAdd f (fontNames c)
                      | _, _ => fontNames c
                      end |}
  | None => c
  end.

(** [for (let i = 0; i < fnArray.length; i++) { ... }]. *)
Definition tallyAll (ops : list Operation) : Counts :=
  fold_left tally ops zeroCounts.

(** What [page.commonObjs.get(fontName, cb)] raced against the 100 ms timer
    delivers: a font object, [null] (the timer won, or the object is null),
    or an exception. *)
Record FontObj : Type := {
  fo_name : str;
  fo_type : str;
  fo_isMonospace : bool;
  fo_isSerifFont : bool;
}.

Inductive FontLookup : Type :=
  | FontResolved (f : FontObj)
  | FontNull
  | FontThrows.

Record FontInfo : Type := {
  name : str;
  type : str;
  isEmbedded : bool;
  isMonospace : bool;
  isSerifFont : bool;
  isType3 : bool;
}.

Definition Type3 : str := lit "Type3".
Definition unknown : str := lit "unknown".
Definition error : str := lit "error".
Definition g_ : str := lit "g_".

Definition strEq (a b : str) : bool := bool_decide (a = b).

(** [a || b] on strings. *)
Definition orElse (a b : str) : str := if truthy a then a else b.

(** The body of the font loop for one font name seen for the first time:
    the [FontInfo] pushed and whether [type3FontCount] is incremented. *)
Definition classify (fontName : str) (r : FontLookup) : FontInfo * bool :=
  match r with
  | FontResolved f =>
      let t3 := strEq (fo_type f) Type3 || strEq (fo_name f) Type3
                || includes Type3 fontName in
      ({| name := orElse (fo_name f) fontName;
          type := orElse (fo_type f) unknown;
          isEmbedded := startsWith g_ fontName;
          isMonospace := fo_isMonospace f;
          isSerifFont := fo_isSerifFont f;
          isType3 := t3 |}, t3)
  | FontNull =>
      let t3 := includes Type3 fontName in
      ({| name := fontName; type := unknown;
          isEmbedded := startsWith g_ fontName;
          isMonospace := false; isSerifFont := false;
          isType3 := t3 |}, t3)
  | FontThrows =>
      ({| name := fontName; type := error;
          isEmbedded := startsWith g_ fontName;
          isMonospace := false; isSerifFont := false;
          isType3 := false |}, false)
  end.

(** State of the font loop: [seenFonts], [fontDetails], [type3FontCount]. *)
Record FontScan : Type := {
  seenFonts : list str;
  fontDetails : list FontInfo;
  type3FontCount : N;
}.

(** One text-content item: its [fontName] when the property is present and
    truthy. *)
Definition fontStep (commonObjs : str -> FontLookup)
    (s : FontScan) (item : option str) : FontScan :=
  match item with
  | Some fontName =>
      if bool_decide (fontName ∈ seenFonts s) then s
      else
        let '(info, t3) := classify fontName (commonObjs fontName) in
        {| seenFonts := seenFonts s ++ [fontName];
           fontDetails := fontDetails s ++ [info];
           type3FontCount := if t3 then type3FontCount s + 1
                             else type3FontCount s |}
  | None => s
  end.

(** [textContent] is [None] when [page.getTextContent()] throws: the outer
    [catch] only logs, and the scan stays at its initial state. *)
Definition scanFonts (commonObjs : str -> FontLookup)
    (textContent : option (list (option str))) : FontScan :=
  let s0 := {| seenFonts := []; fontDetails := []; type3FontCount := 0 |} in
  match textContent with
  | Some items => fold_left (fontStep commonObjs) items s0
  | None => s0
  end.

(** The content of one message pushed on [heavyReasons].  The source
    renders each as a template literal through [toLocaleString], whose
    output depends on the locale; the embedding keeps the rule and the
    numbers the message is built from. *)
Inductive Reason : Type :=
  | ReasonType3 (type3FontCount estimatedType3Cost : N)
  | ReasonTextCount (textCount : N)
  | ReasonFontSwitch (fontCount : N)
  | ReasonOperationCount (operationCount : N).

Record PageComplexity : Type := {
  operationCount : N;
  fontCount : N;
  imageCount : N;
  textCount : N;
  pathCount : N;
  curveCount : N;
  fillCount : N;
  strokeCount : N;
  clipCount : N;
  saveRestoreCount : N;
  transformCount : N;
  shadingCount : N;
  dependencyCount : N;
  uniqueFonts : list str;
  pc_fontDetails : list FontInfo;
  hasType3Fonts : bool;
  pc_type3FontCount : N;
  estimatedType3Cost : N;
  isHeavy : bool;
  heavyReasons : list Reason;
  heavyReason : option (list Reason);
}.

(** One [if (cond) { isHeavy = true; heavyReasons.push(r); }] on the pair
    ([isHeavy], [heavyReasons]). *)
Definition flag (cond : bool) (r : Reason) (v : bool * list Reason)
    : bool * list Reason :=
  if cond then (true, snd v ++ [r]) else v.

(** [analyzePageComplexity], from the operator list, the text content and
    the font table of the page.  ([opCounts] and [analysisTime], which are
    diagnostics, are left out.) *)
Definition analyzePageComplexity (ops : list Operation)
    (textContent : option (list (option str)))
    (commonObjs : str -> FontLookup) : PageComplexity :=
  let operationCount := N.of_nat (length ops) in
  let c := tallyAll ops in
  let fs := scanFonts commonObjs textContent in
  let textCount := count c kText in
  let fontCount := count c kFont in
  let type3FontCount := type3FontCount fs in
  let hasType3Fonts := (0 <? type3FontCount)%N in
  let estimatedType3Cost :=
    if hasType3Fonts then (textCount * TYPE3_COST_MULTIPLIER)%N else 0%N in
  let verdict := (false, @nil Reason) in
  let verdict :=
    flag (hasType3Fonts && (10 <? textCount)%N)
         (ReasonType3 type3FontCount estimatedType3Cost) verdict in
  let verdict :=
    flag (HEAVY_TEXT_THRESHOLD <? textCount)%N
         (ReasonTextCount textCount) verdict in
  let verdict :=
    flag (HEAVY_FONT_SWITCH_THRESHOLD <? fontCount)%N
         (ReasonFontSwitch fontCount) verdict in
  let verdict :=
    flag (HEAVY_PAGE_THRESHOLD <? operationCount)%N
         (ReasonOperationCount operationCount) verdict in
  let isHeavy := fst verdict in
  let heavyReasons := snd verdict in
  {| operationCount := operationCount;
     fontCount := fontCount;
     imageCount := count c kImage;
     textCount := textCount;
     pathCount := count c kPath;
     curveCount := count c kCurve;
     fillCount := count c kFill;
     strokeCount := count c kStroke;
     clipCount := count c kClip;
     saveRestoreCount := count c kSaveRestore;
     transformCount := count c kTransform;
     shadingCount := count c kShading;
     dependencyCount := count c kDependency;
     uniqueFonts := fontNames c;
     pc_fontDetails := fontDetails fs;
     hasType3Fonts := hasType3Fonts;
     pc_type3FontCount := type3FontCount;
     estimatedType3Cost := estimatedType3Cost;
     isHeavy := isHeavy;
     heavyReasons := heavyReasons;
     heavyReason := match heavyReasons with
                    | [] => None
                    | _ :: _ => Some heavyReasons
                    end |}.

(** The operators the [switch] counts as text-show and as font-switch. *)
Definition isTextShow (o : Operation) : bool :=
  match fn o with showText | showSpacedText => true | _ => false end.

Definition isFontSwitch (o : Operation) : bool :=
  match fn o with setFont => true | _ => false end.

(** The four rules of the verdict, on a computed profile. *)
Definition ruleType3 (c : PageComplexity) : Prop :=
  (0 < pc_type3FontCount c)%N ∧ (10 < textCount c)%N.
Definition ruleText (c : PageComplexity) : Prop := (1000 < textCount c)%N.
Definition ruleFontSwitch (c : PageComplexity) : Prop := (200 < fontCount c)%N.
Definition ruleOperations (c : PageComplexity) : Prop :=
  (10000 < operationCount c)%N.

(** Sample pages: [n] text-show operators and nothing else, no text
    content. *)
Definition textOnly (n : nat) : list Operation :=
  repeat {| fn := showText; arg0 := None |} n.

End Analyzer.

(* ===================================================================== *)
(** * Effects: state, exceptions, [try]/[catch]/[finally] *)
(* ===================================================================== *)

Module Eff.

(** What a JavaScript exception carries, as far as the code looks at it:
    pdf.js signals a cancelled render task by an error whose [name] is
    [RenderingCancelledException]; any other error is [Error message]. *)
Inductive Exn : Type :=
  | RenderingCancelledException
  | Error (message : string).

(** Abrupt completions of a statement: [return;] and [throw e]. *)
Inductive Ctl : Type :=
  | Return
  | Throw (e : Exn).

Inductive Completion (A : Type) : Type :=
  | Normal (a : A)
  | Abrupt (c : Ctl).
Arguments Normal {A} a.
Arguments Abrupt {A} c.

(** A computation over a store [S]. *)
Definition M (S A : Type) : Type := S → Completion A * S.

#[global] Instance M_ret {S} : MRet (M S) :=
  λ A a s, (Normal a, s).

#[global] Instance M_bind {S} : MBind (M S) :=
  λ A B f m s,
    match m s with
    | (Normal a, s') => f a s'
    | (Abrupt c, s') => (Abrupt c, s')
    end.

Definition throw {S A} (e : Exn) : M S A := λ s, (Abrupt (Throw e), s).
Definition return_ {S A} : M S A := λ s, (Abrupt Return, s).
Definition get {S} : M S S := λ s, (Normal s, s).
Definition modify {S} (f : S → S) : M S unit := λ s, (Normal tt, f s).

(** [if (c) { m }]. *)
Definition when {S} (c : bool) (m : M S unit) : M S unit :=
  if c then m else mret tt.

(** [try { body } catch (err) { handler err }]: a [return] passes through. *)
Definition try_catch {S A} (body : M S A) (handler : Exn → M S A) : M S A :=
  λ s,
    match body s with
    | (Abrupt (Throw e), s') => handler e s'
    | r => r
    end.

(** [try { body } finally { fin }]: [fin] runs on every completion of
    [body]; an abrupt completion of [fin] replaces that of [body]. *)
Definition try_finally {S A} (body : M S A) (fin : M S unit) : M S A :=
  λ s,
    let '(r, s') := body s in
    match fin s' with
    | (Normal _, s'') => (r, s'')
    | (Abrupt c, s'') => (Abrupt c, s'')
    end.

(** The boundary of a function returning nothing: [return;] completes the
    call normally. *)
Definition call {S} (body : M S unit) : M S unit :=
  λ s,
    match body s with
    | (Abrupt Return, s') => (Normal tt, s')
    | r => r
    end.

(** What an awaited call into a library delivers. *)
Inductive Outcome (A : Type) : Type :=
  | Returns (a : A)
  | Throws (e : Exn).
Arguments Returns {A} a.
Arguments Throws {A} e.

(** [await f(...)] with the delivered outcome. *)
Definition await {S A} (o : Outcome A) : M S A :=
  match o with
  | Returns a => mret a
  | Throws e => throw e
  end.

(** Weakest precondition: [Qn] on normal completion, [Qa] on an abrupt
    one. *)
Definition wp {S A} (m : M S A) (Qn : A → S → Prop) (Qa : Ctl → S → Prop)
    (s : S) : Prop :=
  match m s with
  | (Normal a, s') => Qn a s'
  | (Abrupt c, s') => Qa c s'
  end.

End Eff.

(* ===================================================================== *)
(** * PDFium adapter *)
(* ===================================================================== *)

Module Pdfium.
Import Eff.

(** The four kinds of native resource the routine holds. *)
Inductive Kind : Type := InputBuffer | Document | Page | Bitmap.

#[global] Instance Kind_eq_dec : EqDecision Kind.
Proof. solve_decision. Defined.

(** The native calls that acquire or release a resource, as logged when
    they return.  Handles are WebAssembly addresses; 0 is the null
    handle. *)
Inductive NativeCall : Type :=
  | call_malloc (size : Z) (ret : Z)
  | call_FPDF_LoadMemDocument (filePtr size password : Z) (ret : Z)
  | call_FPDF_LoadPage (docPtr index : Z) (ret : Z)
  | call_FPDFBitmap_Create (width height alpha : Z) (ret : Z)
  | call_FPDFBitmap_Destroy (bitmapPtr : Z)
  | call_FPDF_ClosePage (pagePtr : Z)
  | call_FPDF_CloseDocument (docPtr : Z)
  | call_free (ptr : Z).

(** What the PDFium module answers during one run.  Each function is
    called at most once by the routine, so one outcome per function
    describes a run; every call into the module may raise a JavaScript
    exception, the release functions as well. *)
Record World : Type := {
  initPdfium : Outcome unit;
  malloc : Outcome Z;
  HEAPU8_length : Z;
  stringToUTF8 : Outcome Z;
  FPDF_LoadMemDocument : Outcome Z;
  FPDF_GetLastError : Outcome Z;
  FPDF_LoadPage : Outcome Z;
  FPDF_GetPageWidthF : Outcome Q;
  FPDF_GetPageHeightF : Outcome Q;
  FPDFBitmap_Create : Outcome Z;
  FPDFBitmap_FillRect : Outcome unit;
  FPDF_RenderPageBitmap : Outcome unit;
  FPDFBitmap_GetBuffer : Outcome Z;
  FPDFBitmap_GetStride : Outcome Z;
  FPDFBitmap_Destroy : Outcome unit;
  FPDF_ClosePage : Outcome unit;
  FPDF_CloseDocument : Outcome unit;
  free : Outcome unit;
  HEAPU8 : Z → Z;
}.

(** The local variables assigned inside [try] and read in [finally], and
    the log of native calls. *)
Record Frame : Type := {
  docPtr : Z;
  pagePtr : Z;
  bitmapPtr : Z;
  log : list NativeCall;
}.

Definition emit (c : NativeCall) : M Frame unit :=
  modify (λ f, {| docPtr := docPtr f; pagePtr := pagePtr f;
                  bitmapPtr := bitmapPtr f; log := log f ++ [c] |}).
Definition set_docPtr (v : Z) : M Frame unit :=
  modify (λ f, {| docPtr := v; pagePtr := pagePtr f;
                  bitmapPtr := bitmapPtr f; log := log f |}).
Definition set_pagePtr (v : Z) : M Frame unit :=
  modify (λ f, {| docPtr := docPtr f; pagePtr := v;
                  bitmapPtr := bitmapPtr f; log := log f |}).
Definition set_bitmapPtr (v : Z) : M Frame unit :=
  modify (λ f, {| docPtr := docPtr f; pagePtr := pagePtr f;
                  bitmapPtr := v; log := log f |}).

Record ImageData : Type := {
  data : list Z;
  width : Z;
  height : Z;
}.

(** Truthiness of a handle. *)
Definition nonNull (p : Z) : bool := negb (p =? 0)%Z.

(** The pixel loop: BGRA in the bitmap buffer to RGBA. *)
Definition readPixels (heap : Z → Z) (bufferPtr stride : Z)
    (renderWidth renderHeight : Z) : list Z :=
  y ← seq 0 (Z.to_nat renderHeight);
  x ← seq 0 (Z.to_nat renderWidth);
  let srcOffset := (bufferPtr + Z.of_nat y * stride + Z.of_nat x * 4)%Z in
  [heap (srcOffset + 2)%Z; heap (srcOffset + 1)%Z;
   heap (srcOffset + 0)%Z; heap (srcOffset + 3)%Z].

(** The [try] block of [renderPageWithPdfium]. *)
Definition tryBlock (w : World) (filePtr size pageNum : Z) (scale : Q)
    (rotation : Z) (password : bool) : M Frame ImageData :=
  pw ← (if password then await (stringToUTF8 w) else mret 0%Z);
  d ← await (FPDF_LoadMemDocument w);
  emit (call_FPDF_LoadMemDocument filePtr size pw d);;
  set_docPtr d;;
  (if nonNull d then mret tt
   else _ ← await (FPDF_GetLastError w);
        throw (Error "Failed to load PDF document"));;
  p ← await (FPDF_LoadPage w);
  emit (call_FPDF_LoadPage d (pageNum - 1) p);;
  set_pagePtr p;;
  (if nonNull p then mret tt else throw (Error "Failed to load page"));;
  pageWidth ← await (FPDF_GetPageWidthF w);
  pageHeight ← await (FPDF_GetPageHeightF w);
  let isRotated90or270 := ((rotation =? 90) || (rotation =? 270))%Z in
  let renderWidth :=
    Qceiling ((if isRotated90or270 then pageHeight else pageWidth) * scale)%Q
  in
  let renderHeight :=
    Qceiling ((if isRotated90or270 then pageWidth else pageHeight) * scale)%Q
  in
  b ← await (FPDFBitmap_Create w);
  emit (call_FPDFBitmap_Create renderWidth renderHeight 1 b);;
  set_bitmapPtr b;;
  (if nonNull b then mret tt else throw (Error "Failed to create bitmap"));;
  _ ← await (FPDFBitmap_FillRect w);
  _ ← await (FPDF_RenderPageBitmap w);
  bufferPtr ← await (FPDFBitmap_GetBuffer w);
  stride ← await (FPDFBitmap_GetStride w);
  (* new Uint8ClampedArray(n) and new ImageData(data, sw, sh) reject
     sizes that are not positive *)
  (if ((renderWidth <=? 0) || (renderHeight <=? 0))%Z
   then throw (Error "invalid image size") else mret tt);;
  mret {| data := readPixels (HEAPU8 w) bufferPtr stride
                    renderWidth renderHeight;
          width := renderWidth;
          height := renderHeight |}.

(** The [finally] block of [renderPageWithPdfium]: four plain calls, so a
    call that throws ends the block. *)
Definition finallyBlock (w : World) (filePtr : Z) : M Frame unit :=
  f ← get;
  when (nonNull (bitmapPtr f))
       (_ ← await (FPDFBitmap_Destroy w);
        emit (call_FPDFBitmap_Destroy (bitmapPtr f)));;
  when (nonNull (pagePtr f))
       (_ ← await (FPDF_ClosePage w);
        emit (call_FPDF_ClosePage (pagePtr f)));;
  when (nonNull (docPtr f))
       (_ ← await (FPDF_CloseDocument w);
        emit (call_FPDF_CloseDocument (docPtr f)));;
  _ ← await (free w);
  emit (call_free filePtr).

(** [renderPageWithPdfium(pdfData, pageNum, scale, rotation, password)];
    [size] is [pdfData.byteLength], [password] tells whether a non-empty
    password was passed. *)
Definition renderPageWithPdfium (w : World) (size : Z) (pageNum : Z)
    (scale : Q) (rotation : Z) (password : bool) : M Frame ImageData :=
  _ ← await (initPdfium w);
  filePtr ← await (malloc w);
  emit (call_malloc size filePtr);;
  (* HEAPU8.set(dataArray, filePtr): RangeError when the offset is negative
     or the block does not end inside the view *)
  (if ((filePtr <? 0) || (HEAPU8_length w <? filePtr + size))%Z
   then throw (Error "offset is out of bounds") else mret tt);;
  set_docPtr 0;; set_pagePtr 0;; set_bitmapPtr 0;;
  try_finally
    (tryBlock w filePtr size pageNum scale rotation password)
    (finallyBlock w filePtr).

Definition emptyFrame : Frame :=
  {| docPtr := 0; pagePtr := 0; bitmapPtr := 0; log := [] |}.

(** The resource a logged call hands out: the acquisition functions, when
    they return a non-null handle. *)
Definition acquires (c : NativeCall) : option (Kind * Z) :=
  match c with
  | call_malloc _ p => if nonNull p then Some (InputBuffer, p) else None
  | call_FPDF_LoadMemDocument _ _ _ p =>
      if nonNull p then Some (Document, p) else None
  | call_FPDF_LoadPage _ _ p => if nonNull p then Some (Page, p) else None
  | call_FPDFBitmap_Create _ _ _ p =>
      if nonNull p then Some (Bitmap, p) else None
  | _ => None
  end.

(** The resource a logged call gives back: the release functions
    ([free(0)] releases nothing). *)
Definition releases (c : NativeCall) : option (Kind * Z) :=
  match c with
  | call_FPDFBitmap_Destroy p => Some (Bitmap, p)
  | call_FPDF_ClosePage p => Some (Page, p)
  | call_FPDF_CloseDocument p => Some (Document, p)
  | call_free p => if nonNull p then Some (InputBuffer, p) else None
  | _ => None
  end.

Definition acquired (l : list NativeCall) : list (Kind * Z) :=
  omap acquires l.
Definition released (l : list NativeCall) : list (Kind * Z) :=
  omap releases l.

(** The resources live after a log: each acquisition adds its handle, each
    release removes one occurrence of it. *)
Fixpoint removeOne (r : Kind * Z) (l : list (Kind * Z)) : list (Kind * Z) :=
  match l with
  | [] => []
  | x :: l' => if decide (x = r) then l' else x :: removeOne r l'
  end.

Definition liveStep (live : list (Kind * Z)) (c : NativeCall)
    : list (Kind * Z) :=
  match acquires c, releases c with
  | Some r, _ => live ++ [r]
  | None, Some r => removeOne r live
  | None, None => live
  end.

Definition live (l : list NativeCall) : list (Kind * Z) :=
  fold_left liveStep l [].

(** The allocator's contract: a block it hands out lies inside the heap
    that [HEAPU8] views. *)
Definition allocatorSound (w : World) (size : Z) : Prop :=
  ∀ p, malloc w = Returns p → p ≠ 0%Z →
       (0 ≤ p ∧ p + size ≤ HEAPU8_length w)%Z.

(** The four release functions return. *)
Definition releasesReturn (w : World) : Prop :=
  FPDFBitmap_Destroy w = Returns tt ∧ FPDF_ClosePage w = Returns tt ∧
  FPDF_CloseDocument w = Returns tt ∧ free w = Returns tt.

(** The handle of kind [k] held in a variable, if any. *)
Definition held (k : Kind) (p : Z) : list (Kind * Z) :=
  if nonNull p then [(k, p)] else [].

(** What holds of the frame wherever the [try] block is left: the log
    extends the prologue's by acquisitions only, and the three variables
    hold exactly the handles acquired. *)
Definition tryInv (l0 : list NativeCall) (f : Frame) : Prop :=
  ∃ l, log f = l0 ++ l ∧ released l = [] ∧
       acquired l = held Document (docPtr f) ++ held Page (pagePtr f)
                    ++ held Bitmap (bitmapPtr f).

(** The postcondition of the routine. *)
Definition balanced (f : Frame) : Prop :=
  released (log f) = rev (acquired (log f)) ∧
  NoDup (acquired (log f)) ∧
  live (log f) = [] ∧
  (∀ r, r ∈ acquired (log f) →
        length (filter (λ x, x = r) (released (log f))) = 1).

(** Sample run: the document loads (handle 7), the page does not (null
    handle); a 100-byte buffer at address 4096 of a 64 KiB heap. *)
Definition pageLoadFails : World :=
  {| initPdfium := Returns tt;
     malloc := Returns 4096%Z;
     HEAPU8_length := 65536;
     stringToUTF8 := Returns 0%Z;
     FPDF_LoadMemDocument := Returns 7%Z;
     FPDF_GetLastError := Returns 0%Z;
     FPDF_LoadPage := Returns 0%Z;
     FPDF_GetPageWidthF := Returns 612%Q;
     FPDF_GetPageHeightF := Returns 792%Q;
     FPDFBitmap_Create := Returns 9%Z;
     FPDFBitmap_FillRect := Returns tt;
     FPDF_RenderPageBitmap := Returns tt;
     FPDFBitmap_GetBuffer := Returns 8192%Z;
     FPDFBitmap_GetStride := Returns 8%Z;
     FPDFBitmap_Destroy := Returns tt;
     FPDF_ClosePage := Returns tt;
     FPDF_CloseDocument := Returns tt;
     free := Returns tt;
     HEAPU8 := λ _, 255%Z |}.


(** Sample run: the allocator hands out the 100 bytes at address 65500 of
    a heap that [HEAPU8] views as 65536 bytes, so that the copy of the
    document into the heap is out of bounds. *)
Definition copyOutOfBounds : World :=
  {| initPdfium := Returns tt;
     malloc := Returns 65500%Z;
     HEAPU8_length := 65536;
     stringToUTF8 := Returns 0%Z;
     FPDF_LoadMemDocument := Returns 7%Z;
     FPDF_GetLastError := Returns 0%Z;
     FPDF_LoadPage := Returns 8%Z;
     FPDF_GetPageWidthF := Returns 2%Q;
     FPDF_GetPageHeightF := Returns 1%Q;
     FPDFBitmap_Create := Returns 9%Z;
     FPDFBitmap_FillRect := Returns tt;
     FPDF_RenderPageBitmap := Returns tt;
     FPDFBitmap_GetBuffer := Returns 8192%Z;
     FPDFBitmap_GetStride := Returns 8%Z;
     FPDFBitmap_Destroy := Returns tt;
     FPDF_ClosePage := Returns tt;
     FPDF_CloseDocument := Returns tt;
     free := Returns tt;
     HEAPU8 := λ a, (a mod 4)%Z |}.

(** Sample run: every call of the [try] block succeeds, and
    [FPDFBitmap_Destroy] throws. *)
Definition destroyThrows : World :=
  {| initPdfium := Returns tt;
     malloc := Returns 4096%Z;
     HEAPU8_length := 65536;
     stringToUTF8 := Returns 0%Z;
     FPDF_LoadMemDocument := Returns 7%Z;
     FPDF_GetLastError := Returns 0%Z;
     FPDF_LoadPage := Returns 8%Z;
     FPDF_GetPageWidthF := Returns 2%Q;
     FPDF_GetPageHeightF := Returns 1%Q;
     FPDFBitmap_Create := Returns 9%Z;
     FPDFBitmap_FillRect := Returns tt;
     FPDF_RenderPageBitmap := Returns tt;
     FPDFBitmap_GetBuffer := Returns 8192%Z;
     FPDFBitmap_GetStride := Returns 8%Z;
     FPDFBitmap_Destroy := Throws (Error "memory access out of bounds");
     FPDF_ClosePage := Returns tt;
     FPDF_CloseDocument := Returns tt;
     free := Returns tt;
     HEAPU8 := λ a, (a mod 4)%Z |}.

End Pdfium.

(* ===================================================================== *)
(** * Single-page viewer: [executeRender] *)
(* ===================================================================== *)

Module SinglePage.
Import Eff.

(** What the render does to the world outside the component. *)
Inductive Event : Type :=
  | CancelRenderTask
  | GetPage (pageNum : nat)
  | Analyze (pageNum : nat)
  | YieldToMain
  | PdfiumRender (pageNum : nat)
  | PutImageData
  | ClearTextLayer
  | Warn
  | PdfjsRender (pageNum : nat)
  | RenderTextLayer (pageNum : nat) (query : Js.str).

(** The state and refs of the component that [executeRender] touches. *)
Record View : Type := {
  isAnalyzing : bool;
  isRendering : bool;
  error : option string;
  currentRenderTask : bool;
  trace : list Event;
}.

(** The closure of one call: what the refs and the captured state hold,
    and what each awaited call delivers. *)
Record Env : Type := {
  canvas : bool;
  textLayer : bool;
  pdfArrayBuffer : bool;
  getPage : Outcome unit;
  analyzePageComplexity : Outcome Analyzer.PageComplexity;
  renderPageWithPdfium : Outcome unit;
  pdfiumContext : bool;
  canvasContext : bool;
  renderTask : Outcome unit;
  getTextContent : Outcome unit;
}.

Definition emit (e : Event) : M View unit :=
  modify (λ v, {| isAnalyzing := isAnalyzing v; isRendering := isRendering v;
                  error := error v;
                  currentRenderTask := currentRenderTask v;
                  trace := trace v ++ [e] |}).
Definition setIsAnalyzing (b : bool) : M View unit :=
  modify (λ v, {| isAnalyzing := b; isRendering := isRendering v;
                  error := error v;
                  currentRenderTask := currentRenderTask v;
                  trace := trace v |}).
Definition setIsRendering (b : bool) : M View unit :=
  modify (λ v, {| isAnalyzing := isAnalyzing v; isRendering := b;
                  error := error v;
                  currentRenderTask := currentRenderTask v;
                  trace := trace v |}).
Definition setError (m : string) : M View unit :=
  modify (λ v, {| isAnalyzing := isAnalyzing v; isRendering := isRendering v;
                  error := Some m;
                  currentRenderTask := currentRenderTask v;
                  trace := trace v |}).
Definition setCurrentRenderTask (b : bool) : M View unit :=
  modify (λ v, {| isAnalyzing := isAnalyzing v; isRendering := isRendering v;
                  error := error v;
                  currentRenderTask := b;
                  trace := trace v |}).

(** [renderTextLayer(page, viewport, query)]. *)
Definition renderTextLayer (env : Env) (pageNum : nat) (query : Js.str)
    : M View unit :=
  if textLayer env then
    emit ClearTextLayer;;
    _ ← await (getTextContent env);
    emit (RenderTextLayer pageNum query)
  else mret tt.

(** [renderWithPdfiumInternal(pageNum)]. *)
Definition renderWithPdfiumInternal (env : Env) (pageNum : nat)
    : M View bool :=
  if negb (canvas env) || negb (pdfArrayBuffer env) then mret false
  else
    try_catch
      (emit (PdfiumRender pageNum);;
       _ ← await (renderPageWithPdfium env);
       when (pdfiumContext env) (emit PutImageData);;
       when (textLayer env) (emit ClearTextLayer);;
       mret true)
      (λ _, emit Warn;; mret false).

(** The message [setError] receives. *)
Definition renderErrorMessage (e : Exn) : string :=
  match e with
  | Error m => m
  | RenderingCancelledException => "RenderingCancelledException"
  end.

(** [executeRender(doc, pageNum, query)]. *)
Definition executeRender (env : Env) (pageNum : nat) (query : Js.str)
    : M View unit :=
  call
    ((if canvas env then mret tt else @return_ View unit);;
     v ← get;
     when (currentRenderTask v)
          (emit CancelRenderTask;; setCurrentRenderTask false);;
     setIsAnalyzing true;;
     try_finally
       (try_catch
          (emit (GetPage pageNum);;
           _ ← await (getPage env);
           emit (Analyze pageNum);;
           complexity ← await (analyzePageComplexity env);
           setIsAnalyzing false;;
           setIsRendering true;;
           emit YieldToMain;;
           (if Analyzer.isHeavy complexity && pdfArrayBuffer env then
              success ← renderWithPdfiumInternal env pageNum;
              if success : bool then @return_ View unit else emit Warn
            else mret tt);;
           (if canvasContext env then mret tt else @return_ View unit);;
           emit (PdfjsRender pageNum);;
           setCurrentRenderTask true;;
           try_finally
             (try_catch
                (await (renderTask env))
                (λ err, match err with
                        | RenderingCancelledException => @return_ View unit
                        | _ => throw err
                        end))
             (setCurrentRenderTask false);;
           renderTextLayer env pageNum query)
          (λ err, match err with
                  | RenderingCancelledException => @return_ View unit
                  | _ => setError (renderErrorMessage err)
                  end))
       (setIsAnalyzing false;; setIsRendering false)).

(** The events of an attempt with the PDFium renderer. *)
Definition isPdfiumAttempt (e : Event) : bool :=
  match e with
  | PdfiumRender _ | Warn => true
  | _ => false
  end.

(** A profile that is not heavy: the one of a page without operators. *)
Definition lightProfile : Analyzer.PageComplexity :=
  Analyzer.analyzePageComplexity [] None (λ _, Analyzer.FontNull).

(** The same closure, had the analyzer found the page light. *)
Definition asLightPage (env : Env) : Env :=
  {| canvas := canvas env; textLayer := textLayer env;
     pdfArrayBuffer := pdfArrayBuffer env;
     getPage := getPage env;
     analyzePageComplexity :=
       match analyzePageComplexity env with
       | Returns _ => Returns lightProfile
       | Throws e => Throws e
       end;
     renderPageWithPdfium := renderPageWithPdfium env;
     pdfiumContext := pdfiumContext env;
     canvasContext := canvasContext env;
     renderTask := renderTask env;
     getTextContent := getTextContent env |}.

Definition idle : View :=
  {| isAnalyzing := false; isRendering := false; error := None;
     currentRenderTask := false; trace := [] |}.

(** Sample closure: a heavy page (1001 text-show operators), the byte
    snapshot held, the PDFium renderer throwing, pdf.js succeeding. *)
Definition pdfiumThrows : Env :=
  {| canvas := true; textLayer := true; pdfArrayBuffer := true;
     getPage := Returns tt;
     analyzePageComplexity :=
       Returns (Analyzer.analyzePageComplexity (Analyzer.textOnly 1001)
                  None (λ _, Analyzer.FontNull));
     renderPageWithPdfium := Throws (Error "Failed to load PDF document");
     pdfiumContext := true;
     canvasContext := true;
     renderTask := Returns tt;
     getTextContent := Returns tt |}.

End SinglePage.

(* ===================================================================== *)
(** * Continuous-scroll viewer: per-page render state *)
(* ===================================================================== *)

Module Scroll.
Import Eff.

Record PageRenderState : Type := {
  rendered : bool;
  rendering : bool;
  usedPdfium : bool;
}.

#[global] Instance PageRenderState_eq_dec : EqDecision PageRenderState.
Proof. solve_decision. Defined.

(** The spans of a page's text layer are determined by the viewport and
    the query they were built for. *)
Record TextLayer : Type := {
  tl_query : Js.str;
  tl_scale : Q;
  tl_rotation : Z;
}.

Inductive Event : Type :=
  | GetPage (pageNum : nat)
  | Analyze (pageNum : nat)
  | YieldToMain
  | PdfiumRender (pageNum : nat) (scale : Q) (rotation : Z)
  | PutImageData (pageNum : nat)
  | PdfjsRender (pageNum : nat) (scale : Q) (rotation : Z)
  | Warn
  | ConsoleError.

(** The component's state, the page elements and what was asked of the
    renderers.  [pdfDoc] holds [numPages]; [textLayers p = None] is an
    empty text layer. *)
Record Viewer : Type := {
  pdfDoc : option nat;
  pdfArrayBuffer : bool;
  scale : Q;
  rotation : Z;
  searchQuery : Js.str;
  pageRenderStates : gmap nat PageRenderState;
  pageRefs : nat → bool;
  textLayers : nat → option TextLayer;
  trace : list Event;
}.

Definition with_pageRenderStates (m : gmap nat PageRenderState) (v : Viewer)
    : Viewer :=
  {| pdfDoc := pdfDoc v; pdfArrayBuffer := pdfArrayBuffer v;
     scale := scale v; rotation := rotation v; searchQuery := searchQuery v;
     pageRenderStates := m; pageRefs := pageRefs v;
     textLayers := textLayers v; trace := trace v |}.
Definition with_textLayers (t : nat → option TextLayer) (v : Viewer)
    : Viewer :=
  {| pdfDoc := pdfDoc v; pdfArrayBuffer := pdfArrayBuffer v;
     scale := scale v; rotation := rotation v; searchQuery := searchQuery v;
     pageRenderStates := pageRenderStates v; pageRefs := pageRefs v;
     textLayers := t; trace := trace v |}.
Definition with_trace (t : list Event) (v : Viewer) : Viewer :=
  {| pdfDoc := pdfDoc v; pdfArrayBuffer := pdfArrayBuffer v;
     scale := scale v; rotation := rotation v; searchQuery := searchQuery v;
     pageRenderStates := pageRenderStates v; pageRefs := pageRefs v;
     textLayers := textLayers v; trace := t |}.
Definition with_scale (x : Q) (v : Viewer) : Viewer :=
  {| pdfDoc := pdfDoc v; pdfArrayBuffer := pdfArrayBuffer v;
     scale := x; rotation := rotation v; searchQuery := searchQuery v;
     pageRenderStates := pageRenderStates v; pageRefs := pageRefs v;
     textLayers := textLayers v; trace := trace v |}.
Definition with_rotation (x : Z) (v : Viewer) : Viewer :=
  {| pdfDoc := pdfDoc v; pdfArrayBuffer := pdfArrayBuffer v;
     scale := scale v; rotation := x; searchQuery := searchQuery v;
     pageRenderStates := pageRenderStates v; pageRefs := pageRefs v;
     textLayers := textLayers v; trace := trace v |}.
Definition with_searchQuery (x : Js.str) (v : Viewer) : Viewer :=
  {| pdfDoc := pdfDoc v; pdfArrayBuffer := pdfArrayBuffer v;
     scale := scale v; rotation := rotation v; searchQuery := x;
     pageRenderStates := pageRenderStates v; pageRefs := pageRefs v;
     textLayers := textLayers v; trace := trace v |}.

Definition emit (e : Event) : M Viewer unit :=
  modify (λ v, with_trace (trace v ++ [e]) v).

(** [setPageRenderStates(prev => new Map(prev).set(pageNum, st))]. *)
Definition setPageRenderState (pageNum : nat) (st : PageRenderState)
    : M Viewer unit :=
  modify (λ v, with_pageRenderStates (<[pageNum := st]> (pageRenderStates v)) v).

Definition setTextLayer (pageNum : nat) (t : option TextLayer)
    : M Viewer unit :=
  modify (λ v, with_textLayers
                 (λ q, if decide (q = pageNum) then t else textLayers v q) v).

(** The values a render works with: those its callback had captured. *)
Record Closure : Type := {
  c_scale : Q;
  c_rotation : Z;
  c_searchQuery : Js.str;
}.

(** What the awaited calls of one render deliver, and what the page
    container holds. *)
Record RenderEnv : Type := {
  getPage : Outcome unit;
  analyzePageComplexity : Outcome Analyzer.PageComplexity;
  elements : bool;
  renderPageWithPdfium : Outcome unit;
  pdfiumContext : bool;
  pdfiumTextContent : Outcome unit;
  canvasContext : bool;
  render : Outcome unit;
  getTextContent : Outcome unit;
}.

(** [renderTextLayerToElement(page, viewport, query, textLayerElement)]:
    the layer is emptied, the text content awaited, the spans appended. *)
Definition renderTextLayerToElement (pageNum : nat) (sc : Q) (rot : Z)
    (query : Js.str) (textContent : Outcome unit) : M Viewer unit :=
  setTextLayer pageNum None;;
  _ ← await textContent;
  setTextLayer pageNum
    (Some {| tl_query := query; tl_scale := sc; tl_rotation := rot |}).

(** [currentState?.rendered || currentState?.rendering]. *)
Definition alreadyHandled (m : gmap nat PageRenderState) (pageNum : nat)
    : bool :=
  match m !! pageNum with
  | Some st => rendered st || rendering st
  | None => false
  end.

Definition isLoaded (v : Viewer) : bool :=
  match pdfDoc v with Some _ => true | None => false end.

(** What the [renderSinglePage] callback holds of the component's state:
    the values it captured from the render that created it (the
    dependencies of its [useCallback]).  The state the component is in may
    have moved on since: a state setter only schedules the next render, and
    the callback in the hands of the observer is replaced when that render
    has run. *)
Record Callback : Type := {
  cb_pdfDoc : option nat;
  cb_pdfArrayBuffer : bool;
  cb_scale : Q;
  cb_rotation : Z;
  cb_searchQuery : Js.str;
  cb_pageRenderStates : gmap nat PageRenderState;
}.

(** The callback created by a render of the component in state [v]. *)
Definition callbackOf (v : Viewer) : Callback :=
  {| cb_pdfDoc := pdfDoc v; cb_pdfArrayBuffer := pdfArrayBuffer v;
     cb_scale := scale v; cb_rotation := rotation v;
     cb_searchQuery := searchQuery v;
     cb_pageRenderStates := pageRenderStates v |}.

Definition holdsDocument (cb : Callback) : bool :=
  match cb_pdfDoc cb with Some _ => true | None => false end.

(** [renderSinglePage(pageNum)] up to its first [await], called through
    the callback [cb]: the guards read what the callback captured
    ([pageRefsMap] is a ref and is read as it is), and
    [setPageRenderStates(prev => ...)] sets the [rendering] flag in the map
    of the component.  [Some c] when the render goes on, with the values
    it renders with. *)
Definition enter (cb : Callback) (pageNum : nat) : M Viewer (option Closure) :=
  v ← get;
  if negb (holdsDocument cb) || negb (cb_pdfArrayBuffer cb) then mret None
  else if negb (pageRefs v pageNum) then mret None
  else if alreadyHandled (cb_pageRenderStates cb) pageNum then mret None
  else
    setPageRenderState pageNum
      {| rendered := false; rendering := true; usedPdfium := false |};;
    mret (Some {| c_scale := cb_scale cb; c_rotation := cb_rotation cb;
                  c_searchQuery := cb_searchQuery cb |}).

(** The [try] block of [renderSinglePage]. *)
Definition tryBlock (env : RenderEnv) (c : Closure) (pageNum : nat)
    : M Viewer unit :=
  emit (GetPage pageNum);;
  _ ← await (getPage env);
  emit (Analyze pageNum);;
  complexity ← await (analyzePageComplexity env);
  emit YieldToMain;;
  (if elements env then mret tt else @return_ Viewer unit);;
  usedPdfium ←
    (if Analyzer.isHeavy complexity then
       try_catch
         (emit (PdfiumRender pageNum (c_scale c) (c_rotation c));;
          _ ← await (renderPageWithPdfium env);
          when (pdfiumContext env) (emit (PutImageData pageNum));;
          renderTextLayerToElement pageNum (c_scale c) (c_rotation c)
            (c_searchQuery c) (pdfiumTextContent env);;
          mret true)
         (λ _, emit Warn;; mret false)
     else mret false);
  (if usedPdfium : bool then mret tt
   else
     (if canvasContext env then
        emit (PdfjsRender pageNum (c_scale c) (c_rotation c));;
        await (render env)
      else mret tt);;
     renderTextLayerToElement pageNum (c_scale c) (c_rotation c)
       (c_searchQuery c) (getTextContent env));;
  setPageRenderState pageNum
    {| rendered := true; rendering := false; usedPdfium := usedPdfium |}.

(** [renderSinglePage(pageNum)] after the guards: the [try] block and its
    [catch]. *)
Definition resume (env : RenderEnv) (c : Closure) (pageNum : nat)
    : M Viewer unit :=
  call
    (try_catch
       (tryBlock env c pageNum)
       (λ _, emit ConsoleError;;
             setPageRenderState pageNum
               {| rendered := false; rendering := false;
                  usedPdfium := false |})).

(** [renderSinglePage(pageNum)], called through the callback of a render
    that has seen the state as it is, and run to completion. *)
Definition renderSinglePage (env : RenderEnv) (pageNum : nat)
    : M Viewer unit :=
  v ← get;
  o ← enter (callbackOf v) pageNum;
  match o with
  | Some c => resume env c pageNum
  | None => mret tt
  end.

(** What one pass of [updateTextLayers] meets for a page. *)
Record RefreshEnv : Type := {
  r_textLayer : nat → bool;
  r_getPage : nat → Outcome unit;
  r_getTextContent : nat → Outcome unit;
}.

(** [updateTextLayers()]: the loop over [pageRenderStates.entries()].
    Each entry is handled on its own (its own [try]/[catch], its own
    element), so the result is given page by page. *)
Definition updateTextLayers (r : RefreshEnv)
    (states : gmap nat PageRenderState) (v : Viewer) : Viewer :=
  with_textLayers
    (λ p,
       match states !! p with
       | Some st =>
           if rendered st && pageRefs v p && r_textLayer r p then
             match r_getPage r p, r_getTextContent r p with
             | Returns _, Returns _ =>
                 Some {| tl_query := searchQuery v; tl_scale := scale v;
                         tl_rotation := rotation v |}
             | Returns _, Throws _ => None
             | Throws _, _ => textLayers v p
             end
           else textLayers v p
       | None => textLayers v p
       end) v.

(** The effect on [[pdfDoc, scale, rotation]]. *)
Definition resetEffect (v : Viewer) : Viewer :=
  if isLoaded v then with_pageRenderStates ∅ v else v.

(** The effect on [[pdfDoc, searchQuery, scale, rotation, pageRenderStates,
    renderTextLayerToElement]]; it reads the map of the render that
    scheduled it. *)
Definition textLayerEffect (r : RefreshEnv)
    (states : gmap nat PageRenderState) (v : Viewer) : Viewer :=
  if isLoaded v then updateTextLayers r states v else v.

(** A render that has passed the guards and has not completed.  It holds
    the page container it found in [pageRefsMap]; [t_detached] tells that
    this element has since been unmounted (the render goes on, on an
    element that is no longer in the document). *)
Record Task : Type := {
  t_page : nat;
  t_closure : Closure;
  t_detached : bool;
}.

(** The component: its state, the [renderSinglePage] callback the
    observer calls, and the renders in flight. *)
Record System : Type := {
  viewer : Viewer;
  callback : Callback;
  inflight : list Task;
}.

(** [loadPdf(file)] up to its first [await]: the state is reset, and with
    [pdfDoc] null the page elements are unmounted. *)
Definition loadPdf (v : Viewer) : Viewer :=
  {| pdfDoc := None; pdfArrayBuffer := false;
     scale := scale v; rotation := 0; searchQuery := [];
     pageRenderStates := ∅; pageRefs := λ _, false;
     textLayers := λ _, None; trace := trace v |}.

(** The page elements mounted for a document of [n] pages. *)
Definition mounted (n pageNum : nat) : bool :=
  (1 <=? pageNum) && (pageNum <=? n).

(** [loadPdfWithPassword(data, inputPassword)] when [getDocument]
    delivers a document of [n] pages: the document and the byte snapshot
    are set, the state map is emptied, and the elements of the pages 1 to
    [n] are mounted (an element that was mounted for the same page number
    is kept, with what it shows). *)
Definition documentLoaded (n : nat) (v : Viewer) : Viewer :=
  {| pdfDoc := Some n; pdfArrayBuffer := true;
     scale := scale v; rotation := rotation v; searchQuery := searchQuery v;
     pageRenderStates := ∅; pageRefs := mounted n;
     textLayers := λ p, if pageRefs v p && mounted n p
                        then textLayers v p else None;
     trace := trace v |}.

(** What happens to the component.  A visibility callback requests a
    render through the callback the observer holds; a render in flight
    completes with the outcomes it met; the component renders again, which
    hands the observer a callback with the state as it is and runs the
    text-layer effect if the state map has changed; the user changes
    scale, rotation or query (the render and the effects that follow are
    part of the step); the user picks a file; the file's document arrives.
    The observer effect only subscribes: the renders it leads to are
    [Request]s of their own. *)
Inductive Action : Type :=
  | Request (pageNum : nat)
  | Complete (i : nat) (env : RenderEnv)
  | Rerender (r : RefreshEnv)
  | SetScale (s : Q) (r : RefreshEnv)
  | SetRotation (z : Z) (r : RefreshEnv)
  | SetSearchQuery (q : Js.str) (r : RefreshEnv)
  | LoadPdf
  | DocumentLoaded (numPages : nat).

Definition step (a : Action) (sys : System) : System :=
  let v := viewer sys in
  match a with
  | Request pageNum =>
      match enter (callback sys) pageNum v with
      | (Normal (Some c), v') =>
          {| viewer := v'; callback := callback sys;
             inflight := inflight sys
                         ++ [{| t_page := pageNum; t_closure := c;
                                t_detached := false |}] |}
      | (_, v') =>
          {| viewer := v'; callback := callback sys;
             inflight := inflight sys |}
      end
  | Complete i env =>
      match inflight sys !! i with
      | Some t =>
          let v' := snd (resume env (t_closure t) (t_page t) v) in
          {| viewer := if t_detached t
                       then with_textLayers (textLayers v) v' else v';
             callback := callback sys;
             inflight := delete i (inflight sys) |}
      | None => sys
      end
  | Rerender r =>
      {| viewer :=
           if bool_decide (cb_pageRenderStates (callback sys)
                           = pageRenderStates v)
           then v else textLayerEffect r (pageRenderStates v) v;
         callback := callbackOf v;
         inflight := inflight sys |}
  | SetScale s r =>
      if Qeq_bool s (scale v) then sys
      else
        let v1 := with_scale s v in
        let v2 := resetEffect (textLayerEffect r (pageRenderStates v) v1) in
        {| viewer := v2; callback := callbackOf v2;
           inflight := inflight sys |}
  | SetRotation z r =>
      if (z =? rotation v)%Z then sys
      else
        let v1 := with_rotation z v in
        let v2 := resetEffect (textLayerEffect r (pageRenderStates v) v1) in
        {| viewer := v2; callback := callbackOf v2;
           inflight := inflight sys |}
  | SetSearchQuery q r =>
      if bool_decide (q = searchQuery v) then sys
      else
        let v1 := with_searchQuery q v in
        let v2 := textLayerEffect r (pageRenderStates v) v1 in
        {| viewer := v2; callback := callbackOf v2;
           inflight := inflight sys |}
  | LoadPdf =>
      {| viewer := loadPdf v; callback := callbackOf (loadPdf v);
         inflight :=
           (λ t, {| t_page := t_page t; t_closure := t_closure t;
                    t_detached := true |}) <$> inflight sys |}
  | DocumentLoaded n =>
      {| viewer := documentLoaded n v;
         callback := callbackOf (documentLoaded n v);
         inflight :=
           (λ t, {| t_page := t_page t; t_closure := t_closure t;
                    t_detached := t_detached t
                                  || negb (mounted n (t_page t)) |})
           <$> inflight sys |}
  end.

Definition run (l : list Action) (sys : System) : System :=
  fold_left (λ s a, step a s) l sys.





(** ** The states of the specification

    The per-page state as the specification names it, and how the
    component's record reads in these terms: the component has the two
    flags [rendered] and [rendering] and nothing else to tell states apart,
    and a page without a record is as one never asked for. *)
Inductive Status : Type := Idle | Analyzing | Rendering | Rendered | Failed.
Inductive RendererUsed : Type := NoRenderer | Primary | Fallback.

Definition renderState (o : option PageRenderState) : Status * RendererUsed :=
  match o with
  | Some st =>
      if rendered st then
        (Rendered, if usedPdfium st then Fallback else Primary)
      else if rendering st then (Rendering, NoRenderer)
      else (Idle, NoRenderer)
  | None => (Idle, NoRenderer)
  end.

Definition statusOf (v : Viewer) (pageNum : nat) : Status :=
  fst (renderState (pageRenderStates v !! pageNum)).

(** The reads of the map in the component: the guard of
    [renderSinglePage] ([alreadyHandled]), the loop of [updateTextLayers]
    ([state.rendered]) and the spinner ([renderState?.rendering]). *)
Definition refreshes (m : gmap nat PageRenderState) (pageNum : nat) : bool :=
  match m !! pageNum with Some st => rendered st | None => false end.

(** A profile that is not heavy: the one of a page without operators. *)
Definition lightProfile : Analyzer.PageComplexity :=
  Analyzer.analyzePageComplexity [] None (λ _, Analyzer.FontNull).

(** The same outcomes, had the analyzer found the page light. *)
Definition asLightPage (env : RenderEnv) : RenderEnv :=
  {| getPage := getPage env;
     analyzePageComplexity :=
       match analyzePageComplexity env with
       | Returns _ => Returns lightProfile
       | Throws e => Throws e
       end;
     elements := elements env;
     renderPageWithPdfium := renderPageWithPdfium env;
     pdfiumContext := pdfiumContext env;
     pdfiumTextContent := pdfiumTextContent env;
     canvasContext := canvasContext env;
     render := render env;
     getTextContent := getTextContent env |}.

(** The events of an attempt with the PDFium renderer. *)
Definition isPdfiumAttempt (e : Event) : bool :=
  match e with
  | PdfiumRender _ _ _ | PutImageData _ | Warn => true
  | _ => false
  end.


(** The record the [catch] block writes. *)
Definition idleRecord : PageRenderState :=
  {| rendered := false; rendering := false; usedPdfium := false |}.

(** ** Sample data: a loaded one-page document at scale 1 *)

Definition sampleViewer : Viewer :=
  {| pdfDoc := Some 1; pdfArrayBuffer := true;
     scale := 1; rotation := 0; searchQuery := [];
     pageRenderStates := ∅; pageRefs := λ _, true;
     textLayers := λ _, None; trace := [] |}.

Definition sampleSystem : System :=
  {| viewer := sampleViewer; callback := callbackOf sampleViewer;
     inflight := [] |}.

Definition sampleRefresh : RefreshEnv :=
  {| r_textLayer := λ _, true;
     r_getPage := λ _, Returns tt;
     r_getTextContent := λ _, Returns tt |}.

(** A render of a light page in which every call delivers. *)
Definition lightPageRenders : RenderEnv :=
  {| getPage := Returns tt;
     analyzePageComplexity := Returns lightProfile;
     elements := true;
     renderPageWithPdfium := Returns tt;
     pdfiumContext := true;
     pdfiumTextContent := Returns tt;
     canvasContext := true;
     render := Returns tt;
     getTextContent := Returns tt |}.

(** The sample system once page 1 has been rendered and the component has
    rendered again. *)
Definition renderedSystem : System :=
  run [Request 1; Complete 0 lightPageRenders; Rerender sampleRefresh]
    sampleSystem.


End Scroll.

(* ===================================================================== *)
(** * Text layer: splitting an item around the matches *)
(* ===================================================================== *)

Module TextLayer.
Import Js.

Section Spans.

(** The numbers of the layout are floating-point values; the embedding
    keeps the arithmetic symbolic: a type of numbers with the addition,
    the multiplication and the conversion of a character count that the
    code applies. *)
Context {num : Type}.
Context (add mul : num → num → num) (ofNat : nat → num).

(** What the code derives from the item's transform and width before it
    splits the text: [charWidth], the cosine and sine of the rotation
    angle, and the base anchor [(baseLeft, baseTop)]. *)
Record Geometry : Type := {
  charWidth : num;
  cosAngle : num;
  sinAngle : num;
  baseLeft : num;
  baseTop : num;
}.

(** The arguments of one [createSpan] call. *)
Record Span : Type := {
  content : str;
  left : num;
  top : num;
  highlight : bool;
}.

(** [baseLeft + offset * charWidth * Math.cos(...)] and
    [baseTop + offset * charWidth * Math.sin(...)]. *)
Definition anchorX (g : Geometry) (offset : nat) : num :=
  add (baseLeft g) (mul (mul (ofNat offset) (charWidth g)) (cosAngle g)).
Definition anchorY (g : Geometry) (offset : nat) : num :=
  add (baseTop g) (mul (mul (ofNat offset) (charWidth g)) (sinAngle g)).

Definition spanAt (g : Geometry) (s : str) (offset : nat) (hl : bool)
    : Span :=
  {| content := s; left := anchorX g offset; top := anchorY g offset;
     highlight := hl |}.

(** The variables of the [while] loop: [lastIndex], [offset] and the spans
    appended so far. *)
Record Loop : Type := {
  lastIndex : nat;
  offset : nat;
  spans : list Span;
}.

(** The [while] loop; [None] when the fuel runs out. *)
Fixpoint splitLoop (fuel : nat) (g : Geometry) (text lowerText lowerQuery : str)
    (queryLength : nat) (st : Loop) : option Loop :=
  match fuel with
  | 0 => None
  | S fuel' =>
      match indexOf lowerQuery lowerText (lastIndex st) with
      | None => Some st
      | Some matchIndex =>
          let st1 :=
            if lastIndex st <? matchIndex then
              let beforeText := slice (lastIndex st) matchIndex text in
              {| lastIndex := lastIndex st;
                 offset := offset st + length beforeText;
                 spans := spans st ++ [spanAt g beforeText (offset st) false] |}
            else st in
          let matchText := slice matchIndex (matchIndex + queryLength) text in
          splitLoop fuel' g text lowerText lowerQuery queryLength
            {| lastIndex := matchIndex + queryLength;
               offset := offset st1 + length matchText;
               spans := spans st1 ++ [spanAt g matchText (offset st1) true] |}
      end
  end.

(** The branch taken when the lowercased text includes the lowercased
    query: the loop, then the rest of the text. *)
Definition splitItem (g : Geometry) (query text : str) : option (list Span) :=
  let lowerQuery := toLowerCase query in
  let lowerText := toLowerCase text in
  match splitLoop (S (length lowerText)) g text lowerText lowerQuery
          (length query) {| lastIndex := 0; offset := 0; spans := [] |} with
  | Some st =>
      Some (if lastIndex st <? length text
            then spans st ++ [spanAt g (sliceFrom (lastIndex st) text)
                                (offset st) false]
            else spans st)
  | None => None
  end.

(** The spans of one text item whose [str] is not empty. *)
Definition itemSpans (g : Geometry) (query text : str) : option (list Span) :=
  let lowerQuery := toLowerCase query in
  if truthy lowerQuery && includes lowerQuery (toLowerCase text)
  then splitItem g query text
  else Some [{| content := text; left := baseLeft g; top := baseTop g;
                highlight := false |}].

(** The loop of [renderTextLayer] over the items: [None] stands for an
    item without [str]; items with an empty [str] are skipped. *)
Fixpoint renderTextLayer (query : str) (items : list (option (str * Geometry)))
    : option (list Span) :=
  match items with
  | [] => Some []
  | None :: rest => renderTextLayer query rest
  | Some (text, g) :: rest =>
      if truthy text then
        l ← itemSpans g query text;
        r ← renderTextLayer query rest;
        Some (l ++ r)
      else renderTextLayer query rest
  end.

(** The runs from character [o] on are laid out one after the other: each
    is anchored at its first character; a highlighted run is an occurrence
    of the query; a plain run is not empty, holds the start of no
    occurrence, and is followed by a highlighted run, if by any. *)
Fixpoint runsFrom (g : Geometry) (lowerText lowerQuery : str) (o : nat)
    (l : list Span) : Prop :=
  match l with
  | [] => True
  | s :: rest =>
      left s = anchorX g o ∧ top s = anchorY g o ∧
      (if highlight s then
         length (content s) = length lowerQuery ∧
         startsWith lowerQuery (drop o lowerText) = true
       else
         content s ≠ [] ∧
         (∀ i, o ≤ i < o + length (content s) →
               startsWith lowerQuery (drop i lowerText) = false) ∧
         match rest with
         | s' :: _ => highlight s' = true
         | [] => True
         end) ∧
      runsFrom g lowerText lowerQuery (o + length (content s)) rest
  end.

(** The characters of a list of runs. *)
Definition chars (l : list Span) : nat :=
  length (concat (content <$> l)).

(** The characters before the [k]-th span. *)
Definition charsBefore (k : nat) (l : list Span) : nat :=
  chars (take k l).

(** What holds of the loop variables whenever the loop condition is
    evaluated. *)
Definition loopInv (g : Geometry) (text lq : str) (st : Loop) : Prop :=
  lastIndex st ≤ length text ∧
  offset st = lastIndex st ∧
  concat (content <$> spans st) = take (lastIndex st) text ∧
  runsFrom g (toLowerCase text) lq 0 (spans st) ∧
  match last (spans st) with
  | Some x => highlight x = true
  | None => lastIndex st = 0
  end.

End Spans.

(** Sample geometry over the integers: width 7 per character along the
    x axis, anchored at (100, 200). *)
Definition sampleGeometry : @Geometry Z :=
  {| charWidth := 7; cosAngle := 1; sinAngle := 0;
     baseLeft := 100; baseTop := 200 |}%Z.

(** The same item turned by a quarter: the text runs along the y axis. *)
Definition quarterTurn : @Geometry Z :=
  {| charWidth := 7; cosAngle := 0; sinAngle := 1;
     baseLeft := 100; baseTop := 200 |}%Z.

(** A text that starts with U+0130: capital I with dot above, a space,
    and [cat]. *)
Definition dottedCat : str := CapitalIDot :: lit " cat".

End TextLayer.

(* ===================================================================== *)
(** * Search *)
(* ===================================================================== *)

Module SearchIndex.
Import Eff Js.

(** An entry of [textContent.items]: a text item (['str' in item]) with
    its [str], or a marked-content item. *)
Inductive Item : Type :=
  | TextItem (str : Js.str)
  | MarkedContent.

Record SearchMatch : Type := {
  pageNum : nat;
  itemIndex : nat;
  text : str;
}.

(** The loaded document: [numPages] and what [getPage] and
    [getTextContent] deliver for a page number. *)
Record Doc : Type := {
  numPages : nat;
  getPage : nat → Outcome unit;
  getTextContent : nat → Outcome (list Item);
}.

(** The state [performSearch] writes; [visited] logs the calls of
    [getPage], [shown] the page brought into view ([scrollToPage], or
    [setCurrentPage] in the single-page viewer). *)
Record State : Type := {
  searchResults : list SearchMatch;
  currentMatchIndex : Z;
  isSearching : bool;
  shown : option nat;
  visited : list nat;
}.

Definition setSearchResults (r : list SearchMatch) : M State unit :=
  modify (λ s, {| searchResults := r;
                  currentMatchIndex := currentMatchIndex s;
                  isSearching := isSearching s; shown := shown s;
                  visited := visited s |}).
Definition setCurrentMatchIndex (i : Z) : M State unit :=
  modify (λ s, {| searchResults := searchResults s;
                  currentMatchIndex := i;
                  isSearching := isSearching s; shown := shown s;
                  visited := visited s |}).
Definition setIsSearching (b : bool) : M State unit :=
  modify (λ s, {| searchResults := searchResults s;
                  currentMatchIndex := currentMatchIndex s;
                  isSearching := b; shown := shown s;
                  visited := visited s |}).
Definition showPage (p : nat) : M State unit :=
  modify (λ s, {| searchResults := searchResults s;
                  currentMatchIndex := currentMatchIndex s;
                  isSearching := isSearching s; shown := Some p;
                  visited := visited s |}).
Definition visit (p : nat) : M State unit :=
  modify (λ s, {| searchResults := searchResults s;
                  currentMatchIndex := currentMatchIndex s;
                  isSearching := isSearching s; shown := shown s;
                  visited := visited s ++ [p] |}).

(** The callback of [textContent.items.forEach]. *)
Definition matchOf (query : str) (page index : nat) (item : Item)
    : option SearchMatch :=
  match item with
  | TextItem s =>
      if includes query (toLowerCase s)
      then Some {| pageNum := page; itemIndex := index; text := s |}
      else None
  | MarkedContent => None
  end.

(** What [forEach] pushes on [results] for the items from [index] on. *)
Fixpoint matchesFrom (query : str) (page index : nat) (items : list Item)
    : list SearchMatch :=
  match items with
  | [] => []
  | item :: rest =>
      match matchOf query page index item with
      | Some m => m :: matchesFrom query page (S index) rest
      | None => matchesFrom query page (S index) rest
      end
  end.

Definition matchesOf (query : str) (page : nat) (items : list Item)
    : list SearchMatch :=
  matchesFrom query page 0 items.

(** The [for] loop over the pages still to visit. *)
Fixpoint scan (doc : Doc) (query : str) (pages : list nat)
    (results : list SearchMatch) : M State (list SearchMatch) :=
  match pages with
  | [] => mret results
  | p :: rest =>
      visit p;;
      _ ← await (getPage doc p);
      textContent ← await (getTextContent doc p);
      scan doc query rest (results ++ matchesOf query p textContent)
  end.

(** [performSearch()], with [pdfDoc] and [searchQuery] as captured. *)
Definition performSearch (pdfDoc : option Doc) (searchQuery : str)
    : M State unit :=
  call
    (match pdfDoc with
     | Some doc =>
         if truthy (trim searchQuery) then
           setIsSearching true;;
           let query := toLowerCase searchQuery in
           try_finally
             (results ← scan doc query (seq 1 (numPages doc)) [];
              setSearchResults results;;
              setCurrentMatchIndex
                (if (0 <? length results)%nat then 0%Z else (-1)%Z);;
              match results with
              | r :: _ => showPage (pageNum r)
              | [] => mret tt
              end)
             (setIsSearching false)
         else
           setSearchResults [];; setCurrentMatchIndex (-1);;
           @return_ State unit
     | None =>
         setSearchResults [];; setCurrentMatchIndex (-1);;
         @return_ State unit
     end).

(** The text content of a page, when both calls deliver. *)
Definition pageItems (doc : Doc) (p : nat) : option (list Item) :=
  match getPage doc p, getTextContent doc p with
  | Returns _, Returns items => Some items
  | _, _ => None
  end.

(** The matches of the given pages, page by page. *)
Definition found (doc : Doc) (q : str) (pages : list nat) : list SearchMatch :=
  p ← pages; matchesOf q p (default [] (pageItems doc p)).

(** The state after visiting the given pages. *)
Definition visiting (pages : list nat) (s : State) : State :=
  {| searchResults := searchResults s;
     currentMatchIndex := currentMatchIndex s;
     isSearching := isSearching s; shown := shown s;
     visited := visited s ++ pages |}.

(** [(pageNum, itemIndex)] in ascending order. *)
Definition before (a b : SearchMatch) : Prop :=
  pageNum a < pageNum b ∨ (pageNum a = pageNum b ∧ itemIndex a < itemIndex b).

(** Sample document: two pages. *)
Definition sampleDoc : Doc :=
  {| numPages := 2;
     getPage := λ _, Returns tt;
     getTextContent := λ p,
       match p with
       | 1 => Returns [TextItem (lit "The Cat"); MarkedContent;
                       TextItem (lit "dog")]
       | 2 => Returns [TextItem (lit "concatenate")]
       | _ => Throws (Error "Invalid page request")
       end |}.

Definition sampleState : State :=
  {| searchResults := [{| pageNum := 9; itemIndex := 9; text := lit "old" |}];
     currentMatchIndex := 0; isSearching := false; shown := None;
     visited := [] |}.

End SearchIndex.

(* ===================================================================== *)
(** * Thumbnails *)
(* ===================================================================== *)

Module Thumbs.
Import Eff.

(** An entry of [thumbnails]: the data URL of a page preview, or the
    placeholder of a heavy page with its reason ([None] is the default
    text).  The page an entry was made from is not part of the value in
    the source; it is kept here to state which page an entry shows. *)
Inductive Thumbnail : Type :=
  | DataUrl (page : nat) (viaPdfium : bool)
  | HeavyPlaceholder (page : nat) (reason : option (list Analyzer.Reason)).

Definition pageOf (t : Thumbnail) : nat :=
  match t with
  | DataUrl p _ => p
  | HeavyPlaceholder p _ => p
  end.

(** What the awaited calls of one loop iteration deliver. *)
Record PageEnv : Type := {
  getPage : Outcome unit;
  analyzePageComplexity : Outcome Analyzer.PageComplexity;
  renderThumbnailWithPdfium : Outcome unit;
  offscreenContext : bool;
  render : Outcome unit;
  convertToDataUrl : Outcome unit;
}.

(** [if (!cancelled) setThumbnails((prev) => [...prev, t])]. *)
Definition append (cancelled : bool) (t : Thumbnail)
    : M (list Thumbnail) unit :=
  when (negb cancelled) (modify (λ prev, prev ++ [t])).

(** The body of the [for] loop after the [if (cancelled) break] and the
    yield; [continue] is the [return] of the iteration. *)
Definition iteration (env : PageEnv) (pageNum : nat)
    (pdfDataForPdfium cancelled : bool) : M (list Thumbnail) unit :=
  call
    (_ ← await (getPage env);
     complexity ← await (analyzePageComplexity env);
     (if Analyzer.isHeavy complexity then
        (if pdfDataForPdfium then
           try_catch
             (_ ← await (renderThumbnailWithPdfium env);
              append cancelled (DataUrl pageNum true);;
              @return_ (list Thumbnail) unit)
             (λ _, mret tt)
         else mret tt);;
        append cancelled
          (HeavyPlaceholder pageNum (Analyzer.heavyReason complexity));;
        @return_ (list Thumbnail) unit
      else mret tt);;
     if offscreenContext env then
       _ ← await (render env);
       _ ← await (convertToDataUrl env);
       append cancelled (DataUrl pageNum false)
     else mret tt).

Inductive Phase : Type := LoopHead | InBody | Finished.

(** One run of [generateThumbnails]: the loop variable, the [cancelled]
    flag it shares with the effect's cleanup, and what it captured. *)
Record Generator : Type := {
  pageNum : nat;
  cancelled : bool;
  phase : Phase;
  numPages : nat;
  pdfDataForPdfium : bool;
}.

Record State : Type := {
  pdfDoc : option nat;
  showThumbnails : bool;
  pdfArrayBuffer : bool;
  thumbnails : list Thumbnail;
  isGeneratingThumbnails : bool;
  generators : list Generator;
}.

(** The cleanup of the effect: [cancelled = true]. *)
Definition cancel (g : Generator) : Generator :=
  {| pageNum := pageNum g; cancelled := true; phase := phase g;
     numPages := numPages g; pdfDataForPdfium := pdfDataForPdfium g |}.

(** The effect on [[pdfDoc, showThumbnails, thumbnails.length,
    pdfArrayBuffer, currentPassword]]: the cleanup of its previous run,
    then its body. *)
Definition runEffect (s : State) : State :=
  let gens := cancel <$> generators s in
  match pdfDoc s with
  | Some n =>
      if showThumbnails s && negb (length (thumbnails s) =? n) then
        {| pdfDoc := pdfDoc s; showThumbnails := showThumbnails s;
           pdfArrayBuffer := pdfArrayBuffer s;
           thumbnails := thumbnails s;
           isGeneratingThumbnails := true;
           generators :=
             gens ++ [{| pageNum := length (thumbnails s) + 1;
                         cancelled := false; phase := LoopHead;
                         numPages := n;
                         pdfDataForPdfium := pdfArrayBuffer s |}] |}
      else
        {| pdfDoc := pdfDoc s; showThumbnails := showThumbnails s;
           pdfArrayBuffer := pdfArrayBuffer s;
           thumbnails := thumbnails s;
           isGeneratingThumbnails := isGeneratingThumbnails s;
           generators := gens |}
  | None =>
      {| pdfDoc := pdfDoc s; showThumbnails := showThumbnails s;
         pdfArrayBuffer := pdfArrayBuffer s;
         thumbnails := thumbnails s;
         isGeneratingThumbnails := isGeneratingThumbnails s;
         generators := gens |}
  end.

(** The [finally] of [generateThumbnails]. *)
Definition finish (g : Generator) (s : State) (i : nat) : State :=
  {| pdfDoc := pdfDoc s; showThumbnails := showThumbnails s;
     pdfArrayBuffer := pdfArrayBuffer s;
     thumbnails := thumbnails s;
     isGeneratingThumbnails :=
       if cancelled g then isGeneratingThumbnails s else false;
     generators :=
       <[i := {| pageNum := pageNum g; cancelled := cancelled g;
                 phase := Finished; numPages := numPages g;
                 pdfDataForPdfium := pdfDataForPdfium g |}]> (generators s) |}.

(** What happens to the thumbnail pipeline: React runs the effect; a
    generator evaluates its loop condition and its [cancelled] test; a
    generator completes an iteration with the outcomes it met; the panel
    is toggled; a document is loaded.  The effect reads [thumbnails] with
    every append made so far, and any number of generator steps may come
    between an append and the run of the effect it causes. *)
Inductive Action : Type :=
  | RunEffect
  | Head (i : nat)
  | Body (i : nat) (env : PageEnv)
  | ToggleThumbnails
  | LoadDocument (n : nat).

Definition step (a : Action) (s : State) : State :=
  match a with
  | RunEffect => runEffect s
  | Head i =>
      match generators s !! i with
      | Some g =>
          match phase g with
          | LoopHead =>
              if negb (pageNum g <=? numPages g) then finish g s i
              else if cancelled g then finish g s i
              else
                {| pdfDoc := pdfDoc s; showThumbnails := showThumbnails s;
                   pdfArrayBuffer := pdfArrayBuffer s;
                   thumbnails := thumbnails s;
                   isGeneratingThumbnails := isGeneratingThumbnails s;
                   generators :=
                     <[i := {| pageNum := pageNum g;
                               cancelled := cancelled g;
                               phase := InBody; numPages := numPages g;
                               pdfDataForPdfium := pdfDataForPdfium g |}]>
                       (generators s) |}
          | _ => s
          end
      | None => s
      end
  | Body i env =>
      match generators s !! i with
      | Some g =>
          match phase g with
          | InBody =>
              let '(r, l) :=
                iteration env (pageNum g) (pdfDataForPdfium g) (cancelled g)
                  (thumbnails s) in
              let s' :=
                {| pdfDoc := pdfDoc s; showThumbnails := showThumbnails s;
                   pdfArrayBuffer := pdfArrayBuffer s;
                   thumbnails := l;
                   isGeneratingThumbnails := isGeneratingThumbnails s;
                   generators := generators s |} in
              match r with
              | Normal _ =>
                  {| pdfDoc := pdfDoc s'; showThumbnails := showThumbnails s';
                     pdfArrayBuffer := pdfArrayBuffer s';
                     thumbnails := thumbnails s';
                     isGeneratingThumbnails := isGeneratingThumbnails s';
                     generators :=
                       <[i := {| pageNum := pageNum g + 1;
                                 cancelled := cancelled g;
                                 phase := LoopHead; numPages := numPages g;
                                 pdfDataForPdfium := pdfDataForPdfium g |}]>
                         (generators s') |}
              | Abrupt _ => finish g s' i
              end
          | _ => s
          end
      | None => s
      end
  | ToggleThumbnails =>
      runEffect
        {| pdfDoc := pdfDoc s; showThumbnails := negb (showThumbnails s);
           pdfArrayBuffer := pdfArrayBuffer s;
           thumbnails := thumbnails s;
           isGeneratingThumbnails := isGeneratingThumbnails s;
           generators := generators s |}
  | LoadDocument n =>
      runEffect
        {| pdfDoc := Some n; showThumbnails := showThumbnails s;
           pdfArrayBuffer := true;
           thumbnails := [];
           isGeneratingThumbnails := isGeneratingThumbnails s;
           generators := generators s |}
  end.

Definition run (l : list Action) (s : State) : State :=
  fold_left (λ s a, step a s) l s.

(** The component before any document is loaded. *)
Definition initial : State :=
  {| pdfDoc := None; showThumbnails := true; pdfArrayBuffer := false;
     thumbnails := []; isGeneratingThumbnails := false; generators := [] |}.

(** The list is a gap-free prefix of the pages: entry [i] shows page
    [i + 1], and there are no more entries than pages. *)
Definition prefixOfPages (s : State) : Prop :=
  (∀ i t, thumbnails s !! i = Some t → pageOf t = i + 1) ∧
  (∀ n, pdfDoc s = Some n → length (thumbnails s) ≤ n).

(** The state of the generators that goes with a gap-free list: a live
    generator works on the first page without an entry, and there is at
    most one. *)
Definition generatorsOk (s : State) : Prop :=
  (∀ i g, generators s !! i = Some g →
     cancelled g = false → phase g ≠ Finished →
     pdfDoc s = Some (numPages g) ∧
     pageNum g = length (thumbnails s) + 1 ∧
     (phase g = InBody → pageNum g ≤ numPages g)) ∧
  (∀ i j g g', generators s !! i = Some g → generators s !! j = Some g' →
     cancelled g = false → cancelled g' = false → i = j).

(** The invariant of the pipeline. *)
Definition inv (s : State) : Prop := prefixOfPages s ∧ generatorsOk s.

(** The iterations in which the 2D context of the offscreen canvas is
    obtained. *)
Definition hasContext (a : Action) : Prop :=
  match a with
  | Body _ env => offscreenContext env = true
  | _ => True
  end.

(** A light page that renders. *)
Definition lightPage : PageEnv :=
  {| getPage := Returns tt;
     analyzePageComplexity := Returns Scroll.lightProfile;
     renderThumbnailWithPdfium := Returns tt;
     offscreenContext := true;
     render := Returns tt;
     convertToDataUrl := Returns tt |}.

(** A light page for which [getContext('2d')] returns [null]. *)
Definition lightPageWithoutContext : PageEnv :=
  {| getPage := Returns tt;
     analyzePageComplexity := Returns Scroll.lightProfile;
     renderThumbnailWithPdfium := Returns tt;
     offscreenContext := false;
     render := Returns tt;
     convertToDataUrl := Returns tt |}.

End Thumbs.

(* ===================================================================== *)
(** * Moving between the matches *)
(* ===================================================================== *)

Module Navigation.
Import Eff Js SearchIndex.

(** [searchResults[i]] for a number [i]: [undefined] outside the array. *)
Definition at_index (results : list SearchMatch) (i : Z)
    : option SearchMatch :=
  if (i <? 0)%Z then None else results !! Z.to_nat i.

(** [scrollToPage(searchResults[i].pageNum)] (the single-page viewer calls
    [setCurrentPage]); reading [pageNum] of [undefined] throws. *)
Definition showMatch (results : list SearchMatch) (i : Z) : M State unit :=
  match at_index results i with
  | Some r => showPage (pageNum r)
  | None => throw (Error "Cannot read properties of undefined")
  end.

(** [goToNextMatch()]; [%] is the remainder of JavaScript, with the sign
    of the dividend. *)
Definition goToNextMatch : M State unit :=
  call
    (s ← get;
     (if (length (searchResults s) =? 0)%nat
      then @return_ State unit else mret tt);;
     let nextIndex :=
       Z.rem (currentMatchIndex s + 1) (Z.of_nat (length (searchResults s))) in
     setCurrentMatchIndex nextIndex;;
     showMatch (searchResults s) nextIndex).

(** [goToPrevMatch()]. *)
Definition goToPrevMatch : M State unit :=
  call
    (s ← get;
     (if (length (searchResults s) =? 0)%nat
      then @return_ State unit else mret tt);;
     let prevIndex :=
       Z.rem (currentMatchIndex s - 1 + Z.of_nat (length (searchResults s)))
             (Z.of_nat (length (searchResults s))) in
     setCurrentMatchIndex prevIndex;;
     showMatch (searchResults s) prevIndex).

(** What [loadPdf] does to the search state. *)
Definition resetSearch : M State unit :=
  setSearchResults [];; setCurrentMatchIndex (-1).

(** The state of a freshly mounted viewer. *)
Definition mounted : State :=
  {| searchResults := []; currentMatchIndex := -1; isSearching := false;
     shown := None; visited := [] |}.

(** What the user and the debounce timer do to the search state. *)
Inductive Action : Type :=
  | PerformSearch (pdfDoc : option Doc) (searchQuery : str)
  | NextMatch
  | PrevMatch
  | LoadPdf.

Definition step (a : Action) (s : State) : State :=
  snd (match a with
       | PerformSearch pdfDoc searchQuery => performSearch pdfDoc searchQuery
       | NextMatch => goToNextMatch
       | PrevMatch => goToPrevMatch
       | LoadPdf => resetSearch
       end s).

Definition run (l : list Action) (s : State) : State :=
  fold_left (λ s a, step a s) l s.

(** [currentMatchIndex] names a match, or is -1 when there is none. *)
Definition inRange (s : State) : Prop :=
  match searchResults s with
  | [] => currentMatchIndex s = (-1)%Z
  | _ :: _ => (0 ≤ currentMatchIndex s < Z.of_nat (length (searchResults s)))%Z
  end.

(** [n] presses of the next button. *)
Definition presses (n : nat) : list Action := replicate n NextMatch.

End Navigation.

(* ===================================================================== *)
(** * What the text layer shows *)
(* ===================================================================== *)

Module TextOf.
Import Js TextLayer.

Section Text.
Context {num : Type} (add mul : num → num → num) (ofNat : nat → num).

(** The strings of the items that [renderTextLayer] draws, in order. *)
Definition shownText (items : list (option (str * @Geometry num))) : str :=
  concat (omap (λ i, fst <$> i) items).

(** Every span is anchored at the number of characters before it. *)
Definition anchored (g : Geometry) (l : list (@Span num)) : Prop :=
  ∀ k s, l !! k = Some s →
    left s = anchorX add mul ofNat g (charsBefore k l) ∧
    top s = anchorY add mul ofNat g (charsBefore k l).

(** What holds of the loop variables for every text and query. *)
Definition keepsText (g : Geometry) (text lowerText : str) (st : Loop)
    : Prop :=
  lastIndex st ≤ length lowerText ∧
  offset st = chars (spans st) ∧
  concat (content <$> spans st) = take (lastIndex st) text ∧
  anchored g (spans st).

End Text.

End TextOf.

(* ===================================================================== *)
(** * Runs of the thumbnail generators *)
(* ===================================================================== *)

Module ThumbsRuns.
Import Eff Thumbs.

(** A generator that may still append: not cancelled, not finished. *)
Definition live (g : Generator) : Prop :=
  cancelled g = false ∧ phase g ≠ Finished.

(** At most one generator has its [cancelled] flag down. *)
Definition oneUncancelled (s : State) : Prop :=
  ∀ i j g g', generators s !! i = Some g → generators s !! j = Some g' →
    cancelled g = false → cancelled g' = false → i = j.

(** No generator may append any more. *)
Definition quiet (s : State) : Prop :=
  ∀ i g, generators s !! i = Some g →
    cancelled g = true ∨ phase g = Finished.

(** The steps of the generators, as opposed to the events that run the
    effect. *)
Definition generatorStep (a : Action) : Prop :=
  match a with
  | Head _ | Body _ _ => True
  | _ => False
  end.

Definition keepsDocument (a : Action) : Prop :=
  match a with
  | LoadDocument _ => False
  | _ => True
  end.

(** A page whose [getPage] rejects. *)
Definition brokenPage : PageEnv :=
  {| getPage := Throws (Error "Invalid page request");
     analyzePageComplexity := Returns Scroll.lightProfile;
     renderThumbnailWithPdfium := Returns tt;
     offscreenContext := true;
     render := Returns tt;
     convertToDataUrl := Returns tt |}.

End ThumbsRuns.

(* ===================================================================== *)
(** * Toolbar: zoom and rotation *)
(* ===================================================================== *)

Module Toolbar.

(** The zoom constants.  Every scale the viewer reaches is a multiple of
    0.25 between 0.25 and 4, and on these the floating-point operations
    of the code are exact, so the scale is a rational number here. *)
Definition ZOOM_PRESETS : list Q := [1 # 2; 3 # 4; 1; 5 # 4; 3 # 2; 2]%Q.
Definition ZOOM_STEP : Q := (1 # 4)%Q.
Definition MIN_ZOOM : Q := (1 # 4)%Q.
Definition MAX_ZOOM : Q := 4%Q.

(** The updaters passed to [setScale] by [zoomIn] and [zoomOut]. *)
Definition zoomIn (s : Q) : Q := Qmin MAX_ZOOM (s + ZOOM_STEP)%Q.
Definition zoomOut (s : Q) : Q := Qmax MIN_ZOOM (s - ZOOM_STEP)%Q.

(** [disabled={scale >= MAX_ZOOM}] and [disabled={scale <= MIN_ZOOM}]. *)
Definition zoomInDisabled (s : Q) : bool := Qle_bool MAX_ZOOM s.
Definition zoomOutDisabled (s : Q) : bool := Qle_bool s MIN_ZOOM.

(** The updaters passed to [setRotation]; [%] is the remainder of
    JavaScript. *)
Definition rotateClockwise (r : Z) : Z := Z.rem (r + 90) 360.
Definition rotateCounterClockwise (r : Z) : Z := Z.rem (r - 90 + 360) 360.

(** What [renderPageWithPdfium] derives from the rotation:
    [Math.floor(rotation / 90) % 4] and
    [rotation === 90 || rotation === 270]. *)
Definition rotationFlag (rotation : Z) : Z := Z.rem (rotation / 90) 4.
Definition isRotated90or270 (rotation : Z) : bool :=
  ((rotation =? 90) || (rotation =? 270))%Z.

Record View : Type := {
  scale : Q;
  rotation : Z;
}.

(** [useState(1)] and [useState(0)]. *)
Definition mounted : View := {| scale := 1%Q; rotation := 0 |}.

(** What the user does with the toolbar; [loadPdf] resets the rotation
    and keeps the scale. *)
Inductive Press : Type :=
  | ZoomIn
  | ZoomOut
  | ZoomChange (value : Q)
  | RotateClockwise
  | RotateCounterClockwise
  | LoadPdf.

Definition step (a : Press) (v : View) : View :=
  match a with
  | ZoomIn => {| scale := zoomIn (scale v); rotation := rotation v |}
  | ZoomOut => {| scale := zoomOut (scale v); rotation := rotation v |}
  | ZoomChange value => {| scale := value; rotation := rotation v |}
  | RotateClockwise =>
      {| scale := scale v; rotation := rotateClockwise (rotation v) |}
  | RotateCounterClockwise =>
      {| scale := scale v; rotation := rotateCounterClockwise (rotation v) |}
  | LoadPdf => {| scale := scale v; rotation := 0 |}
  end.

Definition run (l : list Press) (v : View) : View :=
  fold_left (λ v a, step a v) l v.

(** The values the zoom [select] offers besides the current scale. *)
Definition offered (a : Press) : Prop :=
  match a with
  | ZoomChange value => value ∈ ZOOM_PRESETS
  | _ => True
  end.

(** A multiple of 0.25 between [MIN_ZOOM] and [MAX_ZOOM]. *)
Definition quarterStep (s : Q) : Prop :=
  ∃ k : Z, (1 ≤ k ≤ 16)%Z ∧ (s == k # 4)%Q.

Definition quarterTurn (r : Z) : Prop :=
  (r = 0 ∨ r = 90 ∨ r = 180 ∨ r = 270)%Z.

End Toolbar.

(* ===================================================================== *)
(** * Loading a document, with or without a password *)
(* ===================================================================== *)

Module Loader.

(** An [ArrayBuffer], by its identity. *)
Definition Data : Type := nat.

(** A loaded document.  Its page count is what the code reads; the bytes
    and the password it was opened with are not part of the value in the
    source and are kept here to state where a document comes from. *)
Record Doc : Type := {
  numPages : nat;
  source : Data;
  openedWith : option string;
}.

(** How [getDocument(...).promise] settles: with a document of so many
    pages, or with an error, told apart by its [code] as the [catch]
    clause does. *)
Inductive Settled : Type :=
  | Loaded (pages : nat)
  | NeedPassword
  | IncorrectPassword
  | Failed (message : string).

(** The state of the component that the loader writes. *)
Record State : Type := {
  pdfDoc : option Doc;
  totalPages : nat;
  loading : bool;
  error : option string;
  showPasswordDialog : bool;
  password : string;
  passwordError : option string;
  pendingPdfData : option Data;
  pdfArrayBuffer : option Data;
  currentPassword : option string;
}.

Definition setPdfDoc (x : option Doc) (s : State) : State :=
  {| pdfDoc := x; totalPages := totalPages s; loading := loading s;
     error := error s; showPasswordDialog := showPasswordDialog s;
     password := password s; passwordError := passwordError s;
     pendingPdfData := pendingPdfData s; pdfArrayBuffer := pdfArrayBuffer s;
     currentPassword := currentPassword s |}.
Definition setTotalPages (x : nat) (s : State) : State :=
  {| pdfDoc := pdfDoc s; totalPages := x; loading := loading s;
     error := error s; showPasswordDialog := showPasswordDialog s;
     password := password s; passwordError := passwordError s;
     pendingPdfData := pendingPdfData s; pdfArrayBuffer := pdfArrayBuffer s;
     currentPassword := currentPassword s |}.
Definition setLoading (x : bool) (s : State) : State :=
  {| pdfDoc := pdfDoc s; totalPages := totalPages s; loading := x;
     error := error s; showPasswordDialog := showPasswordDialog s;
     password := password s; passwordError := passwordError s;
     pendingPdfData := pendingPdfData s; pdfArrayBuffer := pdfArrayBuffer s;
     currentPassword := currentPassword s |}.
Definition setError (x : option string) (s : State) : State :=
  {| pdfDoc := pdfDoc s; totalPages := totalPages s; loading := loading s;
     error := x; showPasswordDialog := showPasswordDialog s;
     password := password s; passwordError := passwordError s;
     pendingPdfData := pendingPdfData s; pdfArrayBuffer := pdfArrayBuffer s;
     currentPassword := currentPassword s |}.
Definition setShowPasswordDialog (x : bool) (s : State) : State :=
  {| pdfDoc := pdfDoc s; totalPages := totalPages s; loading := loading s;
     error := error s; showPasswordDialog := x;
     password := password s; passwordError := passwordError s;
     pendingPdfData := pendingPdfData s; pdfArrayBuffer := pdfArrayBuffer s;
     currentPassword := currentPassword s |}.
Definition setPassword (x : string) (s : State) : State :=
  {| pdfDoc := pdfDoc s; totalPages := totalPages s; loading := loading s;
     error := error s; showPasswordDialog := showPasswordDialog s;
     password := x; passwordError := passwordError s;
     pendingPdfData := pendingPdfData s; pdfArrayBuffer := pdfArrayBuffer s;
     currentPassword := currentPassword s |}.
Definition setPasswordError (x : option string) (s : State) : State :=
  {| pdfDoc := pdfDoc s; totalPages := totalPages s; loading := loading s;
     error := error s; showPasswordDialog := showPasswordDialog s;
     password := password s; passwordError := x;
     pendingPdfData := pendingPdfData s; pdfArrayBuffer := pdfArrayBuffer s;
     currentPassword := currentPassword s |}.
Definition setPendingPdfData (x : option Data) (s : State) : State :=
  {| pdfDoc := pdfDoc s; totalPages := totalPages s; loading := loading s;
     error := error s; showPasswordDialog := showPasswordDialog s;
     password := password s; passwordError := passwordError s;
     pendingPdfData := x; pdfArrayBuffer := pdfArrayBuffer s;
     currentPassword := currentPassword s |}.
Definition setPdfArrayBuffer (x : option Data) (s : State) : State :=
  {| pdfDoc := pdfDoc s; totalPages := totalPages s; loading := loading s;
     error := error s; showPasswordDialog := showPasswordDialog s;
     password := password s; passwordError := passwordError s;
     pendingPdfData := pendingPdfData s; pdfArrayBuffer := x;
     currentPassword := currentPassword s |}.
Definition setCurrentPassword (x : option string) (s : State) : State :=
  {| pdfDoc := pdfDoc s; totalPages := totalPages s; loading := loading s;
     error := error s; showPasswordDialog := showPasswordDialog s;
     password := password s; passwordError := passwordError s;
     pendingPdfData := pendingPdfData s; pdfArrayBuffer := pdfArrayBuffer s;
     currentPassword := x |}.

(** Statements in sequence. *)
Definition seq_ (l : list (State → State)) (s : State) : State :=
  fold_left (λ s f, f s) l s.

(** [loadPdfWithPassword] up to its [await]. *)
Definition started : State → State :=
  seq_ [setLoading true; setError None].

(** [loadPdfWithPassword] from the settling of [getDocument] on: the rest
    of the [try] block or the [catch] clause, then the [finally]. *)
Definition settled (data : Data) (inputPassword : option string)
    (r : Settled) : State → State :=
  seq_ (match r with
        | Loaded pages =>
            [setPdfDoc (Some {| numPages := pages; source := data;
                                openedWith := inputPassword |});
             setTotalPages pages;
             setShowPasswordDialog false;
             setPassword EmptyString;
             setPasswordError None;
             setPendingPdfData None;
             setPdfArrayBuffer (Some data);
             setCurrentPassword inputPassword]
        | NeedPassword =>
            [setPendingPdfData (Some data);
             setShowPasswordDialog true;
             setPasswordError None]
        | IncorrectPassword =>
            [setPasswordError (Some "パスワードが正しくありません"%string)]
        | Failed message =>
            [setError (Some ("PDF の読み込みに失敗しました: " ++ message)%string);
             setShowPasswordDialog false;
             setPendingPdfData None]
        end ++ [setLoading false]).

(** [loadPdfWithPassword(data, inputPassword)], run to its end. *)
Definition loadPdfWithPassword (getDocument : Data → option string → Settled)
    (data : Data) (inputPassword : option string) (s : State) : State :=
  settled data inputPassword (getDocument data inputPassword) (started s).

(** [loadPdf(file)] up to its first [await]; the search query, the
    thumbnails and the page states it also resets are not part of this
    state. *)
Definition loadPdf : State → State :=
  seq_ [setPdfDoc None;
        setShowPasswordDialog false;
        setPassword EmptyString;
        setPasswordError None;
        setPdfArrayBuffer None;
        setCurrentPassword None].

(** [handlePasswordSubmit(e)]. *)
Definition handlePasswordSubmit
    (getDocument : Data → option string → Settled) (s : State) : State :=
  match pendingPdfData s with
  | Some data =>
      if String.eqb (password s) EmptyString then s
      else loadPdfWithPassword getDocument data (Some (password s)) s
  | None => s
  end.

(** [handlePasswordCancel()]. *)
Definition handlePasswordCancel : State → State :=
  seq_ [setShowPasswordDialog false;
        setPassword EmptyString;
        setPasswordError None;
        setPendingPdfData None].

Definition mounted : State :=
  {| pdfDoc := None; totalPages := 0; loading := false; error := None;
     showPasswordDialog := false; password := EmptyString;
     passwordError := None; pendingPdfData := None; pdfArrayBuffer := None;
     currentPassword := None |}.

(** What happens to the loader: a file is chosen; a call of
    [loadPdfWithPassword] starts; the [getDocument] of a call settles; the
    user types in the password field or cancels the dialog.  Calls may
    overlap: any number of them may be waiting for [getDocument]. *)
Inductive Event : Type :=
  | LoadPdf
  | Started
  | GetDocumentSettled (data : Data) (inputPassword : option string)
                       (r : Settled)
  | PasswordTyped (value : string)
  | PasswordCancelled.

Definition step (e : Event) (s : State) : State :=
  match e with
  | LoadPdf => loadPdf s
  | Started => started s
  | GetDocumentSettled data inputPassword r => settled data inputPassword r s
  | PasswordTyped value => setPassword value s
  | PasswordCancelled => handlePasswordCancel s
  end.

Definition run (l : list Event) (s : State) : State :=
  fold_left (λ s e, step e s) l s.

(** The document on screen is the one made from the bytes and the
    password that the PDFium renderer is given, and an open password
    dialog has bytes to retry with. *)
Definition consistent (s : State) : Prop :=
  match pdfDoc s with
  | Some d =>
      pdfArrayBuffer s = Some (source d) ∧
      currentPassword s = openedWith d ∧
      totalPages s = numPages d
  | None => pdfArrayBuffer s = None ∧ currentPassword s = None
  end ∧
  (showPasswordDialog s = true → is_Some (pendingPdfData s)).

(** A protected file: it needs the password [secret]. *)
Definition protected (data : Data) (inputPassword : option string)
    : Settled :=
  match inputPassword with
  | None => NeedPassword
  | Some p =>
      if String.eqb p "secret"%string then Loaded 3 else IncorrectPassword
  end.

End Loader.

(* ===================================================================== *)
(** * Initialising PDFium *)
(* ===================================================================== *)

Module PdfiumInit.
Import Eff.

(** The state of a promise. *)
Inductive Promise : Type :=
  | Pending
  | Fulfilled
  | Rejected (e : Exn).

(** The two module variables, and the calls made so far: [fetch] of the
    WebAssembly binary and [PDFiumExt_Init]. *)
Record State : Type := {
  pdfiumInstance : bool;
  initPromise : option Promise;
  fetches : nat;
  extInits : nat;
}.

(** What a call of [initPdfium] hands to its caller: the instance, or
    the shared promise. *)
Inductive Handle : Type :=
  | Instance
  | InitPromise.

(** What the steps of the asynchronous function of [initPdfium] deliver:
    [fetch], [response.arrayBuffer], [init] and [PDFiumExt_Init]. *)
Record Network : Type := {
  fetch : Outcome unit;
  arrayBuffer : Outcome unit;
  init : Outcome unit;
  PDFiumExt_Init : Outcome unit;
}.

(** [initPdfium()] up to its [return]: the asynchronous function runs to
    its first [await], so [fetch] is called before [initPdfium]
    returns. *)
Definition initPdfium (s : State) : Handle * State :=
  if pdfiumInstance s then (Instance, s)
  else match initPromise s with
       | Some _ => (InitPromise, s)
       | None =>
           (InitPromise,
            {| pdfiumInstance := false; initPromise := Some Pending;
               fetches := S (fetches s); extInits := extInits s |})
       end.

(** The asynchronous function from the settling of [fetch] on. *)
Definition body (n : Network) : M State unit :=
  _ ← await (fetch n);
  _ ← await (arrayBuffer n);
  _ ← await (init n);
  modify (λ s, {| pdfiumInstance := pdfiumInstance s;
                  initPromise := initPromise s;
                  fetches := fetches s; extInits := S (extInits s) |});;
  _ ← await (PDFiumExt_Init n);
  modify (λ s, {| pdfiumInstance := true;
                  initPromise := initPromise s;
                  fetches := fetches s; extInits := extInits s |}).

(** The promise of the asynchronous function settles with the completion
    of its body. *)
Definition settle (n : Network) (s : State) : State :=
  match initPromise s with
  | Some Pending =>
      let '(r, s') := body n s in
      {| pdfiumInstance := pdfiumInstance s';
         initPromise :=
           Some (match r with
                 | Abrupt (Throw e) => Rejected e
                 | _ => Fulfilled
                 end);
         fetches := fetches s'; extInits := extInits s' |}
  | _ => s
  end.

(** What [await] of a handle delivers once it is settled. *)
Definition delivered (h : Handle) (s : State) : option (Outcome unit) :=
  match h with
  | Instance => Some (Returns tt)
  | InitPromise =>
      match initPromise s with
      | Some Fulfilled => Some (Returns tt)
      | Some (Rejected e) => Some (Throws e)
      | _ => None
      end
  end.

Inductive Event : Type :=
  | Call
  | Settle (n : Network).

Definition step (a : Event) (s : State) : State :=
  match a with
  | Call => snd (initPdfium s)
  | Settle n => settle n s
  end.

Definition run (l : list Event) (s : State) : State :=
  fold_left (λ s a, step a s) l s.

(** The module as loaded. *)
Definition loaded : State :=
  {| pdfiumInstance := false; initPromise := None;
     fetches := 0; extInits := 0 |}.

(** The binary cannot be fetched. *)
Definition offline : Network :=
  {| fetch := Throws (Error "Failed to fetch");
     arrayBuffer := Returns tt; init := Returns tt;
     PDFiumExt_Init := Returns tt |}.

Definition online : Network :=
  {| fetch := Returns tt; arrayBuffer := Returns tt; init := Returns tt;
     PDFiumExt_Init := Returns tt |}.

(** The shape of every reachable state. *)
Definition shape (s : State) : Prop :=
  match initPromise s with
  | None => pdfiumInstance s = false ∧ fetches s = 0 ∧ extInits s = 0
  | Some Pending => pdfiumInstance s = false ∧ fetches s = 1 ∧ extInits s = 0
  | Some Fulfilled => pdfiumInstance s = true ∧ fetches s = 1 ∧ extInits s = 1
  | Some (Rejected _) =>
      pdfiumInstance s = false ∧ fetches s = 1 ∧ extInits s ≤ 1
  end.

End PdfiumInit.

(* ===================================================================== *)
(** * The page in view *)
(* ===================================================================== *)

Module ScrollSpy.

Section Closest.

(** The coordinates are floating-point numbers; the embedding keeps
    them symbolic: a type of numbers with the comparison [<] and the
    distance [Math.abs(a - b)] that the code applies. *)
Context {num : Type}.
Context (lt : num → num → bool) (distance : num → num → num).

(** The variables of [handleScroll]; [None] is [Infinity]. *)
Record Closest : Type := {
  closestPage : nat;
  closestDistance : option num;
}.

(** The callback of [pageRefsMap.current.forEach], given the center of
    the page element. *)
Definition visit (containerCenter : num) (st : Closest)
    (entry : nat * num) : Closest :=
  let '(pageNum, pageCenter) := entry in
  let d := distance pageCenter containerCenter in
  if match closestDistance st with
     | None => true
     | Some c => lt d c
     end
  then {| closestPage := pageNum; closestDistance := Some d |}
  else st.

(** [handleScroll()]: the page passed to [setCurrentPage], for the
    entries of [pageRefsMap] in insertion order. *)
Definition handleScroll (containerCenter : num) (pages : list (nat * num))
    : nat :=
  closestPage
    (fold_left (visit containerCenter) pages
       {| closestPage := 1; closestDistance := None |}).

(** What the fold holds after the entries [l]. *)
Definition chosen (center : num) (l : list (nat * num)) (st : Closest)
    : Prop :=
  match l with
  | [] => st = {| closestPage := 1; closestDistance := None |}
  | _ :: _ =>
      ∃ before c after,
        l = before ++ (closestPage st, c) :: after ∧
        closestDistance st = Some (distance c center) ∧
        (∀ q c', (q, c') ∈ before →
           lt (distance c center) (distance c' center) = true) ∧
        (∀ q c', (q, c') ∈ after →
           lt (distance c' center) (distance c center) = false)
  end.

End Closest.

(** Centers in pixels on the integers. *)
Definition pixelDistance (a b : Z) : Z := Z.abs (a - b).

End ScrollSpy.

(* ===================================================================== *)
(** * Properties of the analyzer *)
(* ===================================================================== *)

Section AnalyzerFacts.
Import Js Analyzer.

Lemma tally_count (k : Counter) (ops : list Operation) (c : Counts) :
  count (fold_left tally ops c) k
  = (count c k
     + N.of_nat (length (filter (λ o, counterOf (fn o) = Some k) ops)))%N.
Proof.
  revert c. induction ops as [|o ops IH]; intros c; simpl.
  - lia.
  - rewrite IH. unfold tally at 1.
    destruct (counterOf (fn o)) as [j|] eqn:Ej.
    + simpl. unfold bump. rewrite filter_cons.
      repeat case_decide; simplify_eq; simpl; lia.
    + rewrite filter_cons. case_decide; [congruence|lia].
Qed.

Lemma filter_bool_ext {A} (P : A → Prop) `{∀ x, Decision (P x)}
    (f : A → bool) (l : list A) :
  (∀ x, P x ↔ f x = true) → filter P l = filter (λ x, f x = true) l.
Proof.
  intros Hext. apply list_filter_iff. intros x. apply Hext.
Qed.

Lemma textCount_spec ops tc co :
  textCount (analyzePageComplexity ops tc co)
  = N.of_nat (length (filter (λ o, isTextShow o = true) ops)).
Proof.
  unfold analyzePageComplexity; simpl. unfold tallyAll.
  rewrite tally_count. simpl. rewrite N.add_0_l. do 2 f_equal.
  apply list_filter_iff. intros [f a]. unfold isTextShow. simpl.
  destruct f; simpl; split; congruence.
Qed.

Lemma fontCount_spec ops tc co :
  fontCount (analyzePageComplexity ops tc co)
  = N.of_nat (length (filter (λ o, isFontSwitch o = true) ops)).
Proof.
  unfold analyzePageComplexity; simpl. unfold tallyAll.
  rewrite tally_count. simpl. rewrite N.add_0_l. do 2 f_equal.
  apply list_filter_iff. intros [f a]. unfold isFontSwitch. simpl.
  destruct f; simpl; split; congruence.
Qed.

Lemma fontStep_type3 co (items : list (option str)) (s : FontScan) :
  type3FontCount s
    = N.of_nat (length (filter (λ i, isType3 i = true) (fontDetails s))) →
  let s' := fold_left (fontStep co) items s in
  type3FontCount s'
    = N.of_nat (length (filter (λ i, isType3 i = true) (fontDetails s'))).
Proof.
  revert s. induction items as [|it items IH]; intros s Hs; simpl; [done|].
  apply IH. unfold fontStep. destruct it as [f|]; [|done].
  case_bool_decide; [done|].
  destruct (classify f (co f)) as [info t3] eqn:Ec. simpl.
  assert (isType3 info = t3) as Hinfo.
  { unfold classify in Ec. destruct (co f); inversion Ec; reflexivity. }
  rewrite filter_app, length_app, filter_cons, filter_nil, Hinfo.
  destruct t3; simpl; repeat case_decide; simpl; try congruence; lia.
Qed.

Lemma type3FontCount_spec ops tc co :
  let c := analyzePageComplexity ops tc co in
  pc_type3FontCount c
  = N.of_nat (length (filter (λ i, isType3 i = true) (pc_fontDetails c))).
Proof.
  unfold analyzePageComplexity; simpl. unfold scanFonts.
  destruct tc as [items|]; [|reflexivity]. by apply fontStep_type3.
Qed.

Lemma flag_fst cond r v : fst (flag cond r v) = cond || fst v.
Proof. unfold flag. by destruct cond. Qed.

Lemma flag_snd cond r v :
  snd (flag cond r v) = snd v ++ (if cond then [r] else []).
Proof. unfold flag. destruct cond; simpl; [done|]. by rewrite app_nil_r. Qed.

(** The four conditional blocks, read off in one piece. *)
Lemma verdict_closed_form ops tc co :
  let c := analyzePageComplexity ops tc co in
  let a := (0 <? pc_type3FontCount c)%N && (10 <? textCount c)%N in
  let b := (1000 <? textCount c)%N in
  let d := (200 <? fontCount c)%N in
  let e := (10000 <? operationCount c)%N in
  isHeavy c = a || b || d || e ∧
  heavyReasons c
  = (if a then [ReasonType3 (pc_type3FontCount c) (textCount c * 100)] else [])
    ++ (if b then [ReasonTextCount (textCount c)] else [])
    ++ (if d then [ReasonFontSwitch (fontCount c)] else [])
    ++ (if e then [ReasonOperationCount (operationCount c)] else []).
Proof.
  unfold analyzePageComplexity; simpl.
  rewrite !flag_fst, !flag_snd. simpl.
  unfold HEAVY_TEXT_THRESHOLD, HEAVY_FONT_SWITCH_THRESHOLD,
    HEAVY_PAGE_THRESHOLD, TYPE3_COST_MULTIPLIER.
  split.
  - repeat match goal with |- context [(?x <? ?y)%N] =>
      destruct (x <? y)%N end; reflexivity.
  - destruct (0 <? _)%N; simpl; rewrite <- ?app_assoc; reflexivity.
Qed.

(** C1.  For every page (operator list, text content and font table), the
    analyzer's counts are those of the operator list, its verdict is
    [true] exactly when one of the four rules holds (a Type3 font detected
    and more than 10 text-show operators; more than 1000 text-show
    operators; more than 200 font switches; more than 10000 operators),
    each rule that holds has its reason recorded and no other reason is.
    With 1001 text-show operators and no Type3 font the page is heavy with
    the text-count reason; with 1000 the text-count reason is absent. *)
Theorem analyzer_heaviness_rule
    (ops : list Operation) (tc : option (list (option str)))
    (co : str → FontLookup) :
  let c := analyzePageComplexity ops tc co in
  (* the quantities of the rules *)
  textCount c = N.of_nat (length (filter (λ o, isTextShow o = true) ops)) ∧
  fontCount c = N.of_nat (length (filter (λ o, isFontSwitch o = true) ops)) ∧
  operationCount c = N.of_nat (length ops) ∧
  pc_type3FontCount c
    = N.of_nat (length (filter (λ i, isType3 i = true) (pc_fontDetails c))) ∧
  (* the verdict *)
  (isHeavy c = true ↔
     ruleType3 c ∨ ruleText c ∨ ruleFontSwitch c ∨ ruleOperations c) ∧
  (* the reasons *)
  (ReasonType3 (pc_type3FontCount c) (textCount c * 100) ∈ heavyReasons c
     ↔ ruleType3 c) ∧
  (ReasonTextCount (textCount c) ∈ heavyReasons c ↔ ruleText c) ∧
  (ReasonFontSwitch (fontCount c) ∈ heavyReasons c ↔ ruleFontSwitch c) ∧
  (ReasonOperationCount (operationCount c) ∈ heavyReasons c
     ↔ ruleOperations c) ∧
  (∀ r, r ∈ heavyReasons c →
     r = ReasonType3 (pc_type3FontCount c) (textCount c * 100)
     ∨ r = ReasonTextCount (textCount c)
     ∨ r = ReasonFontSwitch (fontCount c)
     ∨ r = ReasonOperationCount (operationCount c)) ∧
  (heavyReason c = None ↔ isHeavy c = false) ∧
  (* the boundary of the text-count rule *)
  (textCount c = 1001%N → pc_type3FontCount c = 0%N →
     isHeavy c = true ∧ ReasonTextCount 1001 ∈ heavyReasons c) ∧
  (textCount c = 1000%N →
     (ReasonTextCount 1000 ∉ heavyReasons c) ∧
     (isHeavy c = true ↔
        (0 < pc_type3FontCount c)%N ∨ ruleFontSwitch c ∨ ruleOperations c)).
Proof.
  intros c.
  pose proof (textCount_spec ops tc co) as Ht.
  pose proof (fontCount_spec ops tc co) as Hf.
  pose proof (type3FontCount_spec ops tc co) as H3.
  fold c in Ht, Hf. cbv zeta in H3. fold c in H3.
  split; [exact Ht|]. split; [exact Hf|]. split; [reflexivity|].
  split; [exact H3|].
  clear Ht Hf H3.
  pose proof (verdict_closed_form ops tc co) as Hv. cbv zeta in Hv.
  fold c in Hv. destruct Hv as [Hh Hr].
  assert (heavyReason c = None ↔ heavyReasons c = []) as Hnone.
  { subst c. unfold analyzePageComplexity. simpl.
    match goal with |- context [snd ?v] => destruct (snd v) end;
      split; congruence. }
  rewrite Hnone, Hh, Hr. clear Hnone Hh Hr.
  unfold ruleType3, ruleText, ruleFontSwitch, ruleOperations.
  generalize (pc_type3FontCount c) (textCount c) (fontCount c)
    (operationCount c).
  intros k t f n.
  destruct (N.ltb_spec 0 k); destruct (N.ltb_spec 10 t);
    destruct (N.ltb_spec 1000 t); destruct (N.ltb_spec 200 f);
    destruct (N.ltb_spec 10000 n); simpl;
    repeat split; intros;
    rewrite ?elem_of_cons, ?elem_of_nil in *;
    try (intuition (try lia; congruence)).
Qed.

(** A page with 1001 text-show operators and no font is heavy, for the
    text-count reason. *)
Lemma analyzer_heaviness_rule_witness :
  isHeavy (analyzePageComplexity (textOnly 1001) None (λ _, FontNull)) = true ∧
  ReasonTextCount 1001
    ∈ heavyReasons (analyzePageComplexity (textOnly 1001) None
                      (λ _, FontNull)).
Proof.
  pose proof (analyzer_heaviness_rule (textOnly 1001) None (λ _, FontNull))
    as H.
  cbv zeta in H.
  destruct H as (_ & _ & _ & _ & _ & _ & _ & _ & _ & _ & _ & H & _).
  apply H; vm_compute; reflexivity.
Defined.

(** With 1000 text-show operators the page is not heavy. *)
Example analyzer_boundary_1000 :
  isHeavy (analyzePageComplexity (textOnly 1000) None (λ _, FontNull)) = false.
Proof. vm_compute. reflexivity. Qed.

End AnalyzerFacts.

(* ===================================================================== *)
(** * Rules for reasoning about effectful code *)
(* ===================================================================== *)

Section EffRules.
Import Eff.
Context {S : Type}.
Implicit Types (s : S) (Qa : Ctl → S → Prop).

Lemma wp_ret {A} (a : A) (Qn : A → S → Prop) Qa s :
  Qn a s → wp (mret a) Qn Qa s.
Proof. done. Qed.

Lemma wp_bind {A B} (m : M S A) (k : A → M S B) (Qn : B → S → Prop) Qa s :
  wp m (λ a s', wp (k a) Qn Qa s') Qa s → wp (m ≫= k) Qn Qa s.
Proof.
  unfold wp, mbind, M_bind. destruct (m s) as [[a|c] s']; done.
Qed.

Lemma wp_throw {A} e (Qn : A → S → Prop) Qa s :
  Qa (Throw e) s → wp (throw e) Qn Qa s.
Proof. done. Qed.

Lemma wp_return {A} (Qn : A → S → Prop) Qa s :
  Qa Return s → wp return_ Qn Qa s.
Proof. done. Qed.

Lemma wp_await {A} (o : Outcome A) (Qn : A → S → Prop) Qa s :
  (∀ a, o = Returns a → Qn a s) →
  (∀ e, o = Throws e → Qa (Throw e) s) →
  wp (await o) Qn Qa s.
Proof. destruct o; intros Hn Ht; [by apply Hn | by apply Ht]. Qed.

Lemma wp_modify (f : S → S) (Qn : unit → S → Prop) Qa s :
  Qn tt (f s) → wp (modify f) Qn Qa s.
Proof. done. Qed.

Lemma wp_get (Qn : S → S → Prop) Qa s :
  Qn s s → wp get Qn Qa s.
Proof. done. Qed.

Lemma wp_if {A} (b : bool) (m1 m2 : M S A) (Qn : A → S → Prop) Qa s :
  (b = true → wp m1 Qn Qa s) →
  (b = false → wp m2 Qn Qa s) →
  wp (if b then m1 else m2) Qn Qa s.
Proof. destruct b; auto. Qed.

Lemma wp_when (b : bool) (m : M S unit) (Qn : unit → S → Prop) Qa s :
  (b = true → wp m Qn Qa s) →
  (b = false → Qn tt s) →
  wp (when b m) Qn Qa s.
Proof. destruct b; intros H1 H2; [exact (H1 eq_refl) | exact (H2 eq_refl)]. Qed.

Lemma wp_mono {A} (m : M S A) (Qn Qn' : A → S → Prop) Qa Qa' s :
  wp m Qn Qa s →
  (∀ a s', Qn a s' → Qn' a s') →
  (∀ c s', Qa c s' → Qa' c s') →
  wp m Qn' Qa' s.
Proof.
  unfold wp. destruct (m s) as [[a|c] s']; auto.
Qed.

Lemma wp_try_finally {A} (body : M S A) (fin : M S unit)
    (Qn : A → S → Prop) Qa s :
  wp body (λ a s', wp fin (λ _ s'', Qn a s'') Qa s')
          (λ c s', wp fin (λ _ s'', Qa c s'') Qa s') s →
  wp (try_finally body fin) Qn Qa s.
Proof.
  unfold wp, try_finally.
  destruct (body s) as [[a|c] s']; destruct (fin s') as [[[]|c'] s'']; done.
Qed.

Lemma wp_try_catch {A} (body : M S A) (h : Exn → M S A)
    (Qn : A → S → Prop) Qa s :
  wp body Qn (λ c s', match c with
                      | Throw e => wp (h e) Qn Qa s'
                      | Return => Qa Return s'
                      end) s →
  wp (try_catch body h) Qn Qa s.
Proof.
  unfold wp, try_catch.
  destruct (body s) as [[a|[|e]] s']; done.
Qed.

Lemma wp_call (body : M S unit) (Qn : unit → S → Prop) Qa s :
  wp body Qn (λ c s', match c with
                      | Return => Qn tt s'
                      | Throw e => Qa (Throw e) s'
                      end) s →
  wp (call body) Qn Qa s.
Proof.
  unfold wp, call.
  destruct (body s) as [[a|[|e]] s']; done.
Qed.

(** Reading a [wp] back on the pair a run returns. *)
Lemma wp_run {A} (m : M S A) (Q : S → Prop) s :
  wp m (λ _, Q) (λ _, Q) s → Q (snd (m s)).
Proof. unfold wp. destruct (m s) as [[a|c] s']; done. Qed.

End EffRules.

(** One rule application, chosen by the head of the computation. *)
Ltac wp_step :=
  lazymatch goal with
  | |- Eff.wp (mbind _ _) _ _ _ => apply wp_bind
  | |- Eff.wp (mret _) _ _ _ => apply wp_ret
  | |- Eff.wp (Eff.throw _) _ _ _ => apply wp_throw
  | |- Eff.wp Eff.return_ _ _ _ => apply wp_return
  | |- Eff.wp (Eff.await _) _ _ _ => apply wp_await; intros ? ?
  | |- Eff.wp (Eff.modify _) _ _ _ => apply wp_modify
  | |- Eff.wp Eff.get _ _ _ => apply wp_get
  | |- Eff.wp (Eff.when _ _) _ _ _ => apply wp_when; intros ?
  | |- Eff.wp (if _ then _ else _) _ _ _ => apply wp_if; intros ?
  | |- Eff.wp (Eff.try_finally _ _) _ _ _ => apply wp_try_finally
  | |- Eff.wp (Eff.try_catch _ _) _ _ _ => apply wp_try_catch
  | |- Eff.wp (Eff.call _) _ _ _ => apply wp_call
  end.

(* ===================================================================== *)
(** * Properties of the PDFium adapter *)
(* ===================================================================== *)

Section PdfiumFacts.
Import Eff Pdfium.

Lemma nonNull_false p : nonNull p = false → p = 0%Z.
Proof. unfold nonNull. intros H. apply negb_false_iff in H. lia. Qed.

Lemma acquired_app l1 l2 : acquired (l1 ++ l2) = acquired l1 ++ acquired l2.
Proof. apply omap_app. Qed.

Lemma released_app l1 l2 : released (l1 ++ l2) = released l1 ++ released l2.
Proof. apply omap_app. Qed.

Lemma live_app l1 l2 : live (l1 ++ l2) = fold_left liveStep l2 (live l1).
Proof. unfold live. apply fold_left_app. Qed.

(** Acquisitions only: the live handles grow by the acquired ones. *)
Lemma live_acquisitions l (lv : list (Kind * Z)) :
  released l = [] → fold_left liveStep l lv = lv ++ acquired l.
Proof.
  revert lv. induction l as [|c l IH]; intros lv Hrel; simpl.
  - by rewrite app_nil_r.
  - unfold released in Hrel. simpl in Hrel.
    unfold acquired. simpl. unfold liveStep at 2.
    destruct (acquires c) as [r|] eqn:Ea; simpl.
    + destruct (releases c) eqn:Er; [discriminate|].
      rewrite IH by done. by rewrite <- app_assoc.
    + destruct (releases c) eqn:Er; [discriminate|]. by apply IH.
Qed.

Ltac frame_inv :=
  unfold tryInv; simpl;
  first [ exists []; split; [by rewrite app_nil_r|]
        | eexists; split; [rewrite <- ?app_assoc; reflexivity|] ];
  split; [reflexivity|];
  unfold acquired, held; simpl;
  repeat match goal with H : nonNull _ = _ |- _ => rewrite H end;
  reflexivity.

(** The [try] block, run from a frame whose three variables are null. *)
Lemma tryBlock_inv (w : World) (filePtr size pageNum : Z) (scale : Q)
    (rotation : Z) (password : bool) (l0 : list NativeCall) :
  wp (tryBlock w filePtr size pageNum scale rotation password)
     (λ _, tryInv l0) (λ _, tryInv l0)
     {| docPtr := 0; pagePtr := 0; bitmapPtr := 0; log := l0 |}.
Proof.
  unfold tryBlock, emit, set_docPtr, set_pagePtr, set_bitmapPtr.
  repeat (wp_step; simpl); frame_inv.
Qed.

(** When the release functions return, the [finally] block gives back
    what the variables hold, then the input buffer. *)
Lemma finallyBlock_log (w : World) (filePtr : Z) (f : Frame) :
  releasesReturn w →
  ∃ f', finallyBlock w filePtr f = (Normal tt, f') ∧
        log f' = log f
                 ++ (if nonNull (bitmapPtr f)
                     then [call_FPDFBitmap_Destroy (bitmapPtr f)] else [])
                 ++ (if nonNull (pagePtr f)
                     then [call_FPDF_ClosePage (pagePtr f)] else [])
                 ++ (if nonNull (docPtr f)
                     then [call_FPDF_CloseDocument (docPtr f)] else [])
                 ++ [call_free filePtr].
Proof.
  intros (Hb & Hp & Hd & Hf).
  unfold finallyBlock. rewrite Hb, Hp, Hd, Hf.
  unfold emit, when, await, modify, get, mbind, M_bind, mret, M_ret.
  destruct (nonNull (bitmapPtr f)), (nonNull (pagePtr f)),
    (nonNull (docPtr f)); simpl;
    eexists; (split; [reflexivity|]); simpl;
    rewrite <- ?app_assoc; reflexivity.
Qed.

(** A log made of the input-buffer allocation, acquisitions matching the
    variables, and the teardown of the variables, is balanced. *)
Lemma teardown_balanced (m size : Z) (l : list NativeCall) (d p b : Z) :
  released l = [] →
  acquired l = held Document d ++ held Page p ++ held Bitmap b →
  let full := [call_malloc size m] ++ l
              ++ (if nonNull b then [call_FPDFBitmap_Destroy b] else [])
              ++ (if nonNull p then [call_FPDF_ClosePage p] else [])
              ++ (if nonNull d then [call_FPDF_CloseDocument d] else [])
              ++ [call_free m] in
  released full = rev (acquired full) ∧
  NoDup (acquired full) ∧
  live full = [] ∧
  (∀ r, r ∈ acquired full →
        length (filter (λ x, x = r) (released full)) = 1).
Proof.
  intros Hrel Hacq full.
  assert (acquired full = held InputBuffer m ++ held Document d
                          ++ held Page p ++ held Bitmap b) as Ha.
  { subst full. rewrite !acquired_app, Hacq. unfold held, acquired.
    destruct (nonNull m) eqn:Em, (nonNull d) eqn:Ed, (nonNull p) eqn:Ep,
      (nonNull b) eqn:Eb; simpl; rewrite ?Em, ?Ed, ?Ep, ?Eb; reflexivity. }
  assert (released full = held Bitmap b ++ held Page p ++ held Document d
                          ++ held InputBuffer m) as Hr.
  { subst full. rewrite !released_app, Hrel. unfold held, released.
    destruct (nonNull m) eqn:Em, (nonNull d) eqn:Ed, (nonNull p) eqn:Ep,
      (nonNull b) eqn:Eb; simpl; rewrite ?Em, ?Ed, ?Ep, ?Eb; reflexivity. }
  assert (live full = []) as Hl.
  { subst full. rewrite app_assoc, live_app. rewrite live_app.
    rewrite (live_acquisitions l) by done. rewrite Hacq.
    unfold live, held.
    destruct (nonNull m) eqn:Em, (nonNull d) eqn:Ed, (nonNull p) eqn:Ep,
      (nonNull b) eqn:Eb; simpl; unfold liveStep; simpl;
      rewrite ?Em, ?Ed, ?Ep, ?Eb; simpl;
      repeat (case_decide; try congruence; simpl); reflexivity. }
  rewrite Ha, Hr, Hl. clear Ha Hr Hl.
  unfold held.
  destruct (nonNull m), (nonNull d), (nonNull p), (nonNull b); simpl;
    (split; [reflexivity|]);
    (split;
       [repeat (apply NoDup_cons_2;
                [rewrite ?elem_of_cons, ?elem_of_nil; intuition congruence|]);
        apply NoDup_nil_2|]);
    (split; [reflexivity|]);
    intros r Hr;
    rewrite ?elem_of_cons, ?elem_of_nil in Hr;
    repeat match goal with
      | H : _ ∨ _ |- _ => destruct H
      | H : False |- _ => destruct H
      end; subst;
    rewrite ?filter_cons, ?filter_nil;
    repeat case_decide; try congruence; reflexivity.
Qed.

(** What the teardown achieves.  When the allocator hands out a block
    inside the heap and the four release functions return, then whatever
    the PDFium module answers in the [try] block (a null handle or an
    exception at any call), and however the routine exits, the handles it
    released are exactly the handles it acquired, in reverse order of
    acquisition and none twice: every acquired bitmap, page, document and
    input buffer is released once and nothing stays live. *)
Lemma pdfium_teardown_balanced (w : World) (size pageNum : Z)
    (scale : Q) (rotation : Z) (password : bool) :
  allocatorSound w size →
  releasesReturn w →
  balanced (snd (renderPageWithPdfium w size pageNum scale rotation password
                   emptyFrame)).
Proof.
  intros Hsound Hrel. apply wp_run.
  unfold renderPageWithPdfium, emit, set_docPtr, set_pagePtr, set_bitmapPtr.
  wp_step. wp_step.
  2:{ repeat split; try constructor. intros r Hr. inversion Hr. }
  simpl. wp_step. wp_step.
  2:{ repeat split; try constructor. intros r Hr. inversion Hr. }
  rename a0 into m. simpl. wp_step. wp_step. simpl. wp_step. wp_step.
  - (* the copy into the heap is out of bounds: no buffer was handed out *)
    wp_step. simpl.
    assert (nonNull m = false) as Em.
    { unfold nonNull. apply negb_false_iff, Z.eqb_eq.
      destruct (decide (m = 0%Z)) as [|Hne]; [done|].
      destruct (Hsound m) as [? ?]; [done|done|]. lia. }
    unfold balanced, acquired, released, live; simpl. unfold liveStep; simpl.
    rewrite Em. simpl.
    repeat split; try constructor. intros r Hr. inversion Hr.
  - repeat (wp_step; simpl).
    eapply wp_mono; [apply tryBlock_inv| |];
      intros _ f (l & Hlog & Hrel' & Hacq);
      destruct (finallyBlock_log w m f Hrel) as (f' & Hrun & Hlog');
      unfold wp; rewrite Hrun; unfold balanced; rewrite Hlog', Hlog;
      rewrite <- !app_assoc;
      by apply (teardown_balanced m size l).
Qed.

(** The page fails to load: the document and the buffer are given back. *)
Lemma pdfium_teardown_page_load_fails :
  allocatorSound pageLoadFails 100 ∧ releasesReturn pageLoadFails ∧
  balanced (snd (renderPageWithPdfium pageLoadFails 100 1 (3 # 2) 0 false
                   emptyFrame)).
Proof.
  assert (allocatorSound pageLoadFails 100) as H.
  { intros p [= <-] _. simpl. lia. }
  assert (releasesReturn pageLoadFails) as H'.
  { by repeat split. }
  split; [exact H|]. split; [exact H'|].
  exact (pdfium_teardown_balanced _ _ _ _ _ _ H H').
Qed.

(** C3 at the inputs where the code departs from it.  The input buffer is
    allocated and filled before the [try]: when the copy into the heap
    throws (here the block handed out does not lie inside the view), the
    routine exits without reaching the teardown and the buffer stays
    allocated.  The releases of the [finally] block are plain calls one
    after the other: when one of them throws (here
    [FPDFBitmap_Destroy]), the block ends there, and the page, the
    document and the input buffer are not given back. *)
Theorem pdfium_handles_left_live :
  renderPageWithPdfium copyOutOfBounds 100 1 1 0 false emptyFrame
  = (Abrupt (Throw (Error "offset is out of bounds")),
     {| docPtr := 0; pagePtr := 0; bitmapPtr := 0;
        log := [call_malloc 100 65500] |}) ∧
  live (log (snd (renderPageWithPdfium copyOutOfBounds 100 1 1 0 false
                    emptyFrame)))
  = [(InputBuffer, 65500%Z)] ∧
  renderPageWithPdfium destroyThrows 100 1 1 0 false emptyFrame
  = (Abrupt (Throw (Error "memory access out of bounds")),
     {| docPtr := 7; pagePtr := 8; bitmapPtr := 9;
        log := [call_malloc 100 4096;
                call_FPDF_LoadMemDocument 4096 100 0 7;
                call_FPDF_LoadPage 7 0 8;
                call_FPDFBitmap_Create 2 1 1 9] |})%Z ∧
  live (log (snd (renderPageWithPdfium destroyThrows 100 1 1 0 false
                    emptyFrame)))
  = [(InputBuffer, 4096%Z); (Document, 7%Z); (Page, 8%Z); (Bitmap, 9%Z)] ∧
  ¬ balanced (snd (renderPageWithPdfium copyOutOfBounds 100 1 1 0 false
                     emptyFrame)) ∧
  ¬ balanced (snd (renderPageWithPdfium destroyThrows 100 1 1 0 false
                     emptyFrame)).
Proof.
  split; [vm_compute; reflexivity|].
  split; [vm_compute; reflexivity|].
  split; [vm_compute; reflexivity|].
  split; [vm_compute; reflexivity|].
  split; intros (_ & _ & Hlive & _); vm_compute in Hlive; discriminate.
Qed.

Example pdfium_page_load_fails :
  renderPageWithPdfium pageLoadFails 100 1 (3 # 2) 0 false emptyFrame
  = (Abrupt (Throw (Error "Failed to load page")),
     {| docPtr := 7; pagePtr := 0; bitmapPtr := 0;
        log := [call_malloc 100 4096;
                call_FPDF_LoadMemDocument 4096 100 0 7;
                call_FPDF_LoadPage 7 0 0;
                call_FPDF_CloseDocument 7;
                call_free 4096] |}).
Proof. vm_compute. reflexivity. Qed.


End PdfiumFacts.

(* ===================================================================== *)
(** * Properties of the per-page render state *)
(* ===================================================================== *)

Section ScrollFacts.
Import Eff Scroll.

Lemma resetEffect_states v :
  isLoaded v = true → pageRenderStates (resetEffect v) = ∅.
Proof. unfold resetEffect. by intros ->. Qed.

Lemma textLayerEffect_states r m v :
  pageRenderStates (textLayerEffect r m v) = pageRenderStates v.
Proof. unfold textLayerEffect. by destruct (isLoaded v). Qed.

Lemma textLayerEffect_trace r m v :
  trace (textLayerEffect r m v) = trace v.
Proof. unfold textLayerEffect. by destruct (isLoaded v). Qed.

Lemma textLayerEffect_loaded r m v :
  isLoaded (textLayerEffect r m v) = isLoaded v.
Proof. unfold textLayerEffect. by destruct (isLoaded v) eqn:E. Qed.

(** The text layers a pass of [updateTextLayers] touches belong to pages
    whose record says [rendered]. *)
Lemma textLayerEffect_only_rendered r m v p :
  textLayers (textLayerEffect r m v) p ≠ textLayers v p →
  refreshes m p = true.
Proof.
  unfold textLayerEffect, refreshes. destruct (isLoaded v); [|done].
  simpl. destruct (m !! p) as [st|]; [|done].
  destruct (rendered st); [done|]. simpl. done.
Qed.

Lemma refreshes_Rendered m p :
  refreshes m p = true ↔ fst (renderState (m !! p)) = Rendered.
Proof.
  unfold refreshes, renderState. destruct (m !! p) as [[[] [] ?]|]; simpl;
    split; congruence.
Qed.

(** C5.  With a document loaded, a change of the scale or of the rotation
    empties the per-page state map, so that every page reads [Idle] and
    none reads [Rendered] or [Rendering]; a change of the search query
    alone leaves the map, the renders in flight and the renderer calls as
    they were, and the only text layers it rebuilds are those of pages that
    read [Rendered] (each such page that has its elements and whose text
    content arrives gets spans for the new query). *)
Theorem parameter_change_frame (sys : System) (r : RefreshEnv) :
  isLoaded (viewer sys) = true →
  (∀ s, Qeq_bool s (scale (viewer sys)) = false →
     let sys' := step (SetScale s r) sys in
     pageRenderStates (viewer sys') = ∅ ∧
     ∀ p, statusOf (viewer sys') p = Idle) ∧
  (∀ z, z ≠ rotation (viewer sys) →
     let sys' := step (SetRotation z r) sys in
     pageRenderStates (viewer sys') = ∅ ∧
     ∀ p, statusOf (viewer sys') p = Idle) ∧
  (∀ q,
     let sys' := step (SetSearchQuery q r) sys in
     pageRenderStates (viewer sys') = pageRenderStates (viewer sys) ∧
     (∀ p, statusOf (viewer sys') p = statusOf (viewer sys) p) ∧
     inflight sys' = inflight sys ∧
     trace (viewer sys') = trace (viewer sys) ∧
     scale (viewer sys') = scale (viewer sys) ∧
     rotation (viewer sys') = rotation (viewer sys) ∧
     (∀ p, textLayers (viewer sys') p ≠ textLayers (viewer sys) p →
           statusOf (viewer sys) p = Rendered) ∧
     (∀ p, q ≠ searchQuery (viewer sys) →
           statusOf (viewer sys) p = Rendered →
           pageRefs (viewer sys) p = true → r_textLayer r p = true →
           (∃ u, r_getPage r p = Returns u) →
           (∃ u, r_getTextContent r p = Returns u) →
           textLayers (viewer sys') p
           = Some {| tl_query := q; tl_scale := scale (viewer sys);
                     tl_rotation := rotation (viewer sys) |})).
Proof.
  intros Hloaded. destruct sys as [v cb fl]. simpl in *.
  split; [|split].
  - intros s Hs. simpl. rewrite Hs. simpl.
    assert (pageRenderStates
              (resetEffect (textLayerEffect r (pageRenderStates v)
                              (with_scale s v))) = ∅) as He.
    { apply resetEffect_states. by rewrite textLayerEffect_loaded. }
    split; [done|]. intros p. unfold statusOf. by rewrite He, lookup_empty.
  - intros z Hz. simpl. destruct (Z.eqb_spec z (rotation v)); [done|]. simpl.
    assert (pageRenderStates
              (resetEffect (textLayerEffect r (pageRenderStates v)
                              (with_rotation z v))) = ∅) as He.
    { apply resetEffect_states. by rewrite textLayerEffect_loaded. }
    split; [done|]. intros p. unfold statusOf. by rewrite He, lookup_empty.
  - intros q. simpl. case_bool_decide as Hq; simpl.
    + repeat split; try done.
    + rewrite textLayerEffect_states, textLayerEffect_trace. simpl.
      repeat split; try done.
      * unfold statusOf. by rewrite textLayerEffect_states.
      * unfold textLayerEffect. by destruct (isLoaded _).
      * unfold textLayerEffect. by destruct (isLoaded _).
      * intros p Hp.
        change (textLayers v p)
          with (textLayers (with_searchQuery q v) p) in Hp.
        apply textLayerEffect_only_rendered in Hp.
        by apply refreshes_Rendered.
      * intros p _ Hst Href Htl [u Hu] [u' Hu'].
        apply refreshes_Rendered in Hst. unfold refreshes in Hst.
        unfold textLayerEffect.
        change (isLoaded (with_searchQuery q v)) with (isLoaded v).
        rewrite Hloaded. simpl.
        destruct (pageRenderStates v !! p) as [st|]; [|done].
        by rewrite Hst, Href, Htl, Hu, Hu'.
Qed.

(** On the sample system with page 1 rendered: doubling the scale or
    turning the page by a quarter empties the state map, and page 1 reads
    [Idle]; searching for "cat" leaves page 1 [Rendered] and rebuilds its
    text layer for the new query. *)
Lemma parameter_change_frame_witness :
  isLoaded (viewer renderedSystem) = true ∧
  statusOf (viewer renderedSystem) 1 = Rendered ∧
  textLayers (viewer renderedSystem) 1
  = Some {| tl_query := []; tl_scale := 1; tl_rotation := 0 |} ∧
  (pageRenderStates (viewer (step (SetScale 2 sampleRefresh) renderedSystem))
   = ∅ ∧
   statusOf (viewer (step (SetScale 2 sampleRefresh) renderedSystem)) 1
   = Idle) ∧
  (pageRenderStates
     (viewer (step (SetRotation 90 sampleRefresh) renderedSystem)) = ∅ ∧
   statusOf (viewer (step (SetRotation 90 sampleRefresh) renderedSystem)) 1
   = Idle) ∧
  (statusOf
     (viewer (step (SetSearchQuery (Js.lit "cat") sampleRefresh)
                renderedSystem)) 1
   = Rendered ∧
   textLayers
     (viewer (step (SetSearchQuery (Js.lit "cat") sampleRefresh)
                renderedSystem)) 1
   = Some {| tl_query := Js.lit "cat"; tl_scale := 1; tl_rotation := 0 |}).
Proof.
  assert (isLoaded (viewer renderedSystem) = true) as H by reflexivity.
  assert (statusOf (viewer renderedSystem) 1 = Rendered) as Hst
    by (vm_compute; reflexivity).
  destruct (parameter_change_frame renderedSystem sampleRefresh H)
    as (Hs & Hr & Hq).
  split; [exact H|]. split; [exact Hst|].
  split; [vm_compute; reflexivity|].
  split; [|split].
  - destruct (Hs 2%Q) as [He Hi]; [reflexivity|]. split; [exact He|apply Hi].
  - destruct (Hr 90%Z) as [He Hi]; [discriminate|].
    split; [exact He|apply Hi].
  - destruct (Hq (Js.lit "cat")) as (_ & Hsame & _ & _ & _ & _ & _ & Hnew).
    split; [by rewrite Hsame|].
    apply Hnew;
      [ intros Heq; vm_compute in Heq; discriminate | exact Hst
      | reflexivity | reflexivity | by eexists | by eexists ].
Defined.

(** ** The guard of [renderSinglePage] *)



(** What [enter] does when the render goes on. *)
Lemma enter_Some cb v p c v' :
  enter cb p v = (Normal (Some c), v') →
  holdsDocument cb = true ∧ cb_pdfArrayBuffer cb = true ∧
  pageRefs v p = true ∧
  alreadyHandled (cb_pageRenderStates cb) p = false ∧
  c = {| c_scale := cb_scale cb; c_rotation := cb_rotation cb;
         c_searchQuery := cb_searchQuery cb |} ∧
  v' = with_pageRenderStates
         (<[p := {| rendered := false; rendering := true;
                    usedPdfium := false |}]> (pageRenderStates v)) v.
Proof.
  unfold enter, mbind, M_bind, get. simpl.
  destruct (holdsDocument cb), (cb_pdfArrayBuffer cb), (pageRefs v p),
    (alreadyHandled (cb_pageRenderStates cb) p); simpl; try discriminate.
  intros [= <- <-]. done.
Qed.

Lemma enter_cases cb v p :
  enter cb p v = (Normal None, v) ∨
  (alreadyHandled (cb_pageRenderStates cb) p = false ∧
   ∃ c, enter cb p v
        = (Normal (Some c),
           with_pageRenderStates
             (<[p := {| rendered := false; rendering := true;
                        usedPdfium := false |}]> (pageRenderStates v)) v)).
Proof.
  unfold enter, mbind, M_bind, get. simpl.
  destruct (holdsDocument cb), (cb_pdfArrayBuffer cb), (pageRefs v p),
    (alreadyHandled (cb_pageRenderStates cb) p); simpl; eauto.
Qed.








(** ** Failure of a render *)







(** ** The PDFium renderer as a fallback *)

Lemma scroll_lightProfile : Analyzer.isHeavy lightProfile = false.
Proof. reflexivity. Qed.

(** Case analysis on what the world delivers, as execution meets it. *)
Ltac meet_outcome :=
  match goal with
  | |- context [Analyzer.isHeavy lightProfile] =>
      rewrite scroll_lightProfile
  | |- context [match ?o with Returns _ => _ | Throws _ => _ end] =>
      is_var o; destruct o
  | |- context [if ?b then _ else _] => is_var b; destruct b
  | |- context [Analyzer.isHeavy ?c] =>
      is_var c; destruct (Analyzer.isHeavy c) eqn:?
  end.

Ltac run_render :=
  unfold resume, tryBlock, renderTextLayerToElement, emit, setTextLayer,
    setPageRenderState, call, try_catch, when, await, throw, return_, modify,
    mbind, M_bind, mret, M_ret, asLightPage;
  cbn -[lightProfile];
  repeat (meet_outcome; cbn -[lightProfile]).

Ltac split_trace :=
  eexists; split;
  [rewrite <- ?app_assoc; try reflexivity; by rewrite app_nil_r|].

Lemma scroll_pdfium_only_when_heavy env c p v :
  ∃ new, trace (snd (resume env c p v)) = trace v ++ new ∧
    ∀ q sc rot, PdfiumRender q sc rot ∈ new →
      ∃ cx, analyzePageComplexity env = Returns cx ∧
            Analyzer.isHeavy cx = true.
Proof.
  destruct env as [gp an el pr pc ptc cc re gtc].
  run_render; split_trace;
    intros q sc rot Hin; simpl in Hin;
    rewrite ?elem_of_cons, ?elem_of_nil in Hin;
    try (intuition discriminate); eauto.
Qed.

(** When the PDFium attempt fails, the render goes on as for a light
    page: same completion, same state map, the same events once those of
    the attempt are left out, and the same text layers (but that the
    attempt may have emptied the page's own layer). *)
Lemma scroll_fallback_failure env c p v :
  (∃ e, renderPageWithPdfium env = Throws e)
  ∨ (∃ e, pdfiumTextContent env = Throws e) →
  let r1 := resume env c p v in
  let r2 := resume (asLightPage env) c p v in
  fst r1 = fst r2 ∧
  pageRenderStates (snd r1) = pageRenderStates (snd r2) ∧
  (∀ q, textLayers (snd r1) q = textLayers (snd r2) q
        ∨ (q = p ∧ textLayers (snd r1) q = None)) ∧
  ∃ new1 new2,
    trace (snd r1) = trace v ++ new1 ∧
    trace (snd r2) = trace v ++ new2 ∧
    filter (λ e, isPdfiumAttempt e = false) new1 = new2.
Proof.
  destruct env as [gp an el pr pc ptc cc re gtc]. simpl.
  intros [[e ->]|[e ->]];
    run_render;
    (split; [reflexivity|]); (split; [reflexivity|]);
    (split; [intros q; simpl; repeat case_decide; auto|]);
    eexists; eexists;
    (split; [rewrite <- ?app_assoc; try reflexivity; by rewrite app_nil_r|]);
    (split; [rewrite <- ?app_assoc; try reflexivity; by rewrite app_nil_r|]);
    reflexivity.
Qed.

(** After a failed PDFium attempt the pdf.js renderer is called, and when
    it and the text layer succeed the page ends [rendered], without
    [usedPdfium]. *)
Lemma scroll_fallback_then_primary env c p v :
  (∃ e, renderPageWithPdfium env = Throws e)
  ∨ (∃ e, pdfiumTextContent env = Throws e) →
  (∃ u, getPage env = Returns u) →
  (∃ cx, analyzePageComplexity env = Returns cx) →
  elements env = true →
  canvasContext env = true →
  PdfjsRender p (c_scale c) (c_rotation c) ∈ trace (snd (resume env c p v)) ∧
  ((∃ u, render env = Returns u) → (∃ u, getTextContent env = Returns u) →
   fst (resume env c p v) = Normal tt ∧
   pageRenderStates (snd (resume env c p v)) !! p
   = Some {| rendered := true; rendering := false; usedPdfium := false |}).
Proof.
  destruct env as [gp an el pr pc ptc cc re gtc]. simpl.
  intros Hf [[] ->] [cx ->] -> ->.
  destruct Hf as [[e ->]|[e ->]];
    run_render;
    (split;
     [rewrite ?elem_of_app, ?elem_of_cons; by auto 10|]);
    intros [u Hu] [u' Hu']; try discriminate;
    (split; [reflexivity|]); simpl; apply lookup_insert_eq.
Qed.

End ScrollFacts.

(* ===================================================================== *)
(** * Properties of the renderer dispatch *)
(* ===================================================================== *)

Section DispatchFacts.
Import Eff.

Lemma single_lightProfile : Analyzer.isHeavy SinglePage.lightProfile = false.
Proof. reflexivity. Qed.

Ltac meet_single :=
  match goal with
  | |- context [Analyzer.isHeavy SinglePage.lightProfile] =>
      rewrite single_lightProfile
  | |- context [match ?o with Returns _ => _ | Throws _ => _ end] =>
      is_var o; destruct o
  | |- context [match ?e with RenderingCancelledException => _ | Error _ => _ end] =>
      is_var e; destruct e
  | |- context [if ?b then _ else _] => is_var b; destruct b
  | |- context [Analyzer.isHeavy ?c] =>
      is_var c; destruct (Analyzer.isHeavy c) eqn:?
  end.

Ltac run_single :=
  unfold SinglePage.executeRender, SinglePage.renderWithPdfiumInternal,
    SinglePage.renderTextLayer, SinglePage.emit, SinglePage.setIsAnalyzing,
    SinglePage.setIsRendering, SinglePage.setError,
    SinglePage.setCurrentRenderTask, SinglePage.asLightPage,
    call, try_catch, try_finally, when, await, throw, return_, modify, get,
    mbind, M_bind, mret, M_ret;
  cbn -[SinglePage.lightProfile];
  repeat (meet_single; cbn -[SinglePage.lightProfile]).

Ltac split_trace :=
  eexists; split;
  [rewrite <- ?app_assoc; try reflexivity; by rewrite app_nil_r|].

Lemma single_pdfium_only_when_heavy env p q v :
  ∃ new,
    SinglePage.trace (snd (SinglePage.executeRender env p q v))
    = SinglePage.trace v ++ new ∧
    ∀ p', SinglePage.PdfiumRender p' ∈ new →
      SinglePage.pdfArrayBuffer env = true ∧
      ∃ cx, SinglePage.analyzePageComplexity env = Returns cx ∧
            Analyzer.isHeavy cx = true.
Proof.
  destruct env as [cv tl ab gp an pr pc cc rt gtc].
  destruct v as [ia ir er crt tr].
  run_single; split_trace;
    intros p' Hin; simpl in Hin;
    rewrite ?elem_of_cons, ?elem_of_nil in Hin;
    try (intuition discriminate); eauto.
Qed.

(** When the PDFium renderer throws, [executeRender] goes on as for a
    light page: same completion, same flags, same error message (none of
    its own), same pending render task, and the same events once those of
    the attempt are left out. *)
Lemma single_fallback_failure env p q v :
  (∃ e, SinglePage.renderPageWithPdfium env = Throws e) →
  let r1 := SinglePage.executeRender env p q v in
  let r2 := SinglePage.executeRender (SinglePage.asLightPage env) p q v in
  fst r1 = fst r2 ∧
  SinglePage.isAnalyzing (snd r1) = SinglePage.isAnalyzing (snd r2) ∧
  SinglePage.isRendering (snd r1) = SinglePage.isRendering (snd r2) ∧
  SinglePage.error (snd r1) = SinglePage.error (snd r2) ∧
  SinglePage.currentRenderTask (snd r1)
  = SinglePage.currentRenderTask (snd r2) ∧
  ∃ new1 new2,
    SinglePage.trace (snd r1) = SinglePage.trace v ++ new1 ∧
    SinglePage.trace (snd r2) = SinglePage.trace v ++ new2 ∧
    filter (λ e, SinglePage.isPdfiumAttempt e = false) new1 = new2.
Proof.
  destruct env as [cv tl ab gp an pr pc cc rt gtc].
  destruct v as [ia ir er crt tr]. simpl.
  intros [e ->].
  run_single;
    repeat (split; [reflexivity|]);
    eexists; eexists;
    (split; [rewrite <- ?app_assoc; try reflexivity; by rewrite app_nil_r|]);
    (split; [rewrite <- ?app_assoc; try reflexivity; by rewrite app_nil_r|]);
    reflexivity.
Qed.

(** After the PDFium renderer throws, the pdf.js renderer is called; when
    it and the text layer succeed, the call completes and the error
    message is left as it was. *)
Lemma single_fallback_then_primary env p q v :
  (∃ e, SinglePage.renderPageWithPdfium env = Throws e) →
  SinglePage.canvas env = true →
  (∃ u, SinglePage.getPage env = Returns u) →
  (∃ cx, SinglePage.analyzePageComplexity env = Returns cx) →
  SinglePage.canvasContext env = true →
  SinglePage.PdfjsRender p
    ∈ SinglePage.trace (snd (SinglePage.executeRender env p q v)) ∧
  ((∃ u, SinglePage.renderTask env = Returns u) →
   (∃ u, SinglePage.getTextContent env = Returns u) →
   fst (SinglePage.executeRender env p q v) = Normal tt ∧
   SinglePage.error (snd (SinglePage.executeRender env p q v))
   = SinglePage.error v).
Proof.
  destruct env as [cv tl ab gp an pr pc cc rt gtc].
  destruct v as [ia ir er crt tr]. simpl.
  intros [e ->] -> [[] ->] [cx ->] ->.
  run_single;
    (split;
     [rewrite ?elem_of_app, ?elem_of_cons; by auto 12|]);
    intros [u Hu] [u' Hu']; try discriminate;
    split; reflexivity.
Qed.

Lemma scroll_renderSinglePage_only_when_heavy env p v :
  ∃ new,
    Scroll.trace (snd (Scroll.renderSinglePage env p v))
    = Scroll.trace v ++ new ∧
    ∀ q sc rot, Scroll.PdfiumRender q sc rot ∈ new →
      Scroll.pdfArrayBuffer v = true ∧
      ∃ cx, Scroll.analyzePageComplexity env = Returns cx ∧
            Analyzer.isHeavy cx = true.
Proof.
  unfold Scroll.renderSinglePage, mbind, M_bind, get.
  destruct (enter_cases (Scroll.callbackOf v) v p) as [He|(Hnot & c & He)];
    rewrite He.
  - exists []. split; [by rewrite app_nil_r|].
    intros q sc rot Hin. by apply elem_of_nil in Hin.
  - apply enter_Some in He as (_ & Hbuf & _ & _ & _ & _).
    match goal with |- context [Scroll.resume env c p ?v1] =>
      destruct (scroll_pdfium_only_when_heavy env c p v1) as (new & Ht & Hn)
    end.
    exists new. split; [exact Ht|]. intros q sc rot Hin.
    split; [exact Hbuf|]. by apply (Hn q sc rot).
Qed.

(** C2.  In both viewers: the PDFium renderer is called only for a page
    the analyzer found heavy and only while the byte snapshot is held;
    when the attempt throws, the render proceeds exactly as the render of
    a light page does (same completion, same resulting state, no error of
    its own, the same events apart from those of the attempt), which calls
    the pdf.js renderer whenever a drawing context is there, and ends as a
    successful render when pdf.js and the text layer succeed. *)
Theorem fallback_dispatch :
  (* the single-page viewer *)
  (∀ env p q v,
     ∃ new,
       SinglePage.trace (snd (SinglePage.executeRender env p q v))
       = SinglePage.trace v ++ new ∧
       ∀ p', SinglePage.PdfiumRender p' ∈ new →
         SinglePage.pdfArrayBuffer env = true ∧
         ∃ cx, SinglePage.analyzePageComplexity env = Returns cx ∧
               Analyzer.isHeavy cx = true) ∧
  (∀ env p q v,
     (∃ e, SinglePage.renderPageWithPdfium env = Throws e) →
     let r1 := SinglePage.executeRender env p q v in
     let r2 := SinglePage.executeRender (SinglePage.asLightPage env) p q v in
     fst r1 = fst r2 ∧
     SinglePage.isAnalyzing (snd r1) = SinglePage.isAnalyzing (snd r2) ∧
     SinglePage.isRendering (snd r1) = SinglePage.isRendering (snd r2) ∧
     SinglePage.error (snd r1) = SinglePage.error (snd r2) ∧
     SinglePage.currentRenderTask (snd r1)
     = SinglePage.currentRenderTask (snd r2) ∧
     ∃ new1 new2,
       SinglePage.trace (snd r1) = SinglePage.trace v ++ new1 ∧
       SinglePage.trace (snd r2) = SinglePage.trace v ++ new2 ∧
       filter (λ e, SinglePage.isPdfiumAttempt e = false) new1 = new2) ∧
  (∀ env p q v,
     (∃ e, SinglePage.renderPageWithPdfium env = Throws e) →
     SinglePage.canvas env = true →
     (∃ u, SinglePage.getPage env = Returns u) →
     (∃ cx, SinglePage.analyzePageComplexity env = Returns cx) →
     SinglePage.canvasContext env = true →
     SinglePage.PdfjsRender p
       ∈ SinglePage.trace (snd (SinglePage.executeRender env p q v)) ∧
     ((∃ u, SinglePage.renderTask env = Returns u) →
      (∃ u, SinglePage.getTextContent env = Returns u) →
      fst (SinglePage.executeRender env p q v) = Normal tt ∧
      SinglePage.error (snd (SinglePage.executeRender env p q v))
      = SinglePage.error v)) ∧
  (* the continuous-scroll viewer *)
  (∀ env p v,
     ∃ new,
       Scroll.trace (snd (Scroll.renderSinglePage env p v))
       = Scroll.trace v ++ new ∧
       ∀ q sc rot, Scroll.PdfiumRender q sc rot ∈ new →
         Scroll.pdfArrayBuffer v = true ∧
         ∃ cx, Scroll.analyzePageComplexity env = Returns cx ∧
               Analyzer.isHeavy cx = true) ∧
  (∀ env c p v,
     (∃ e, Scroll.renderPageWithPdfium env = Throws e)
     ∨ (∃ e, Scroll.pdfiumTextContent env = Throws e) →
     let r1 := Scroll.resume env c p v in
     let r2 := Scroll.resume (Scroll.asLightPage env) c p v in
     fst r1 = fst r2 ∧
     Scroll.pageRenderStates (snd r1) = Scroll.pageRenderStates (snd r2) ∧
     (∀ q, Scroll.textLayers (snd r1) q = Scroll.textLayers (snd r2) q
           ∨ (q = p ∧ Scroll.textLayers (snd r1) q = None)) ∧
     ∃ new1 new2,
       Scroll.trace (snd r1) = Scroll.trace v ++ new1 ∧
       Scroll.trace (snd r2) = Scroll.trace v ++ new2 ∧
       filter (λ e, Scroll.isPdfiumAttempt e = false) new1 = new2) ∧
  (∀ env c p v,
     (∃ e, Scroll.renderPageWithPdfium env = Throws e)
     ∨ (∃ e, Scroll.pdfiumTextContent env = Throws e) →
     (∃ u, Scroll.getPage env = Returns u) →
     (∃ cx, Scroll.analyzePageComplexity env = Returns cx) →
     Scroll.elements env = true →
     Scroll.canvasContext env = true →
     Scroll.PdfjsRender p (Scroll.c_scale c) (Scroll.c_rotation c)
       ∈ Scroll.trace (snd (Scroll.resume env c p v)) ∧
     ((∃ u, Scroll.render env = Returns u) →
      (∃ u, Scroll.getTextContent env = Returns u) →
      fst (Scroll.resume env c p v) = Normal tt ∧
      Scroll.pageRenderStates (snd (Scroll.resume env c p v)) !! p
      = Some {| Scroll.rendered := true; Scroll.rendering := false;
                Scroll.usedPdfium := false |})).
Proof.
  split; [|split; [|split; [|split; [|split]]]].
  - apply single_pdfium_only_when_heavy.
  - apply single_fallback_failure.
  - apply single_fallback_then_primary.
  - apply scroll_renderSinglePage_only_when_heavy.
  - apply scroll_fallback_failure.
  - apply scroll_fallback_then_primary.
Qed.

(** A heavy page whose PDFium render throws is drawn by pdf.js, and no
    error message is set. *)
Lemma fallback_dispatch_witness :
  SinglePage.PdfjsRender 1
    ∈ SinglePage.trace
        (snd (SinglePage.executeRender SinglePage.pdfiumThrows 1 []
                SinglePage.idle)) ∧
  SinglePage.error
    (snd (SinglePage.executeRender SinglePage.pdfiumThrows 1 []
            SinglePage.idle))
  = None.
Proof.
  destruct fallback_dispatch as (_ & _ & H & _).
  destruct (H SinglePage.pdfiumThrows 1 [] SinglePage.idle
              (ex_intro _ _ eq_refl) eq_refl (ex_intro _ tt eq_refl)
              (ex_intro _ _ eq_refl) eq_refl) as [H1 H2].
  split; [exact H1|].
  destruct (H2 (ex_intro _ tt eq_refl) (ex_intro _ tt eq_refl)) as [_ H3].
  exact H3.
Defined.

Example single_page_pdfium_throws :
  SinglePage.trace
    (snd (SinglePage.executeRender SinglePage.pdfiumThrows 1 []
            SinglePage.idle))
  = [SinglePage.GetPage 1; SinglePage.Analyze 1; SinglePage.YieldToMain;
     SinglePage.PdfiumRender 1; SinglePage.Warn; SinglePage.Warn;
     SinglePage.PdfjsRender 1; SinglePage.ClearTextLayer;
     SinglePage.RenderTextLayer 1 []].
Proof. vm_compute. reflexivity. Qed.

End DispatchFacts.

(* ===================================================================== *)
(** * Properties of the search *)
(* ===================================================================== *)

Section SearchFacts.
Import Eff Js SearchIndex.

Lemma trimStart_blank s :
  Forall (λ c, isWhite c = true) s → trimStart s = [].
Proof.
  induction 1 as [|c s Hc _ IH]; simpl; [done|]. by rewrite Hc.
Qed.

Lemma trim_blank s : Forall (λ c, isWhite c = true) s → trim s = [].
Proof.
  intros H. unfold trim, trimEnd. by rewrite (trimStart_blank s H).
Qed.

Lemma trimStart_nonblank s :
  Exists (λ c, isWhite c = false) s →
  trimStart s ≠ [] ∧ Exists (λ c, isWhite c = false) (trimStart s).
Proof.
  induction s as [|c s IH]; intros H; [by inversion H|].
  simpl. destruct (isWhite c) eqn:Ec.
  - apply IH. inversion H; subst; [congruence|done].
  - split; [done|]. by left.
Qed.

Lemma trim_nonblank s :
  Exists (λ c, isWhite c = false) s → truthy (trim s) = true.
Proof.
  intros H. apply trimStart_nonblank in H as [_ H].
  unfold trim, trimEnd.
  assert (Exists (λ c, isWhite c = false) (rev (trimStart s))) as H'.
  { apply Exists_exists in H as (c & Hin & Hc).
    apply Exists_exists. exists c. split; [|done].
    apply list_elem_of_In. rewrite <- in_rev. by apply list_elem_of_In. }
  apply trimStart_nonblank in H' as [Hne _].
  destruct (trimStart (rev (trimStart s))) as [|c l] eqn:E; [done|].
  simpl. destruct (rev l ++ [c]) eqn:E2; [|done].
  by destruct (rev l).
Qed.


Lemma matchesFrom_elem q p i items m :
  m ∈ matchesFrom q p i items ↔
  pageNum m = p ∧ i ≤ itemIndex m ∧
  items !! (itemIndex m - i) = Some (TextItem (text m)) ∧
  includes q (toLowerCase (text m)) = true.
Proof.
  revert i. induction items as [|it items IH]; intros i; simpl.
  - rewrite elem_of_nil. split; [done|]. intros (_ & _ & H & _). done.
  - assert (m ∈ matchesFrom q p (S i) items ↔
            pageNum m = p ∧ i ≤ itemIndex m ∧ itemIndex m ≠ i ∧
            (it :: items) !! (itemIndex m - i) = Some (TextItem (text m)) ∧
            includes q (toLowerCase (text m)) = true) as Hrest.
    { rewrite IH. split.
      - intros (Hp & Hi & Hl & Hinc). repeat split; try done; try lia.
        replace (itemIndex m - i) with (S (itemIndex m - S i)) by lia. done.
      - intros (Hp & Hi & Hne & Hl & Hinc). repeat split; try done; try lia.
        replace (itemIndex m - i) with (S (itemIndex m - S i)) in Hl by lia.
        done. }
    unfold matchOf at 1. destruct it as [s|].
    + destruct (includes q (toLowerCase s)) eqn:Einc.
      * rewrite elem_of_cons, Hrest. split.
        -- intros [->|(Hp & Hi & Hne & Hl & Hinc)]; simpl.
           ++ rewrite Nat.sub_diag. done.
           ++ done.
        -- intros (Hp & Hi & Hl & Hinc).
           destruct (decide (itemIndex m = i)) as [Heq|Hne].
           ++ left. rewrite Heq, Nat.sub_diag in Hl. simpl in Hl.
              destruct m as [pm im tm]. simpl in *. congruence.
           ++ right. done.
      * rewrite Hrest. split.
        -- intros (Hp & Hi & Hne & Hl & Hinc). done.
        -- intros (Hp & Hi & Hl & Hinc). repeat split; try done.
           intros Heq. rewrite Heq, Nat.sub_diag in Hl. simpl in Hl.
           congruence.
    + rewrite Hrest. split.
      * intros (Hp & Hi & Hne & Hl & Hinc). done.
      * intros (Hp & Hi & Hl & Hinc). repeat split; try done.
        intros Heq. rewrite Heq, Nat.sub_diag in Hl. simpl in Hl. congruence.
Qed.

Lemma matchesFrom_sorted q p i items :
  StronglySorted before (matchesFrom q p i items).
Proof.
  revert i. induction items as [|it items IH]; intros i; simpl.
  - constructor.
  - destruct (matchOf q p i it) as [m|] eqn:Em; [|apply IH].
    constructor; [apply IH|].
    apply Forall_forall. intros m' Hm'. apply matchesFrom_elem in Hm'.
    destruct Hm' as (Hp & Hi & _).
    unfold matchOf in Em. destruct it as [s|]; [|done].
    destruct (includes q (toLowerCase s)); [|done].
    injection Em as <-. right. simpl. split; [done|lia].
Qed.


Lemma scan_complete doc q pages results st :
  (∀ p, p ∈ pages → is_Some (pageItems doc p)) →
  scan doc q pages results st
  = (Normal (results ++ found doc q pages), visiting pages st).
Proof.
  revert results st. induction pages as [|p pages IH]; intros results st Hall.
  - simpl. unfold found, visiting. simpl. rewrite !app_nil_r.
    by destruct st.
  - assert (is_Some (pageItems doc p)) as [items Hitems]
      by (apply Hall; left).
    assert (getPage doc p = Returns tt ∧ getTextContent doc p = Returns items)
      as [Eg Et].
    { unfold pageItems in Hitems.
      destruct (getPage doc p) as [[]|]; [|done].
      destruct (getTextContent doc p); [|done]. by injection Hitems as ->. }
    simpl. unfold mbind, M_bind, visit, modify. simpl. rewrite Eg, Et. simpl.
    rewrite IH by (intros p' Hp'; apply Hall; by right).
    unfold found, visiting. simpl. rewrite Hitems. simpl.
    rewrite <- !app_assoc. reflexivity.
Qed.

Lemma scan_normal doc q pages results st r :
  fst (scan doc q pages results st) = Normal r →
  ∀ p, p ∈ pages → is_Some (pageItems doc p).
Proof.
  revert results st. induction pages as [|p pages IH]; intros results st H p' Hp'.
  - by apply elem_of_nil in Hp'.
  - simpl in H. unfold mbind, M_bind, visit, modify in H. simpl in H.
    unfold pageItems.
    destruct (getPage doc p) as [[]|e] eqn:Eg; [|done].
    destruct (getTextContent doc p) as [items|e] eqn:Et; [|done].
    simpl in H.
    apply elem_of_cons in Hp' as [->|Hp'].
    + rewrite Eg, Et. eauto.
    + by apply (IH _ _ H).
Qed.

Lemma scan_no_return doc q pages results st :
  fst (scan doc q pages results st) ≠ Abrupt Return.
Proof.
  revert results st. induction pages as [|p pages IH]; intros results st.
  - done.
  - simpl. unfold mbind, M_bind, visit, modify. simpl.
    destruct (getPage doc p) as [[]|e]; [|done].
    destruct (getTextContent doc p) as [items|e]; [|done].
    simpl. apply IH.
Qed.

Lemma found_elem doc q pages m :
  m ∈ found doc q pages ↔
  pageNum m ∈ pages ∧
  ∃ items, pageItems doc (pageNum m) = Some items ∧
           items !! itemIndex m = Some (TextItem (text m)) ∧
           includes q (toLowerCase (text m)) = true.
Proof.
  unfold found. rewrite list_elem_of_bind. split.
  - intros (p & Hm & Hp).
    unfold matchesOf in Hm. apply matchesFrom_elem in Hm
      as (Hpm & _ & Hl & Hinc).
    rewrite Nat.sub_0_r in Hl. subst p. split; [done|].
    destruct (pageItems doc (pageNum m)) as [items|]; [|done].
    by exists items.
  - intros (Hp & items & Hitems & Hl & Hinc).
    exists (pageNum m). split; [|done]. rewrite Hitems. simpl.
    unfold matchesOf. apply matchesFrom_elem.
    rewrite Nat.sub_0_r. repeat split; try done. lia.
Qed.

Lemma found_sorted doc q pages :
  StronglySorted lt pages → StronglySorted before (found doc q pages).
Proof.
  induction 1 as [|p pages Hs IH Hp]; [constructor|].
  unfold found. rewrite bind_cons.
  apply StronglySorted_app_2;
    [|unfold matchesOf; apply matchesFrom_sorted|apply IH].
  intros m1 m2 H1 H2.
  apply matchesFrom_elem in H1 as (Hp1 & _).
  apply found_elem in H2 as (Hp2 & _).
  left. rewrite Hp1. rewrite Forall_forall in Hp. by apply Hp.
Qed.

Lemma seq_sorted a n : StronglySorted lt (seq a n).
Proof.
  revert a. induction n as [|n IH]; intros a; simpl; constructor; [apply IH|].
  apply Forall_forall. intros x Hx. apply elem_of_seq in Hx. lia.
Qed.


(** C9.  For a query that is not blank, a search scan completes exactly
    when every page 1..N delivers its text content.  A completed scan has
    visited the pages 1, 2, ..., N in this order; its result list holds
    exactly the text items whose lowercased text includes the lowercased
    query (with their page and their index among the page's items), sorted
    by (page, item index) ascending; the list does not depend on the
    previous results; and [currentMatchIndex] is 0 when the list is not
    empty, -1 when it is. *)
Theorem search_scan (doc : Doc) (q : str) (st : State) :
  Exists (λ c, isWhite c = false) q →
  let out := performSearch (Some doc) q st in
  (fst out = Normal tt ↔
     ∀ p, 1 ≤ p ≤ numPages doc → is_Some (pageItems doc p)) ∧
  (fst out = Normal tt →
     visited (snd out) = visited st ++ seq 1 (numPages doc) ∧
     (∀ m, m ∈ searchResults (snd out) ↔
           1 ≤ pageNum m ≤ numPages doc ∧
           ∃ items, pageItems doc (pageNum m) = Some items ∧
                    items !! itemIndex m = Some (TextItem (text m)) ∧
                    includes (toLowerCase q) (toLowerCase (text m)) = true) ∧
     StronglySorted before (searchResults (snd out)) ∧
     (∀ st0, searchResults (snd (performSearch (Some doc) q st0))
             = searchResults (snd out)) ∧
     currentMatchIndex (snd out)
     = (match searchResults (snd out) with [] => -1 | _ :: _ => 0 end)%Z ∧
     isSearching (snd out) = false).
Proof.
  intros Hq out.
  assert (∀ s, performSearch (Some doc) q s
               = call (setIsSearching true;;
                       try_finally
                         (results ← scan doc (toLowerCase q)
                                      (seq 1 (numPages doc)) [];
                          setSearchResults results;;
                          setCurrentMatchIndex
                            (if (0 <? length results)%nat
                             then 0%Z else (-1)%Z);;
                          match results with
                          | r :: _ => showPage (pageNum r)
                          | [] => mret tt
                          end)
                         (setIsSearching false)) s) as Hunf.
  { intros s. unfold performSearch. by rewrite (trim_nonblank q Hq). }
  assert (∀ p, p ∈ seq 1 (numPages doc) ↔ 1 ≤ p ≤ numPages doc) as Hseq.
  { intros p. rewrite elem_of_seq. lia. }
  assert (∀ s, (∀ p, 1 ≤ p ≤ numPages doc → is_Some (pageItems doc p)) →
               fst (performSearch (Some doc) q s) = Normal tt ∧
               searchResults (snd (performSearch (Some doc) q s))
               = found doc (toLowerCase q) (seq 1 (numPages doc)) ∧
               visited (snd (performSearch (Some doc) q s))
               = visited s ++ seq 1 (numPages doc) ∧
               currentMatchIndex (snd (performSearch (Some doc) q s))
               = (match found doc (toLowerCase q) (seq 1 (numPages doc))
                  with [] => -1 | _ :: _ => 0 end)%Z ∧
               isSearching (snd (performSearch (Some doc) q s)) = false)
    as Hok.
  { intros s Hall. rewrite Hunf.
    unfold call, try_finally, mbind, M_bind, setIsSearching, modify. simpl.
    rewrite scan_complete by (intros p Hp; apply Hall; by apply Hseq).
    simpl.
    destruct (found doc (toLowerCase q) (seq 1 (numPages doc)));
      simpl; done. }
  assert (fst out = Normal tt →
          ∀ p, 1 ≤ p ≤ numPages doc → is_Some (pageItems doc p)) as Hinv.
  { subst out. rewrite Hunf.
    unfold call, try_finally, mbind, M_bind, setIsSearching, modify. simpl.
    match goal with |- context [scan ?d ?qq ?ps ?rs ?s] =>
      pose proof (scan_normal d qq ps rs s) as Hn;
      pose proof (scan_no_return d qq ps rs s) as Hr;
      destruct (scan d qq ps rs s) as [[r|[|e]] s1]
    end; simpl in *.
    - intros _ p Hp. apply (Hn r eq_refl). by apply Hseq.
    - done.
    - done. }
  split.
  - split; [exact Hinv|]. intros Hall. by apply Hok.
  - intros Hn. specialize (Hinv Hn).
    destruct (Hok st Hinv) as (_ & Hres & Hvis & Hidx & Hbusy).
    fold out in Hres, Hvis, Hidx, Hbusy.
    split; [exact Hvis|]. split.
    { intros m. rewrite Hres, found_elem, Hseq. done. }
    split. { rewrite Hres. apply found_sorted, seq_sorted. }
    split. { intros st0. destruct (Hok st0 Hinv) as (_ & -> & _). by rewrite Hres. }
    split; [|exact Hbusy]. by rewrite Hidx, Hres.
Qed.

(** The query "cat" over the sample document. *)
Lemma search_scan_witness :
  Exists (λ c, isWhite c = false) (lit "cat") ∧
  visited (snd (performSearch (Some sampleDoc) (lit "cat") sampleState))
  = [1; 2] ∧
  StronglySorted before
    (searchResults (snd (performSearch (Some sampleDoc) (lit "cat")
                           sampleState))).
Proof.
  assert (Exists (λ c, isWhite c = false) (lit "cat")) as Hq.
  { left. reflexivity. }
  split; [exact Hq|].
  pose proof (search_scan sampleDoc (lit "cat") sampleState Hq) as H.
  cbv zeta in H. destruct H as [_ H].
  assert (fst (performSearch (Some sampleDoc) (lit "cat") sampleState)
          = Normal tt) as Hn by reflexivity.
  destruct (H Hn) as (Hv & _ & Hs & _).
  split; [exact Hv|exact Hs].
Defined.

Example search_sample :
  performSearch (Some sampleDoc) (lit "cat") sampleState
  = (Normal tt,
     {| searchResults :=
          [{| pageNum := 1; itemIndex := 0; text := lit "The Cat" |};
           {| pageNum := 2; itemIndex := 0; text := lit "concatenate" |}];
        currentMatchIndex := 0; isSearching := false; shown := Some 1;
        visited := [1; 2] |}).
Proof. vm_compute. reflexivity. Qed.

(** C10.  For a query that is empty or made of white space only,
    [performSearch] sets the results to the empty list and
    [currentMatchIndex] to -1 and returns: no page is visited, nothing else
    changes. *)
Theorem blank_query_clears (pdfDoc : option Doc) (q : str) (st : State) :
  Forall (λ c, isWhite c = true) q →
  performSearch pdfDoc q st
  = (Normal tt,
     {| searchResults := []; currentMatchIndex := -1;
        isSearching := isSearching st; shown := shown st;
        visited := visited st |}).
Proof.
  intros Hq. unfold performSearch. rewrite (trim_blank q Hq).
  by destruct pdfDoc.
Qed.

(** A query of a space and a tab clears the results of the sample state. *)
Lemma blank_query_clears_witness :
  Forall (λ c, isWhite c = true) [Latin1 " "; Latin1 (ascii_of_nat 9)] ∧
  performSearch (Some sampleDoc) [Latin1 " "; Latin1 (ascii_of_nat 9)] sampleState
  = (Normal tt,
     {| searchResults := []; currentMatchIndex := -1;
        isSearching := false; shown := None; visited := [] |}).
Proof.
  assert (Forall (λ c, isWhite c = true) [Latin1 " "; Latin1 (ascii_of_nat 9)]) as Hq.
  { repeat constructor. }
  split; [exact Hq|].
  exact (blank_query_clears (Some sampleDoc) _ sampleState Hq).
Defined.

End SearchFacts.

(* ===================================================================== *)
(** * Properties of the string primitives *)
(* ===================================================================== *)

Section JsFacts.
Import Js.

Lemma toLowerCase_cons c s :
  toLowerCase (c :: s) = lowerUnit c ++ toLowerCase s.
Proof. reflexivity. Qed.

Lemma lowerUnit_length c : 1 ≤ length (lowerUnit c).
Proof. destruct c; simpl; lia. Qed.

Lemma toLowerCase_nonempty s : s ≠ [] → toLowerCase s ≠ [].
Proof.
  destruct s as [|c s]; [done|]. intros _. rewrite toLowerCase_cons.
  by destruct c.
Qed.

Lemma toLowerCase_keeps s :
  keepsPositions s → toLowerCase s = lowerSame <$> s.
Proof.
  unfold keepsPositions. induction s as [|c s IH]; intros H; [done|].
  apply not_elem_of_cons in H as [Hc Hs].
  rewrite toLowerCase_cons, fmap_cons, IH by done. by destruct c.
Qed.

Lemma keepsPositions_take n s : keepsPositions s → keepsPositions (take n s).
Proof.
  unfold keepsPositions. intros H Hin. apply H.
  apply list_elem_of_lookup in Hin as [i Hi].
  apply lookup_take_Some in Hi as [Hi _]. by eapply list_elem_of_lookup_2.
Qed.

Lemma keepsPositions_drop n s : keepsPositions s → keepsPositions (drop n s).
Proof.
  unfold keepsPositions. intros H Hin. apply H.
  apply list_elem_of_lookup in Hin as [i Hi].
  rewrite lookup_drop in Hi. by eapply list_elem_of_lookup_2.
Qed.

Lemma length_toLowerCase s :
  keepsPositions s → length (toLowerCase s) = length s.
Proof. intros H. rewrite toLowerCase_keeps by done. apply length_fmap. Qed.

Lemma toLowerCase_take n s :
  keepsPositions s → toLowerCase (take n s) = take n (toLowerCase s).
Proof.
  intros H. rewrite !toLowerCase_keeps by auto using keepsPositions_take.
  by rewrite fmap_take.
Qed.

Lemma toLowerCase_drop n s :
  keepsPositions s → toLowerCase (drop n s) = drop n (toLowerCase s).
Proof.
  intros H. rewrite !toLowerCase_keeps by auto using keepsPositions_drop.
  by rewrite fmap_drop.
Qed.

Lemma startsWith_take p s : startsWith p s = true ↔ take (length p) s = p.
Proof.
  revert s. induction p as [|a p IH]; intros s; simpl.
  - by rewrite take_0.
  - destruct s as [|b s]; simpl; [split; discriminate|].
    case_bool_decide as Hab.
    + subst b. rewrite IH. split; [by intros ->|]. by intros [= ->].
    + split; [discriminate|]. intros [= -> _]. done.
Qed.

Lemma startsWith_length p s : startsWith p s = true → length p ≤ length s.
Proof.
  intros H. apply startsWith_take in H.
  rewrite <- H at 1. rewrite length_take. lia.
Qed.

Lemma find_Some needle hay k :
  find needle hay = Some k →
  startsWith needle (drop k hay) = true ∧
  ∀ i, i < k → startsWith needle (drop i hay) = false.
Proof.
  revert k. induction hay as [|c hay IH]; intros k; simpl.
  - destruct (startsWith needle []) eqn:E; [|done].
    intros [= <-]. split; [done|]. lia.
  - destruct (startsWith needle (c :: hay)) eqn:E.
    + intros [= <-]. split; [done|]. lia.
    + destruct (find needle hay) as [j|]; [|done]. simpl.
      intros [= <-]. destruct (IH j eq_refl) as [H1 H2].
      split; [done|]. intros [|i] Hi; [done|]. simpl. apply H2. lia.
Qed.

Lemma find_None needle hay :
  find needle hay = None → ∀ i, startsWith needle (drop i hay) = false.
Proof.
  induction hay as [|c hay IH]; simpl.
  - destruct (startsWith needle []) eqn:E; [done|].
    intros _ i. by rewrite drop_nil.
  - destruct (startsWith needle (c :: hay)) eqn:E; [done|].
    destruct (find needle hay) as [j|]; [done|]. intros _ [|i]; [done|].
    simpl. by apply IH.
Qed.

Lemma indexOf_Some needle hay from k :
  indexOf needle hay from = Some k →
  Nat.min from (length hay) ≤ k ∧
  startsWith needle (drop k hay) = true ∧
  ∀ i, Nat.min from (length hay) ≤ i < k →
       startsWith needle (drop i hay) = false.
Proof.
  unfold indexOf. set (a := Nat.min from (length hay)).
  destruct (find needle (drop a hay)) as [j|] eqn:E; [|done].
  simpl. intros [= <-]. apply find_Some in E as [H1 H2].
  rewrite drop_drop in H1. split; [lia|]. split; [done|].
  intros i Hi. specialize (H2 (i - a)). rewrite drop_drop in H2.
  replace (a + (i - a)) with i in H2 by lia. apply H2. lia.
Qed.

Lemma indexOf_None needle hay from :
  indexOf needle hay from = None →
  ∀ i, Nat.min from (length hay) ≤ i →
       startsWith needle (drop i hay) = false.
Proof.
  unfold indexOf. set (a := Nat.min from (length hay)).
  destruct (find needle (drop a hay)) as [j|] eqn:E; [done|].
  intros _ i Hi. pose proof (find_None _ _ E (i - a)) as H.
  rewrite drop_drop in H. by replace (a + (i - a)) with i in H by lia.
Qed.

Lemma includes_indexOf needle hay :
  includes needle hay = true ↔ ∃ k, indexOf needle hay 0 = Some k.
Proof.
  unfold includes. destruct (indexOf needle hay 0); split; eauto.
  - done.
  - intros [k Hk]. discriminate.
Qed.

End JsFacts.

(* ===================================================================== *)
(** * Properties of the text layer *)
(* ===================================================================== *)

Section TextLayerFacts.
Import Js TextLayer.
Context {num : Type} (add mul : num → num → num) (ofNat : nat → num).

Local Abbreviation anchorX := (anchorX add mul ofNat).
Local Abbreviation anchorY := (anchorY add mul ofNat).
Local Abbreviation spanAt := (spanAt add mul ofNat).
Local Abbreviation splitLoop := (splitLoop add mul ofNat).
Local Abbreviation splitItem := (splitItem add mul ofNat).
Local Abbreviation itemSpans := (itemSpans add mul ofNat).
Local Abbreviation runsFrom := (runsFrom add mul ofNat).
Local Abbreviation loopInv := (loopInv add mul ofNat).
Local Abbreviation chars := (@chars num).
Local Abbreviation charsBefore := (@charsBefore num).

Lemma chars_app l1 l2 : chars (l1 ++ l2) = chars l1 + chars l2.
Proof. unfold chars. by rewrite fmap_app, concat_app, length_app. Qed.

Lemma chars_cons x l : chars (x :: l) = length (content x) + chars l.
Proof. unfold chars. rewrite fmap_cons. simpl. by rewrite length_app. Qed.

(** Appending a highlighted run. *)
Lemma runsFrom_snoc_highlight g lt lq o l s :
  runsFrom g lt lq o l →
  highlight s = true →
  left s = anchorX g (o + chars l) →
  top s = anchorY g (o + chars l) →
  length (content s) = length lq →
  startsWith lq (drop (o + chars l) lt) = true →
  runsFrom g lt lq o (l ++ [s]).
Proof.
  revert o. induction l as [|x l IH]; intros o Hl Hh Hx Hy Hlen Hst.
  - unfold chars in *. simpl in *. rewrite Nat.add_0_r in *.
    rewrite Hh. done.
  - simpl in Hl. destruct Hl as (Hxl & Hxt & Hkind & Hrest).
    assert (o + chars (x :: l) = o + length (content x) + chars l) as Ho.
    { rewrite chars_cons. lia. }
    rewrite Ho in *.
    simpl. split; [done|]. split; [done|]. split.
    + destruct (highlight x); [done|].
      destruct Hkind as (Hne & Hno & Hnext). split; [done|]. split; [done|].
      destruct l; simpl; done.
    + by apply IH.
Qed.

(** Appending a plain run after a highlighted one, or first. *)
Lemma runsFrom_snoc_plain g lt lq o l s :
  runsFrom g lt lq o l →
  match last l with Some x => highlight x = true | None => True end →
  highlight s = false →
  left s = anchorX g (o + chars l) →
  top s = anchorY g (o + chars l) →
  content s ≠ [] →
  (∀ i, o + chars l ≤ i < o + chars l + length (content s) →
        startsWith lq (drop i lt) = false) →
  runsFrom g lt lq o (l ++ [s]).
Proof.
  revert o. induction l as [|x l IH]; intros o Hl Hlast Hh Hx Hy Hne Hno.
  - unfold chars in *. simpl in *. rewrite Nat.add_0_r in *.
    rewrite Hh. done.
  - simpl in Hl. destruct Hl as (Hxl & Hxt & Hkind & Hrest).
    assert (o + chars (x :: l) = o + length (content x) + chars l) as Ho.
    { rewrite chars_cons. lia. }
    rewrite Ho in *.
    simpl. split; [done|]. split; [done|]. split.
    + destruct (highlight x) eqn:Ehx; [done|].
      destruct Hkind as (Hnex & Hnox & Hnext). split; [done|]. split; [done|].
      destruct l as [|y l]; simpl; [|done].
      simpl in Hlast. congruence.
    + apply IH; try done. destruct l as [|y l]; [done|]. exact Hlast.
Qed.

Lemma take_take_drop_app (l : str) a b :
  take a l ++ take b (drop a l) = take (a + b) l.
Proof.
  revert l. induction a as [|a IH]; intros l; simpl; [done|].
  destruct l as [|x l]; simpl; [by rewrite take_nil|]. by rewrite IH.
Qed.

Lemma splitLoop_spec g text lq qlen fuel st :
  keepsPositions text →
  qlen = length lq → 0 < qlen →
  loopInv g text lq st →
  length text - lastIndex st < fuel →
  ∃ st', splitLoop fuel g text (toLowerCase text) lq qlen st = Some st' ∧
         loopInv g text lq st' ∧
         indexOf lq (toLowerCase text) (lastIndex st') = None.
Proof.
  intros Hkeep Hq Hpos. revert st.
  induction fuel as [|fuel IH]; intros st Hinv Hfuel; [lia|].
  simpl.
  destruct (indexOf lq (toLowerCase text) (lastIndex st)) as [m|] eqn:Ei.
  2:{ exists st. repeat split; try done; apply Hinv. }
  destruct Hinv as (Hle & Hoff & Hcat & Hruns & Hlast).
  apply indexOf_Some in Ei as (Hm & Hst & Hno).
  rewrite length_toLowerCase in Hm, Hno by done.
  rewrite Nat.min_l in Hm, Hno by done.
  pose proof (startsWith_length _ _ Hst) as Hlen.
  rewrite length_drop, length_toLowerCase in Hlen by done.
  assert (chars (spans st) = lastIndex st) as Hchars.
  { unfold chars. rewrite Hcat, length_take. lia. }
  set (st1 := if lastIndex st <? m
              then {| lastIndex := lastIndex st;
                      offset := offset st
                                + length (slice (lastIndex st) m text);
                      spans := spans st
                               ++ [spanAt g (slice (lastIndex st) m text)
                                     (offset st) false] |}
              else st).
  assert (offset st1 = m ∧
          concat (content <$> spans st1) = take m text ∧
          runsFrom g (toLowerCase text) lq 0 (spans st1)) as (Ho1 & Hc1 & Hr1).
  { subst st1. destruct (Nat.ltb_spec (lastIndex st) m) as [Hlt|Hge]; simpl.
    - assert (length (slice (lastIndex st) m text) = m - lastIndex st) as Hsl.
      { unfold slice. rewrite length_take, length_drop. lia. }
      split; [lia|]. split.
      + rewrite fmap_app, concat_app, Hcat. simpl. rewrite app_nil_r.
        unfold slice. rewrite take_take_drop_app. f_equal. lia.
      + apply runsFrom_snoc_plain; simpl; try done.
        * by destruct (last (spans st)).
        * by rewrite Hchars, Hoff.
        * by rewrite Hchars, Hoff.
        * intros Hnil. rewrite Hnil in Hsl. simpl in Hsl. lia.
        * intros i Hi. rewrite Hchars, Hsl in Hi. apply Hno. lia.
    - assert (m = lastIndex st) as -> by lia. done. }
  assert (length (slice m (m + qlen) text) = qlen) as Hml.
  { unfold slice. rewrite length_take, length_drop. lia. }
  assert (chars (spans st1) = m) as Hchars1.
  { unfold chars. rewrite Hc1, length_take. lia. }
  match goal with |- context [splitLoop fuel g text _ lq qlen ?s2] =>
    destruct (IH s2) as (st' & Hrun & Hinv' & Hnone)
  end.
  - unfold loopInv. simpl. split; [lia|]. split; [lia|]. split; [|split].
    + rewrite fmap_app, concat_app, Hc1. simpl. rewrite app_nil_r.
      unfold slice. replace (m + qlen - m) with qlen by lia.
      apply take_take_drop_app.
    + apply runsFrom_snoc_highlight; simpl; try done.
      * by rewrite Hchars1, Ho1.
      * by rewrite Hchars1, Ho1.
      * lia.
      * by rewrite Hchars1.
    + by rewrite last_snoc.
  - simpl. lia.
  - by exists st'.
Qed.

(** The loop ends on every text: each round moves [lastIndex] forward
    inside the lowercased text. *)
Lemma splitLoop_total g text lt lq qlen fuel st :
  lq ≠ [] → 0 < qlen →
  length lt - lastIndex st < fuel →
  is_Some (splitLoop fuel g text lt lq qlen st).
Proof.
  intros Hlq Hq. revert st.
  induction fuel as [|fuel IH]; intros st Hfuel; [lia|].
  simpl. destruct (indexOf lq lt (lastIndex st)) as [m|] eqn:Ei; [|by eexists].
  apply indexOf_Some in Ei as (Hm & Hst & _).
  pose proof (startsWith_length _ _ Hst) as Hlen.
  rewrite length_drop in Hlen.
  assert (0 < length lq) by (destruct lq; simpl; [done|lia]).
  apply IH. simpl. lia.
Qed.

Lemma itemSpans_total g query text : is_Some (itemSpans g query text).
Proof.
  unfold TextLayer.itemSpans.
  destruct (truthy (toLowerCase query)) eqn:Et; [|by eexists].
  destruct (includes _ _); [|by eexists]. cbn [andb].
  unfold TextLayer.splitItem.
  destruct (splitLoop_total g text (toLowerCase text) (toLowerCase query)
              (length query) (S (length (toLowerCase text)))
              {| lastIndex := 0; offset := 0; spans := [] |}) as [st Hst].
  - by destruct (toLowerCase query).
  - destruct query; [done|simpl; lia].
  - simpl. lia.
  - rewrite Hst. by eexists.
Qed.

Lemma renderTextLayer_total query items :
  is_Some (TextLayer.renderTextLayer add mul ofNat query items).
Proof.
  induction items as [|[[text g]|] items [r IH]]; simpl.
  - by eexists.
  - destruct (truthy text); [|by eexists].
    destruct (itemSpans_total g query text) as [l Hl].
    rewrite Hl, IH. by eexists.
  - by eexists.
Qed.

(** What a well-laid list of runs says of its [k]-th run. *)
Lemma runsFrom_lookup g lt lq o l k s :
  runsFrom g lt lq o l → l !! k = Some s →
  let ok := o + chars (take k l) in
  left s = anchorX g ok ∧ top s = anchorY g ok ∧
  (highlight s = true →
     length (content s) = length lq ∧ startsWith lq (drop ok lt) = true) ∧
  (highlight s = false →
     content s ≠ [] ∧
     (∀ i, ok ≤ i < ok + length (content s) →
           startsWith lq (drop i lt) = false) ∧
     ∀ s', l !! S k = Some s' → highlight s' = true).
Proof.
  revert o k. induction l as [|x l IH]; intros o k Hr Hk; [done|].
  simpl in Hr. destruct Hr as (Hx & Hy & Hkind & Hrest).
  destruct k as [|k]; simpl in Hk.
  - injection Hk as ->. simpl. unfold chars. simpl. rewrite Nat.add_0_r.
    split; [done|]. split; [done|].
    destruct (highlight s); (split; [done|]); [done|].
    intros _. destruct Hkind as (Hne & Hno & Hnext).
    split; [done|]. split; [done|].
    intros s' Hs'. destruct l as [|y l]; [done|].
    simpl in Hs'. by injection Hs' as <-.
  - specialize (IH _ _ Hrest Hk). simpl in IH. simpl.
    rewrite chars_cons.
    by replace (o + (length (content x) + chars (take k l)))
      with (o + length (content x) + chars (take k l)) by lia.
Qed.

Lemma concat_lookup (l : list (@Span num)) k s :
  l !! k = Some s →
  take (length (content s)) (drop (chars (take k l)) (concat (content <$> l)))
  = content s.
Proof.
  revert k. induction l as [|x l IH]; intros k Hk; [done|].
  destruct k as [|k]; simpl in Hk.
  - injection Hk as ->. unfold chars. simpl.
    by rewrite drop_0, take_app_length.
  - rewrite fmap_cons. simpl take. rewrite chars_cons. simpl concat.
    rewrite drop_app_add' by done. by apply IH.
Qed.

(** What holds of the runs of an item when lowercasing keeps every
    position of the text and of the query (neither holds U+0130), the
    query is not empty and the lowercased text includes the lowercased
    query.  The runs concatenate back to the item's text; the [k]-th run
    is the slice of the text that starts after the characters of the runs
    before it, and is anchored at the base anchor advanced by that
    character count times the character width times (cos, sin); a
    highlighted run is an occurrence of the query (case-insensitively); a
    plain run is not empty, holds the start of no occurrence (so each
    highlighted run is the leftmost occurrence after the run before it)
    and is followed by a highlighted run; at least one run is
    highlighted. *)
Lemma split_runs (g : Geometry) (query text : str) :
  keepsPositions query → keepsPositions text →
  query ≠ [] →
  includes (toLowerCase query) (toLowerCase text) = true →
  ∃ runs,
    itemSpans g query text = Some runs ∧
    concat (content <$> runs) = text ∧
    (∃ s, s ∈ runs ∧ highlight s = true) ∧
    ∀ k s, runs !! k = Some s →
      let o := charsBefore k runs in
      left s = add (baseLeft g) (mul (mul (ofNat o) (charWidth g)) (cosAngle g)) ∧
      top s = add (baseTop g) (mul (mul (ofNat o) (charWidth g)) (sinAngle g)) ∧
      content s = slice o (o + length (content s)) text ∧
      (highlight s = true → toLowerCase (content s) = toLowerCase query) ∧
      (highlight s = false →
         content s ≠ [] ∧
         (∀ i, o ≤ i < o + length (content s) →
               startsWith (toLowerCase query) (drop i (toLowerCase text))
               = false) ∧
         ∀ s', runs !! S k = Some s' → highlight s' = true).
Proof.
  intros Hkq Hkt Hq Hinc.
  assert (0 < length query) as Hqpos by (destruct query; simpl; [done|lia]).
  assert (truthy (toLowerCase query) = true) as Htruthy.
  { pose proof (toLowerCase_nonempty query Hq). by destruct (toLowerCase query). }
  pose proof (length_toLowerCase query Hkq) as Hql. symmetry in Hql.
  pose proof (length_toLowerCase text Hkt) as Htl.
  remember (toLowerCase query) as lq eqn:Elq.
  remember (toLowerCase text) as lt eqn:Elt.
  destruct (splitLoop_spec g text lq (length query) (S (length text))
              {| lastIndex := 0; offset := 0; spans := [] |})
    as (st & Hrun & Hinv & Hnone); try done.
  { unfold loopInv. simpl. repeat split; try done. lia. }
  { simpl. lia. }
  unfold loopInv in Hinv. rewrite <- Elt in Hrun, Hinv, Hnone.
  destruct Hinv as (Hle & Hoff & Hcat & Hruns & Hlast).
  assert (chars (spans st) = lastIndex st) as Hchars.
  { unfold chars. rewrite Hcat, length_take. lia. }
  set (runs := if lastIndex st <? length text
               then spans st ++ [spanAt g (sliceFrom (lastIndex st) text)
                                   (offset st) false]
               else spans st).
  assert (itemSpans g query text = Some runs) as Hitem.
  { unfold TextLayer.itemSpans. rewrite <- Elq, <- Elt, Htruthy, Hinc.
    cbn [andb]. unfold TextLayer.splitItem.
    by rewrite <- Elq, <- Elt, Htl, Hrun. }
  assert (∃ x, last (spans st) = Some x ∧ highlight x = true) as (x & Hx & Hhx).
  { destruct (last (spans st)) as [x|] eqn:El; [by eauto|].
    apply includes_indexOf in Hinc as [k Hk]. rewrite Hlast in Hnone.
    congruence. }
  assert (concat (content <$> runs) = text ∧
          runsFrom g lt lq 0 runs) as [Hcat' Hruns'].
  { subst runs. destruct (Nat.ltb_spec (lastIndex st) (length text)).
    - split.
      + rewrite fmap_app, concat_app, Hcat. simpl. rewrite app_nil_r.
        apply take_drop.
      + apply runsFrom_snoc_plain; simpl; try done.
        * by rewrite Hx.
        * by rewrite Hchars, Hoff.
        * by rewrite Hchars, Hoff.
        * unfold sliceFrom. intros Hnil.
          apply (f_equal length) in Hnil. rewrite length_drop in Hnil.
          simpl in Hnil. lia.
        * intros i Hi. rewrite Hchars in Hi.
          apply (indexOf_None _ _ _ Hnone). lia.
    - split; [|done]. rewrite Hcat. apply take_ge. lia. }
  exists runs. split; [exact Hitem|]. split; [exact Hcat'|]. split.
  { exists x. split; [|done]. subst runs.
    apply last_Some in Hx as [l' Hl'].
    destruct (lastIndex st <? length text); rewrite Hl';
      rewrite ?elem_of_app, list_elem_of_singleton; auto. }
  intros k s Hk o.
  assert (o = chars (take k runs)) as Ho by reflexivity.
  clearbody o. subst o.
  pose proof (runsFrom_lookup g lt lq 0 runs k s Hruns' Hk) as Hlk.
  simpl in Hlk. destruct Hlk as (Hl & Ht & Hhl & Hpl).
  pose proof (concat_lookup runs k s Hk) as Hc. rewrite Hcat' in Hc.
  assert (content s
          = slice (chars (take k runs))
              (chars (take k runs) + length (content s)) text) as Hslice.
  { unfold slice.
    replace (chars (take k runs) + length (content s) - chars (take k runs))
      with (length (content s)) by lia.
    by rewrite Hc. }
  split; [exact Hl|]. split; [exact Ht|]. split; [exact Hslice|].
  split; [|exact Hpl].
  intros Hh. destruct (Hhl Hh) as [Hlen Hst].
  apply startsWith_take in Hst.
  rewrite <- Hc, toLowerCase_take, toLowerCase_drop, <- Elt
    by auto using keepsPositions_drop.
  by rewrite Hlen.
Qed.

End TextLayerFacts.

(** "cat" in "Concatenate, CAT": the hypotheses of [split_runs] hold, and
    the runs concatenate back. *)
Lemma split_runs_mixed_case :
  ∃ runs,
    TextLayer.itemSpans Z.add Z.mul Z.of_nat TextLayer.sampleGeometry
      (Js.lit "cat") (Js.lit "Concatenate, CAT") = Some runs ∧
    concat (TextLayer.content <$> runs) = Js.lit "Concatenate, CAT".
Proof.
  destruct (split_runs Z.add Z.mul Z.of_nat TextLayer.sampleGeometry
              (Js.lit "cat") (Js.lit "Concatenate, CAT"))
    as (runs & H1 & H2 & _).
  - unfold Js.keepsPositions. apply (bool_decide_unpack _). vm_compute. exact I.
  - unfold Js.keepsPositions. apply (bool_decide_unpack _). vm_compute. exact I.
  - discriminate.
  - vm_compute. reflexivity.
  - exists runs. split; [exact H1|exact H2].
Qed.

(** Query "cat" against "concatenate" gives "con", "cat" (highlighted),
    "enate" at the character offsets 0, 3 and 6: along the x axis ... *)
Example text_item_split_cat :
  TextLayer.itemSpans Z.add Z.mul Z.of_nat TextLayer.sampleGeometry
    (Js.lit "cat") (Js.lit "concatenate")
  = Some [ {| TextLayer.content := Js.lit "con";
              TextLayer.left := 100; TextLayer.top := 200;
              TextLayer.highlight := false |};
           {| TextLayer.content := Js.lit "cat";
              TextLayer.left := 121; TextLayer.top := 200;
              TextLayer.highlight := true |};
           {| TextLayer.content := Js.lit "enate";
              TextLayer.left := 142; TextLayer.top := 200;
              TextLayer.highlight := false |} ]%Z.
Proof. vm_compute. reflexivity. Qed.

(** ... and along the y axis when the item is turned by a quarter. *)
Example text_item_split_quarter_turn :
  TextLayer.itemSpans Z.add Z.mul Z.of_nat TextLayer.quarterTurn
    (Js.lit "cat") (Js.lit "concatenate")
  = Some [ {| TextLayer.content := Js.lit "con";
              TextLayer.left := 100; TextLayer.top := 200;
              TextLayer.highlight := false |};
           {| TextLayer.content := Js.lit "cat";
              TextLayer.left := 100; TextLayer.top := 221;
              TextLayer.highlight := true |};
           {| TextLayer.content := Js.lit "enate";
              TextLayer.left := 100; TextLayer.top := 242;
              TextLayer.highlight := false |} ]%Z.
Proof. vm_compute. reflexivity. Qed.

Example text_item_split_mixed_case :
  TextLayer.itemSpans Z.add Z.mul Z.of_nat TextLayer.sampleGeometry
    (Js.lit "cat") (Js.lit "Concatenate, CAT")
  = Some [ {| TextLayer.content := Js.lit "Con";
              TextLayer.left := 100; TextLayer.top := 200;
              TextLayer.highlight := false |};
           {| TextLayer.content := Js.lit "cat";
              TextLayer.left := 121; TextLayer.top := 200;
              TextLayer.highlight := true |};
           {| TextLayer.content := Js.lit "enate, ";
              TextLayer.left := 142; TextLayer.top := 200;
              TextLayer.highlight := false |};
           {| TextLayer.content := Js.lit "CAT";
              TextLayer.left := 191; TextLayer.top := 200;
              TextLayer.highlight := true |} ]%Z.
Proof. vm_compute. reflexivity. Qed.

(** C8 at an input where the code departs from it.  The loop finds the
    matches in the lowercased text and cuts the original text at the
    positions found.  U+0130 lowercases to two code units, so behind it
    every position of the lowercased text is one further than in the text.
    For the text U+0130, space, "cat" and the query "cat", the match is
    found at position 3 of the lowercased text, while "cat" sits at
    position 2 of the text: the runs are U+0130, space, "c" (plain) and
    "at" (highlighted).  The highlighted run is not an occurrence of the
    query, and the first letter of the occurrence is in a plain run.  The
    runs still concatenate to the text. *)
Theorem text_item_split_behind_capital_i_dot :
  Js.toLowerCase TextLayer.dottedCat
  = Js.Latin1 "i" :: Js.CombiningDot :: Js.lit " cat" ∧
  Js.indexOf (Js.lit "cat") (Js.toLowerCase TextLayer.dottedCat) 0 = Some 3 ∧
  Js.slice 2 5 TextLayer.dottedCat = Js.lit "cat" ∧
  TextLayer.itemSpans Z.add Z.mul Z.of_nat TextLayer.sampleGeometry
    (Js.lit "cat") TextLayer.dottedCat
  = Some [ {| TextLayer.content := Js.CapitalIDot :: Js.lit " c";
              TextLayer.left := 100; TextLayer.top := 200;
              TextLayer.highlight := false |};
           {| TextLayer.content := Js.lit "at";
              TextLayer.left := 121; TextLayer.top := 200;
              TextLayer.highlight := true |} ]%Z ∧
  Js.toLowerCase (Js.lit "at") ≠ Js.toLowerCase (Js.lit "cat").
Proof.
  split; [vm_compute; reflexivity|].
  split; [vm_compute; reflexivity|].
  split; [vm_compute; reflexivity|].
  split; [vm_compute; reflexivity|].
  vm_compute. discriminate.
Qed.

(* ===================================================================== *)
(** * Properties of the thumbnail pipeline *)
(* ===================================================================== *)

Section ThumbsFacts.
Import Eff Thumbs.

Ltac meet_thumb :=
  match goal with
  | |- context [match ?o with Returns _ => _ | Throws _ => _ end] =>
      is_var o; destruct o
  | |- context [if ?b then _ else _] => is_var b; destruct b
  | |- context [Analyzer.isHeavy ?c] =>
      is_var c; destruct (Analyzer.isHeavy c) eqn:?
  end.

Ltac run_iteration :=
  unfold iteration, append, call, try_catch, when, await, throw, return_,
    modify, mbind, M_bind, mret, M_ret;
  cbn;
  repeat (meet_thumb; cbn).

(** A cancelled generator leaves the list alone. *)
Lemma iteration_cancelled env p b l :
  snd (iteration env p b true l) = l.
Proof.
  destruct env as [gp an pt oc re cv]. run_iteration; reflexivity.
Qed.

(** With a context at hand, an iteration of a live generator appends
    exactly one entry, for its page, or throws and appends nothing. *)
Lemma iteration_live env p b l :
  offscreenContext env = true →
  (∃ t, pageOf t = p ∧ iteration env p b false l = (Normal tt, l ++ [t]))
  ∨ (∃ e, iteration env p b false l = (Abrupt (Throw e), l)).
Proof.
  destruct env as [gp an pt oc re cv]. simpl. intros ->.
  run_iteration;
    first [ left; eexists; split; [|reflexivity]; reflexivity
          | right; eexists; reflexivity ].
Qed.

Lemma cancel_all_lookup (gens : list Generator) i g :
  (cancel <$> gens) !! i = Some g → cancelled g = true.
Proof.
  rewrite list_lookup_fmap. destruct (gens !! i); simpl; [|done].
  by intros [= <-].
Qed.

Lemma runEffect_inv s : prefixOfPages s → inv (runEffect s).
Proof.
  intros Hp. unfold runEffect.
  assert (∀ s', thumbnails s' = thumbnails s → pdfDoc s' = pdfDoc s →
                prefixOfPages s') as Hpre.
  { intros s' Ht Hd. unfold prefixOfPages. rewrite Ht, Hd. exact Hp. }
  assert (∀ s', generators s' = cancel <$> generators s → generatorsOk s')
    as Hall.
  { intros s' Hg. unfold generatorsOk. rewrite Hg. split.
    - intros i g Hi Hc. apply cancel_all_lookup in Hi. congruence.
    - intros i j g g' Hi _ Hc. apply cancel_all_lookup in Hi. congruence. }
  destruct (pdfDoc s) as [n|] eqn:Ed; [|split; [by apply Hpre|by apply Hall]].
  destruct (showThumbnails s && negb (length (thumbnails s) =? n)) eqn:Eb;
    [|split; [by apply Hpre|by apply Hall]].
  split; [by apply Hpre|].
  unfold generatorsOk. simpl. split.
  - intros i g Hi Hc _.
    apply lookup_app_Some in Hi as [Hi|[_ Hi]].
    { apply cancel_all_lookup in Hi. congruence. }
    apply list_lookup_singleton_Some in Hi as [_ <-]. simpl.
    split; [done|]. split; [done|]. done.
  - intros i j g g' Hi Hj Hc Hc'.
    apply lookup_app_Some in Hi as [Hi|[Hli Hi]].
    { apply cancel_all_lookup in Hi. congruence. }
    apply lookup_app_Some in Hj as [Hj|[Hlj Hj]].
    { apply cancel_all_lookup in Hj. congruence. }
    apply list_lookup_singleton_Some in Hi as [Hi _].
    apply list_lookup_singleton_Some in Hj as [Hj _]. lia.
Qed.

(** Replacing the generator at [i] by one that is no more demanding. *)
Lemma generatorsOk_update s s' i g g' :
  generatorsOk s →
  generators s !! i = Some g →
  generators s' = <[i := g']> (generators s) →
  thumbnails s' = thumbnails s → pdfDoc s' = pdfDoc s →
  cancelled g' = cancelled g →
  (cancelled g = false → phase g' ≠ Finished →
     pdfDoc s = Some (numPages g') ∧
     pageNum g' = length (thumbnails s) + 1 ∧
     (phase g' = InBody → pageNum g' ≤ numPages g')) →
  generatorsOk s'.
Proof.
  intros [H1 H2] Hi Hg Ht Hd Hc Hnew. unfold generatorsOk.
  rewrite Hg, Ht, Hd.
  assert (i < length (generators s)) as Hlen by (by eapply lookup_lt_Some).
  split.
  - intros j x Hj Hcx Hph.
    destruct (decide (j = i)) as [->|Hne].
    + rewrite list_lookup_insert_eq in Hj by done. injection Hj as <-.
      apply Hnew; congruence.
    + rewrite list_lookup_insert_ne in Hj by done. by apply (H1 j).
  - intros j k x y Hj Hk Hcx Hcy.
    destruct (decide (j = i)) as [->|Hnj];
      destruct (decide (k = i)) as [->|Hnk]; try done.
    + rewrite list_lookup_insert_eq in Hj by done. injection Hj as <-.
      rewrite list_lookup_insert_ne in Hk by done.
      symmetry. apply (H2 k i y g); congruence.
    + rewrite list_lookup_insert_eq in Hk by done. injection Hk as <-.
      rewrite list_lookup_insert_ne in Hj by done.
      apply (H2 j i x g); congruence.
    + rewrite list_lookup_insert_ne in Hj, Hk by done. by apply (H2 j k x y).
Qed.

Lemma step_inv a s : hasContext a → inv s → inv (step a s).
Proof.
  intros Ha [Hp Hg]. destruct a as [|i|i env| |n]; simpl.
  - by apply runEffect_inv.
  - (* Head *)
    destruct (generators s !! i) as [g|] eqn:Hi; [|done].
    destruct (phase g) eqn:Hph; try done.
    destruct (pageNum g <=? numPages g) eqn:Hle; simpl.
    2:{ split; [exact Hp|].
        eapply (generatorsOk_update s _ i g); try done; simpl; done. }
    destruct (cancelled g) eqn:Hc.
    { split; [exact Hp|].
      eapply (generatorsOk_update s _ i g); try done; simpl; done. }
    split; [exact Hp|].
    eapply (generatorsOk_update s _ i g); try done; simpl; try done.
    intros _ _. destruct Hg as [H1 _].
    destruct (H1 i g Hi Hc) as (Hd & Hn & _); [congruence|].
    split; [done|]. split; [done|]. intros _. by apply Nat.leb_le.
  - (* Body *)
    destruct (generators s !! i) as [g|] eqn:Hi; [|done].
    destruct (phase g) eqn:Hph; try done.
    destruct (cancelled g) eqn:Hc.
    + (* a cancelled generator: the list is as it was *)
      pose proof (iteration_cancelled env (pageNum g) (pdfDataForPdfium g)
                    (thumbnails s)) as Hl.
      destruct (iteration env (pageNum g) (pdfDataForPdfium g) true
                  (thumbnails s)) as [r l].
      simpl in Hl. subst l.
      destruct r as [[]|c]; (split; [exact Hp|]);
        eapply (generatorsOk_update s _ i g); try done; simpl; try done;
        rewrite ?Hc; done.
    + destruct Hg as [H1 H2].
      destruct (H1 i g Hi Hc) as (Hd & Hn & Hb); [congruence|].
      specialize (Hb Hph).
      destruct (iteration_live env (pageNum g) (pdfDataForPdfium g)
                  (thumbnails s) Ha) as [(t & Ht & ->)|(e & ->)].
      * (* one entry appended, for the first page without one *)
        split.
        -- destruct Hp as [Hp1 Hp2]. split; simpl.
           ++ intros j x Hj.
              apply lookup_app_Some in Hj as [Hj|[Hlj Hj]]; [by apply Hp1|].
              apply list_lookup_singleton_Some in Hj as [Hj <-]. lia.
           ++ intros n Hn'. rewrite length_app. simpl.
              rewrite Hd in Hn'. injection Hn' as <-. lia.
        -- unfold generatorsOk. simpl.
           assert (i < length (generators s)) as Hlen
               by (by eapply lookup_lt_Some).
           split.
           ++ intros j x Hj Hcx Hphx.
              destruct (decide (j = i)) as [->|Hne].
              ** rewrite list_lookup_insert_eq in Hj by done.
                 injection Hj as <-. simpl.
                 split; [done|]. rewrite length_app. simpl.
                 split; [lia|]. done.
              ** rewrite list_lookup_insert_ne in Hj by done.
                 exfalso. apply Hne. by apply (H2 j i x g).
           ++ intros j k x y Hj Hk Hcx Hcy.
              destruct (decide (j = i)) as [->|Hnj];
                destruct (decide (k = i)) as [->|Hnk]; try done.
              ** rewrite list_lookup_insert_ne in Hk by done.
                 symmetry. by apply (H2 k i y g).
              ** rewrite list_lookup_insert_ne in Hj by done.
                 by apply (H2 j i x g).
              ** rewrite list_lookup_insert_ne in Hj, Hk by done.
                 by apply (H2 j k x y).
      * (* the iteration threw: nothing appended, the generator ends *)
        split; [exact Hp|].
        eapply (generatorsOk_update s _ i g); try done; simpl; done.
  - apply runEffect_inv. exact Hp.
  - apply runEffect_inv. split; simpl.
    + intros i t Hi. done.
    + intros m _. lia.
Qed.

Lemma run_inv l s : Forall hasContext l → inv s → inv (run l s).
Proof.
  revert s. induction l as [|a l IH]; intros s Hl Hs; [done|].
  inversion Hl; subst. simpl. apply IH; [done|]. by apply step_inv.
Qed.

Lemma initial_inv : inv initial.
Proof.
  split; [split|split]; simpl.
  - intros i t Hi. done.
  - intros n Hn. done.
  - intros i g Hi. done.
  - intros i j g g' Hi. done.
Qed.

(** Whatever an iteration meets, it only appends. *)
Lemma iteration_appends env p b c l :
  ∃ suffix, snd (iteration env p b c l) = l ++ suffix.
Proof.
  destruct env as [gp an pt oc re cv]. destruct c.
  all: run_iteration;
    first [ by eexists | exists []; by rewrite app_nil_r ].
Qed.

(** Only the loading of a document removes or changes an entry: every
    other event leaves the entries in place and at most appends. *)
Lemma step_appends a s :
  (∀ n, a ≠ LoadDocument n) →
  ∃ suffix, thumbnails (step a s) = thumbnails s ++ suffix.
Proof.
  assert (∀ s, thumbnails (runEffect s) = thumbnails s) as Hrun.
  { intros s0. unfold runEffect. destruct (pdfDoc s0); [|done].
    by destruct (showThumbnails s0 && _). }
  intros Ha. destruct a as [|i|i env| |n]; simpl.
  - exists []. by rewrite Hrun, app_nil_r.
  - exists []. rewrite app_nil_r.
    destruct (generators s !! i) as [g|]; [|done].
    destruct (phase g); try done.
    destruct (negb (pageNum g <=? numPages g)); [done|].
    by destruct (cancelled g).
  - destruct (generators s !! i) as [g|];
      [|exists []; by rewrite app_nil_r].
    destruct (phase g); try (exists []; by rewrite app_nil_r).
    destruct (iteration_appends env (pageNum g) (pdfDataForPdfium g)
                (cancelled g) (thumbnails s)) as [suffix Hs].
    destruct (iteration env (pageNum g) (pdfDataForPdfium g) (cancelled g)
                (thumbnails s)) as [r l].
    simpl in Hs. subst l. exists suffix. by destruct r.
  - exists []. by rewrite Hrun, app_nil_r.
  - by destruct (Ha n).
Qed.

(** As long as every iteration obtains its 2D context, the list is a
    gap-free prefix of the pages after any sequence of events. *)
Lemma thumbnails_prefix l :
  Forall hasContext l → prefixOfPages (run l initial).
Proof. intros Hl. apply (run_inv l initial Hl initial_inv). Qed.

(** C4 at the input where the code departs from it.  In a two-page
    document whose first page is light and gets no 2D context
    ([getContext] returns [null]) while the second page gets one, the
    generator adds no entry for page 1 and goes on: the list then holds one
    entry, made from page 2, at index 0.  The effect, re-run for the new
    length, resumes at page 2 and makes a second entry from it: the list
    ends with as many entries as pages, none of them of page 1. *)
Theorem thumbnail_gap_without_context :
  thumbnails
    (run [LoadDocument 2; Head 0; Body 0 lightPageWithoutContext;
          Head 0; Body 0 lightPage] initial)
  = [DataUrl 2 false] ∧
  thumbnails
    (run [LoadDocument 2; Head 0; Body 0 lightPageWithoutContext;
          Head 0; Body 0 lightPage;
          RunEffect; Head 1; Body 1 lightPage; RunEffect; Head 1] initial)
  = [DataUrl 2 false; DataUrl 2 false] ∧
  ¬ prefixOfPages
      (run [LoadDocument 2; Head 0; Body 0 lightPageWithoutContext;
            Head 0; Body 0 lightPage] initial).
Proof.
  split; [vm_compute; reflexivity|]. split; [vm_compute; reflexivity|].
  intros [H _]. specialize (H 0 (DataUrl 2 false)).
  assert (pageOf (DataUrl 2 false) = 0 + 1) as Habs
      by (apply H; vm_compute; reflexivity).
  discriminate Habs.
Qed.

End ThumbsFacts.

(* ===================================================================== *)
(** * Further properties of the complexity analyzer *)
(* ===================================================================== *)

Section AnalyzerProfile.
Import Js Analyzer.

Lemma counter_classes (ops : list Operation) :
  length (filter (λ o, counterOf (fn o) = Some kFont) ops)
  + length (filter (λ o, counterOf (fn o) = Some kImage) ops)
  + length (filter (λ o, counterOf (fn o) = Some kText) ops)
  + length (filter (λ o, counterOf (fn o) = Some kPath) ops)
  + length (filter (λ o, counterOf (fn o) = Some kCurve) ops)
  + length (filter (λ o, counterOf (fn o) = Some kFill) ops)
  + length (filter (λ o, counterOf (fn o) = Some kStroke) ops)
  + length (filter (λ o, counterOf (fn o) = Some kClip) ops)
  + length (filter (λ o, counterOf (fn o) = Some kSaveRestore) ops)
  + length (filter (λ o, counterOf (fn o) = Some kTransform) ops)
  + length (filter (λ o, counterOf (fn o) = Some kShading) ops)
  + length (filter (λ o, counterOf (fn o) = Some kDependency) ops)
  + length (filter (λ o, counterOf (fn o) = None) ops)
  = length ops.
Proof.
  induction ops as [|o ops IH]; [reflexivity|].
  rewrite !filter_cons.
  destruct (counterOf (fn o)) as [[]|];
    repeat (first [rewrite decide_True by congruence
                  | rewrite decide_False by congruence]);
    simpl; lia.
Qed.

Lemma count_tallyAll k ops :
  count (tallyAll ops) k
  = N.of_nat (length (filter (λ o, counterOf (fn o) = Some k) ops)).
Proof. unfold tallyAll. rewrite tally_count. simpl. lia. Qed.

(** X1.  Every operator is counted once.  The twelve counters of the
    profile, together with the operators that belong to no counter, add up
    to [operationCount]; and each of the counters for images, paths,
    curves, fills, strokes, clips, save/restore, transforms, shadings and
    dependencies is the number of operators of its group in the operator
    list. *)
Theorem analyzer_counters_partition
    (ops : list Operation) (tc : option (list (option str)))
    (co : str → FontLookup) :
  let c := analyzePageComplexity ops tc co in
  (fontCount c + imageCount c + textCount c + pathCount c + curveCount c
   + fillCount c + strokeCount c + clipCount c + saveRestoreCount c
   + transformCount c + shadingCount c + dependencyCount c
   + N.of_nat (length (filter (λ o, counterOf (fn o) = None) ops))
   = operationCount c)%N ∧
  imageCount c
  = N.of_nat (length (filter (λ o, counterOf (fn o) = Some kImage) ops)) ∧
  pathCount c
  = N.of_nat (length (filter (λ o, counterOf (fn o) = Some kPath) ops)) ∧
  curveCount c
  = N.of_nat (length (filter (λ o, counterOf (fn o) = Some kCurve) ops)) ∧
  fillCount c
  = N.of_nat (length (filter (λ o, counterOf (fn o) = Some kFill) ops)) ∧
  strokeCount c
  = N.of_nat (length (filter (λ o, counterOf (fn o) = Some kStroke) ops)) ∧
  clipCount c
  = N.of_nat (length (filter (λ o, counterOf (fn o) = Some kClip) ops)) ∧
  saveRestoreCount c
  = N.of_nat (length (filter (λ o, counterOf (fn o) = Some kSaveRestore) ops)) ∧
  transformCount c
  = N.of_nat (length (filter (λ o, counterOf (fn o) = Some kTransform) ops)) ∧
  shadingCount c
  = N.of_nat (length (filter (λ o, counterOf (fn o) = Some kShading) ops)) ∧
  dependencyCount c
  = N.of_nat (length (filter (λ o, counterOf (fn o) = Some kDependency) ops)).
Proof.
  intros c. subst c. unfold analyzePageComplexity.
  cbn [fontCount imageCount textCount pathCount curveCount fillCount
       strokeCount clipCount saveRestoreCount transformCount shadingCount
       dependencyCount operationCount].
  rewrite !count_tallyAll. pose proof (counter_classes ops).
  repeat split; lia.
Qed.

(** The font names collected by the loop. *)
Lemma fontNames_fold (ops : list Operation) (c : Counts) :
  NoDup (fontNames c) →
  let c' := fold_left tally ops c in
  NoDup (fontNames c') ∧
  (∀ f, f ∈ fontNames c' ↔
        f ∈ fontNames c ∨ ∃ o, o ∈ ops ∧ fn o = setFont ∧ arg0 o = Some f) ∧
  length (fontNames c')
  ≤ length (fontNames c)
    + length (filter (λ o, counterOf (fn o) = Some kFont) ops).
Proof.
  revert c. induction ops as [|o ops IH]; intros c Hnd; simpl.
  - split; [done|]. split; [|lia]. intros f. split; [auto|].
    intros [H|(o & Ho & _)]; [done|]. by apply elem_of_nil in Ho.
  - assert (NoDup (fontNames (tally c o)) ∧
            (∀ f, f ∈ fontNames (tally c o) ↔
                  f ∈ fontNames c ∨ (fn o = setFont ∧ arg0 o = Some f)) ∧
            length (fontNames (tally c o))
            ≤ length (fontNames c)
              + (if decide (counterOf (fn o) = Some kFont) then 1 else 0))
      as (Hnd' & Hin' & Hlen').
    { unfold tally. destruct o as [f a]. simpl.
      destruct f; simpl;
        try (split; [done|]; split; [|try case_decide; lia];
             intros x; split; [auto|]; intros [H|[H _]]; [done|discriminate]).
      - destruct a as [x|]; simpl.
        + unfold setAdd. case_bool_decide as Hx.
          * split; [done|]. split; [|lia]. intros y. split; [auto|].
            intros [H|[_ [= <-]]]; done.
          * split; [apply NoDup_app; repeat split; try done;
                    [intros y Hy Hy'; apply list_elem_of_singleton in Hy';
                     by subst | apply NoDup_singleton]|].
            split; [|rewrite length_app; simpl; lia].
            intros y. rewrite elem_of_app, list_elem_of_singleton.
            split; [intros [H| ->]; auto|].
            intros [H|[_ [= <-]]]; auto.
        + split; [done|]. split; [|lia]. intros y. split; [auto|].
          intros [H|[_ H]]; [done|discriminate]. }
    destruct (IH (tally c o) Hnd') as (H1 & H2 & H3).
    split; [exact H1|]. split.
    + intros f. rewrite H2, Hin'. split.
      * intros [[H|[Ho Ha]]|(o' & Ho' & H)]; auto.
        -- right. exists o. split; [apply elem_of_cons; auto|done].
        -- right. exists o'. split; [apply elem_of_cons; auto|done].
      * intros [H|(o' & Ho' & Hf & Ha)]; auto.
        apply elem_of_cons in Ho' as [->|Ho']; auto.
        right. by exists o'.
    + rewrite filter_cons. destruct (decide (counterOf (fn o) = Some kFont));
        simpl in *; lia.
Qed.

Lemma analyzer_unique_fonts_aux
    (ops : list Operation) (tc : option (list (option str)))
    (co : str → FontLookup) :
  let c := analyzePageComplexity ops tc co in
  NoDup (uniqueFonts c) ∧
  (∀ f, f ∈ uniqueFonts c ↔
        ∃ o, o ∈ ops ∧ fn o = setFont ∧ arg0 o = Some f) ∧
  (N.of_nat (length (uniqueFonts c)) ≤ fontCount c)%N.
Proof.
  intros c.
  destruct (fontNames_fold ops zeroCounts) as (H1 & H2 & H3);
    [apply NoDup_nil_2|].
  subst c. unfold analyzePageComplexity.
  cbn [uniqueFonts fontCount]. rewrite count_tallyAll.
  unfold tallyAll. split; [exact H1|]. split.
  - intros f. rewrite H2. simpl. split; [|auto].
    intros [H|H]; [by apply elem_of_nil in H|done].
  - simpl in H3. lia.
Qed.

(** X2.  The unique fonts are the fonts that are set.  [uniqueFonts] has
    no duplicate, holds exactly the names carried by the [setFont]
    operators of the page, and is never longer than [fontCount]. *)
Theorem analyzer_unique_fonts
    (ops : list Operation) (tc : option (list (option str)))
    (co : str → FontLookup) :
  let c := analyzePageComplexity ops tc co in
  NoDup (uniqueFonts c) ∧
  (∀ f, f ∈ uniqueFonts c ↔
        ∃ o, o ∈ ops ∧ fn o = setFont ∧ arg0 o = Some f) ∧
  (N.of_nat (length (uniqueFonts c)) ≤ fontCount c)%N.
Proof. apply analyzer_unique_fonts_aux. Qed.




Lemma verdict_of_counts ops tc co :
  let c := analyzePageComplexity ops tc co in
  isHeavy c
  = (0 <? type3FontCount (scanFonts co tc))%N
    && (10 <? N.of_nat (length (filter (λ o, isTextShow o = true) ops)))%N
    || (1000 <? N.of_nat (length (filter (λ o, isTextShow o = true) ops)))%N
    || (200 <? N.of_nat (length (filter (λ o, isFontSwitch o = true) ops)))%N
    || (10000 <? N.of_nat (length ops))%N.
Proof.
  intros c. destruct (verdict_closed_form ops tc co) as [Hh _].
  cbv zeta in Hh. fold c in Hh. rewrite Hh.
  subst c. rewrite textCount_spec, fontCount_spec. reflexivity.
Qed.

(** X4.  More operators never make a heavy page light.  When a page is
    heavy, any page with the same fonts whose operator list extends it is
    heavy too. *)
Theorem analyzer_verdict_monotone
    (ops more : list Operation) (tc : option (list (option str)))
    (co : str → FontLookup) :
  isHeavy (analyzePageComplexity ops tc co) = true →
  isHeavy (analyzePageComplexity (ops ++ more) tc co) = true.
Proof.
  pose proof (verdict_of_counts ops tc co) as H1.
  pose proof (verdict_of_counts (ops ++ more) tc co) as H2.
  cbv zeta in H1, H2. rewrite H1, H2.
  rewrite !filter_app, !length_app.
  generalize (length (filter (λ o, isTextShow o = true) ops))
    (length (filter (λ o, isTextShow o = true) more))
    (length (filter (λ o, isFontSwitch o = true) ops))
    (length (filter (λ o, isFontSwitch o = true) more))
    (length ops) (length more) (type3FontCount (scanFonts co tc)).
  intros t t' f f' n n' k.
  rewrite !orb_true_iff, !andb_true_iff, !N.ltb_lt. lia.
Qed.

Lemma analyzer_verdict_monotone_witness :
  isHeavy (analyzePageComplexity (textOnly 1001) None (λ _, FontNull)) = true ∧
  isHeavy (analyzePageComplexity
             (textOnly 1001 ++ [{| fn := save; arg0 := None |}])
             None (λ _, FontNull)) = true.
Proof.
  assert (isHeavy (analyzePageComplexity (textOnly 1001) None (λ _, FontNull))
          = true) as H by (vm_compute; reflexivity).
  split; [exact H|].
  exact (analyzer_verdict_monotone (textOnly 1001)
           [{| fn := save; arg0 := None |}] None (λ _, FontNull) H).
Defined.

(** X5.  The profile does not depend on the order of the operators.
    Two operator lists that are permutations of each other give the same
    verdict, the same reasons and the same counters, and the same unique
    fonts up to their order. *)
Theorem analyzer_order_irrelevant
    (ops ops' : list Operation) (tc : option (list (option str)))
    (co : str → FontLookup) :
  ops ≡ₚ ops' →
  let c := analyzePageComplexity ops tc co in
  let c' := analyzePageComplexity ops' tc co in
  isHeavy c' = isHeavy c ∧ heavyReasons c' = heavyReasons c ∧
  operationCount c' = operationCount c ∧
  textCount c' = textCount c ∧ fontCount c' = fontCount c ∧
  imageCount c' = imageCount c ∧ pathCount c' = pathCount c ∧
  curveCount c' = curveCount c ∧ fillCount c' = fillCount c ∧
  strokeCount c' = strokeCount c ∧ clipCount c' = clipCount c ∧
  saveRestoreCount c' = saveRestoreCount c ∧
  transformCount c' = transformCount c ∧
  shadingCount c' = shadingCount c ∧
  dependencyCount c' = dependencyCount c ∧
  uniqueFonts c' ≡ₚ uniqueFonts c.
Proof.
  intros Hp c c'.
  assert (∀ k, count (tallyAll ops') k = count (tallyAll ops) k) as Hk.
  { intros k. rewrite !count_tallyAll. by rewrite Hp. }
  assert (operationCount c' = operationCount c) as Hn.
  { subst c c'. unfold analyzePageComplexity. cbn [operationCount].
    by rewrite Hp. }
  assert (textCount c' = textCount c) as Ht by apply Hk.
  assert (fontCount c' = fontCount c) as Hf by apply Hk.
  assert (pc_type3FontCount c' = pc_type3FontCount c) as H3 by reflexivity.
  destruct (verdict_closed_form ops tc co) as [Hh Hr].
  destruct (verdict_closed_form ops' tc co) as [Hh' Hr'].
  cbv zeta in Hh, Hr, Hh', Hr'. fold c in Hh, Hr. fold c' in Hh', Hr'.
  split; [by rewrite Hh, Hh', Hn, Ht, Hf, H3|].
  split; [by rewrite Hr, Hr', Hn, Ht, Hf, H3|].
  split; [exact Hn|]. split; [exact Ht|]. split; [exact Hf|].
  repeat (split; [apply Hk|]).
  apply NoDup_Permutation.
  - apply (analyzer_unique_fonts_aux ops' tc co).
  - apply (analyzer_unique_fonts_aux ops tc co).
  - intros f. subst c c'.
    rewrite (proj1 (proj2 (analyzer_unique_fonts_aux ops' tc co)) f).
    rewrite (proj1 (proj2 (analyzer_unique_fonts_aux ops tc co)) f).
    split; intros (o & Ho & H); exists o; (split; [|done]).
    + by rewrite Hp.
    + by rewrite <- Hp.
Qed.

Lemma analyzer_order_irrelevant_witness :
  [{| fn := save; arg0 := None |}; {| fn := showText; arg0 := None |}]
  ≡ₚ [{| fn := showText; arg0 := None |}; {| fn := save; arg0 := None |}] ∧
  textCount (analyzePageComplexity
               [{| fn := showText; arg0 := None |};
                {| fn := save; arg0 := None |}] None (λ _, FontNull))
  = textCount (analyzePageComplexity
                 [{| fn := save; arg0 := None |};
                  {| fn := showText; arg0 := None |}] None (λ _, FontNull)).
Proof.
  assert ([{| fn := save; arg0 := None |}; {| fn := showText; arg0 := None |}]
          ≡ₚ [{| fn := showText; arg0 := None |};
              {| fn := save; arg0 := None |}]) as H by apply Permutation_swap.
  split; [exact H|].
  exact (proj1 (proj2 (proj2 (proj2
           (analyzer_order_irrelevant _ _ None (λ _, FontNull) H))))).
Defined.

End AnalyzerProfile.


(* ===================================================================== *)
(** * Results of the PDFium adapter *)
(* ===================================================================== *)

Section PdfiumResults.
Import Eff Pdfium.







Ltac run_pdfium :=
  unfold renderPageWithPdfium, tryBlock, finallyBlock, try_finally, emit,
    set_docPtr, set_pagePtr, set_bitmapPtr, when, await, throw, modify, get,
    mbind, M_bind, mret, M_ret.

(** X7.  A null handle ends the render after the teardown.  With the
    input buffer inside the heap and releases that return, a null
    document, page or bitmap handle makes [renderPageWithPdfium] throw,
    and the native calls made are exactly the acquisitions up to the null
    handle followed by the release of every handle obtained before it, in
    reverse order, and of the input buffer. *)
Theorem pdfium_null_handle (w : World) (size pageNum : Z) (scale : Q)
    (rotation m : Z) :
  initPdfium w = Returns tt → malloc w = Returns m →
  (0 ≤ m)%Z → (m + size ≤ HEAPU8_length w)%Z →
  releasesReturn w →
  let out := renderPageWithPdfium w size pageNum scale rotation false
               emptyFrame in
  (FPDF_LoadMemDocument w = Returns 0%Z →
     (∃ e, fst out = Abrupt (Throw e)) ∧
     log (snd out)
     = [call_malloc size m; call_FPDF_LoadMemDocument m size 0 0;
        call_free m]) ∧
  (∀ d, FPDF_LoadMemDocument w = Returns d → d ≠ 0%Z →
     FPDF_LoadPage w = Returns 0%Z →
     (∃ e, fst out = Abrupt (Throw e)) ∧
     log (snd out)
     = [call_malloc size m; call_FPDF_LoadMemDocument m size 0 d;
        call_FPDF_LoadPage d (pageNum - 1) 0;
        call_FPDF_CloseDocument d; call_free m]) ∧
  (∀ d p pageWidth pageHeight,
     FPDF_LoadMemDocument w = Returns d → d ≠ 0%Z →
     FPDF_LoadPage w = Returns p → p ≠ 0%Z →
     FPDF_GetPageWidthF w = Returns pageWidth →
     FPDF_GetPageHeightF w = Returns pageHeight →
     FPDFBitmap_Create w = Returns 0%Z →
     (∃ e, fst out = Abrupt (Throw e)) ∧
     ∃ width height,
       log (snd out)
       = [call_malloc size m; call_FPDF_LoadMemDocument m size 0 d;
          call_FPDF_LoadPage d (pageNum - 1) p;
          call_FPDFBitmap_Create width height 1 0;
          call_FPDF_ClosePage p; call_FPDF_CloseDocument d; call_free m]).
Proof.
  intros Hi Hm H0 Hb (Hrb & Hrp & Hrd & Hrf) out.
  assert (((m <? 0) || (HEAPU8_length w <? m + size))%Z = false) as Hin.
  { apply orb_false_iff. split; apply Z.ltb_ge; lia. }
  assert (∀ x, x ≠ 0%Z → nonNull x = true) as Hnn.
  { intros x Hx. unfold nonNull. apply negb_true_iff, Z.eqb_neq, Hx. }
  split; [|split].
  - intros Hd. subst out. run_pdfium.
    rewrite Hi, Hm. simpl. rewrite Hin. simpl. rewrite Hd. simpl.
    rewrite Hrf. destruct (FPDF_GetLastError w); simpl; eauto.
  - intros d Hd Hdn Hp. subst out. run_pdfium.
    rewrite Hi, Hm. simpl. rewrite Hin. simpl. rewrite Hd. simpl.
    rewrite (Hnn d Hdn). simpl. rewrite Hp. simpl.
    rewrite (Hnn d Hdn). simpl. rewrite Hrd, Hrf. simpl. eauto.
  - intros d p pw ph Hd Hdn Hp Hpn Hw Hh Hc. subst out. run_pdfium.
    rewrite Hi, Hm. simpl. rewrite Hin. simpl. rewrite Hd. simpl.
    rewrite (Hnn d Hdn). simpl. rewrite Hp. simpl.
    rewrite (Hnn p Hpn). simpl. rewrite Hw, Hh. simpl. rewrite Hc. simpl.
    rewrite (Hnn p Hpn), (Hnn d Hdn). simpl. rewrite Hrp, Hrd, Hrf. simpl.
    split; [eauto|]. eauto.
Qed.

Lemma pdfium_null_handle_witness :
  (∃ e, fst (renderPageWithPdfium pageLoadFails 100 1 (3 # 2) 0 false
               emptyFrame) = Abrupt (Throw e)) ∧
  log (snd (renderPageWithPdfium pageLoadFails 100 1 (3 # 2) 0 false
              emptyFrame))
  = [call_malloc 100 4096; call_FPDF_LoadMemDocument 4096 100 0 7;
     call_FPDF_LoadPage 7 (1 - 1) 0;
     call_FPDF_CloseDocument 7; call_free 4096]%Z.
Proof.
  apply (proj1 (proj2 (pdfium_null_handle pageLoadFails 100 1 (3 # 2) 0 4096
                         eq_refl eq_refl ltac:(lia) ltac:(simpl; lia)
                         ltac:(by repeat split))) 7%Z);
    [reflexivity|discriminate|reflexivity].
Defined.
End PdfiumResults.


(* ===================================================================== *)
(** * How a render ends *)
(* ===================================================================== *)

Section RenderOutcomes.
Import Eff.

Lemma wp_normal {S} (m : M S unit) (Q : S → Prop) s :
  wp m (λ _, Q) (λ _ _, False) s → fst (m s) = Normal tt ∧ Q (snd (m s)).
Proof. unfold wp. by destruct (m s) as [[[]|c] s']. Qed.

(** X8.  [renderSinglePage] never rejects.  Whatever the awaited calls
    deliver, the call completes normally; it only appends to the trace of
    effects, and it leaves the records and the text layers of the other
    pages, the document, the scale, the rotation and the query as they
    were. *)
Theorem scroll_render_settles (env : Scroll.RenderEnv) (p : nat)
    (v : Scroll.Viewer) :
  let out := Scroll.renderSinglePage env p v in
  fst out = Normal tt ∧
  (∃ new, Scroll.trace (snd out) = Scroll.trace v ++ new) ∧
  (∀ q, q ≠ p →
        Scroll.pageRenderStates (snd out) !! q
        = Scroll.pageRenderStates v !! q) ∧
  (∀ q, q ≠ p → Scroll.textLayers (snd out) q = Scroll.textLayers v q) ∧
  Scroll.pdfDoc (snd out) = Scroll.pdfDoc v ∧
  Scroll.scale (snd out) = Scroll.scale v ∧
  Scroll.rotation (snd out) = Scroll.rotation v ∧
  Scroll.searchQuery (snd out) = Scroll.searchQuery v.
Proof.
  apply (wp_normal (Scroll.renderSinglePage env p)
           (λ v', (∃ new, Scroll.trace v' = Scroll.trace v ++ new) ∧
                  (∀ q, q ≠ p → Scroll.pageRenderStates v' !! q
                                = Scroll.pageRenderStates v !! q) ∧
                  (∀ q, q ≠ p → Scroll.textLayers v' q = Scroll.textLayers v q) ∧
                  Scroll.pdfDoc v' = Scroll.pdfDoc v ∧
                  Scroll.scale v' = Scroll.scale v ∧
                  Scroll.rotation v' = Scroll.rotation v ∧
                  Scroll.searchQuery v' = Scroll.searchQuery v)).
  unfold Scroll.renderSinglePage, Scroll.enter, Scroll.resume, Scroll.tryBlock,
    Scroll.renderTextLayerToElement, Scroll.emit, Scroll.setTextLayer,
    Scroll.setPageRenderState.
  repeat (wp_step; simpl).
  all: (split; [rewrite <- ?app_assoc; first [by eexists | exists []; by rewrite app_nil_r]|]).
  all: (split; [intros q Hq; by rewrite ?lookup_insert_ne by done|]).
  all: (split; [intros q Hq; by repeat (case_decide; try congruence)|]).
  all: done.
Qed.



(** Deciding a statement about outcomes that are known. *)
Ltac decide_outcome :=
  repeat first
    [ reflexivity
    | eassumption
    | congruence
    | match goal with
      | H : ?a = ?b |- _ => discriminate H
      | H : Some _ = Some _ |- _ => inversion H; clear H; subst
      | H : Returns _ = Returns _ |- _ => inversion H; clear H; subst
      | H : _ ∧ _ |- _ => destruct H
      | H : ∃ _, _ |- _ => destruct H
      | H : ?x = ?x → _ |- _ => specialize (H eq_refl)
      | |- _ ↔ _ => split
      | |- _ ∧ _ => split
      | |- ∃ _, _ => eexists
      | |- ¬ _ => intros ?
      | |- _ → _ => intros ?
      | H : ¬ _ |- _ => exfalso; apply H; clear H
      end ].

(** X10.  The record of a page tells how the render ended.  After the
    part of [renderSinglePage] that follows the guard, the record of the
    page says rendered with PDFium exactly when the page is heavy and both
    the PDFium render and the text content for it succeed; rendered
    without PDFium exactly when PDFium did not draw the page and the
    pdf.js render and its text content succeed; still rendering exactly
    when the page elements are missing; and it is always one of these or
    the idle record. *)
Theorem scroll_record_tells_the_renderer (env : Scroll.RenderEnv)
    (c : Scroll.Closure) (p : nat) (v : Scroll.Viewer) :
  Scroll.pageRenderStates v !! p
  = Some {| Scroll.rendered := false; Scroll.rendering := true;
            Scroll.usedPdfium := false |} →
  let m := Scroll.pageRenderStates (snd (Scroll.resume env c p v)) in
  let reaches :=
    (∃ u, Scroll.getPage env = Returns u) ∧ Scroll.elements env = true in
  let pdfiumDraws cx :=
    Analyzer.isHeavy cx = true ∧
    (∃ u, Scroll.renderPageWithPdfium env = Returns u) ∧
    (∃ u, Scroll.pdfiumTextContent env = Returns u) in
  (m !! p = Some {| Scroll.rendered := true; Scroll.rendering := false;
                    Scroll.usedPdfium := true |} ↔
   reaches ∧
   ∃ cx, Scroll.analyzePageComplexity env = Returns cx ∧ pdfiumDraws cx) ∧
  (m !! p = Some {| Scroll.rendered := true; Scroll.rendering := false;
                    Scroll.usedPdfium := false |} ↔
   reaches ∧
   (∃ cx, Scroll.analyzePageComplexity env = Returns cx ∧ ¬ pdfiumDraws cx) ∧
   (Scroll.canvasContext env = true → ∃ u, Scroll.render env = Returns u) ∧
   (∃ u, Scroll.getTextContent env = Returns u)) ∧
  (m !! p = Some {| Scroll.rendered := false; Scroll.rendering := true;
                    Scroll.usedPdfium := false |} ↔
   (∃ u, Scroll.getPage env = Returns u) ∧
   (∃ cx, Scroll.analyzePageComplexity env = Returns cx) ∧
   Scroll.elements env = false) ∧
  (m !! p = Some Scroll.idleRecord
   ∨ m !! p = Some {| Scroll.rendered := false; Scroll.rendering := true;
                      Scroll.usedPdfium := false |}
   ∨ (∃ b, m !! p = Some {| Scroll.rendered := true; Scroll.rendering := false;
                            Scroll.usedPdfium := b |})).
Proof.
  intros Hrec m reaches pdfiumDraws. subst m reaches pdfiumDraws.
  destruct env as [gp an el rp pc ptc cc re gtc]. simpl.
  unfold Scroll.resume, Scroll.tryBlock, Scroll.renderTextLayerToElement,
    Scroll.emit, Scroll.setTextLayer, Scroll.setPageRenderState, call,
    try_catch, when, await, throw, return_, modify, mbind, M_bind, mret, M_ret.
  unfold Scroll.idleRecord.
  destruct gp as [[]|?]; simpl;
    [destruct an as [cx|?]; simpl;
     [destruct el; simpl;
      [destruct (Analyzer.isHeavy cx) eqn:Eh; simpl;
       [destruct rp as [[]|?]; simpl;
        [destruct pc; simpl; destruct ptc as [[]|?]; simpl|]|];
       try (destruct cc; simpl; [destruct re as [[]|?]; simpl|]);
       try (destruct gtc as [[]|?]; simpl)
      |]|]|];
    rewrite ?lookup_insert_eq, ?Hrec;
    (split; [|split; [|split]]);
    try (first [ left; reflexivity | right; left; reflexivity
               | right; right; eexists; reflexivity ]);
    decide_outcome.
Qed.

Lemma scroll_record_tells_the_renderer_witness :
  Scroll.pageRenderStates
    (snd (Scroll.resume Scroll.lightPageRenders
            {| Scroll.c_scale := 1; Scroll.c_rotation := 0;
               Scroll.c_searchQuery := [] |} 1
            (Scroll.viewer (Scroll.step (Scroll.Request 1)
                              Scroll.sampleSystem)))) !! 1
  = Some {| Scroll.rendered := true; Scroll.rendering := false;
            Scroll.usedPdfium := false |}.
Proof.
  apply (proj1 (proj2 (scroll_record_tells_the_renderer
                         Scroll.lightPageRenders
                         {| Scroll.c_scale := 1; Scroll.c_rotation := 0;
                            Scroll.c_searchQuery := [] |} 1
                         (Scroll.viewer (Scroll.step (Scroll.Request 1)
                                           Scroll.sampleSystem))
                         ltac:(vm_compute; reflexivity)))).
  split; [split; [by eexists|reflexivity]|].
  split; [exists Scroll.lightProfile; split; [reflexivity|];
          intros [Hh _]; discriminate Hh|].
  split; [intros _; by eexists|by eexists].
Defined.

(** X11.  [executeRender] never rejects and always clears its flags.
    Whatever the awaited calls deliver, the call completes normally;
    without a canvas it changes nothing; with one, [isAnalyzing],
    [isRendering] and the current render task are cleared at the end; the
    error message changes only when [getPage], the analysis, the pdf.js
    render or the text content throws an error that is not a
    cancellation, never because of the PDFium renderer; and the call
    never clears an error that is already shown. *)
Theorem single_render_settles (env : SinglePage.Env) (p : nat) (q : Js.str)
    (v : SinglePage.View) :
  let out := SinglePage.executeRender env p q v in
  fst out = Normal tt ∧
  (SinglePage.canvas env = false → snd out = v) ∧
  (SinglePage.canvas env = true →
     SinglePage.isAnalyzing (snd out) = false ∧
     SinglePage.isRendering (snd out) = false ∧
     SinglePage.currentRenderTask (snd out) = false) ∧
  (SinglePage.error (snd out) ≠ SinglePage.error v →
     ∃ m, SinglePage.getPage env = Throws (Error m)
          ∨ SinglePage.analyzePageComplexity env = Throws (Error m)
          ∨ SinglePage.renderTask env = Throws (Error m)
          ∨ SinglePage.getTextContent env = Throws (Error m)) ∧
  (SinglePage.error v ≠ None → SinglePage.error (snd out) ≠ None).
Proof.
  apply (wp_normal (SinglePage.executeRender env p q)
    (λ v', (SinglePage.canvas env = false → v' = v) ∧
           (SinglePage.canvas env = true →
              SinglePage.isAnalyzing v' = false ∧
              SinglePage.isRendering v' = false ∧
              SinglePage.currentRenderTask v' = false) ∧
           (SinglePage.error v' ≠ SinglePage.error v →
              ∃ m, SinglePage.getPage env = Throws (Error m)
                   ∨ SinglePage.analyzePageComplexity env = Throws (Error m)
                   ∨ SinglePage.renderTask env = Throws (Error m)
                   ∨ SinglePage.getTextContent env = Throws (Error m)) ∧
           (SinglePage.error v ≠ None → SinglePage.error v' ≠ None))).
  unfold SinglePage.executeRender, SinglePage.renderWithPdfiumInternal,
    SinglePage.renderTextLayer, SinglePage.emit, SinglePage.setIsAnalyzing,
    SinglePage.setIsRendering, SinglePage.setError,
    SinglePage.setCurrentRenderTask.
  repeat (wp_step; simpl).
  all: try match goal with
       | e : Exn |- _ => destruct e; simpl; repeat (wp_step; simpl)
       end.
  all: repeat split; try done; try congruence.
  all: try (intros _; eexists; eauto; fail).
Qed.
End RenderOutcomes.


(* ===================================================================== *)
(** * Search failures and the moves between matches *)
(* ===================================================================== *)

Section NavigationFacts.
Import Eff Js SearchIndex Navigation.

Lemma scan_fails doc q pages results st p e rest :
  (∀ p', p' ∈ pages → is_Some (pageItems doc p')) →
  (getPage doc p = Throws e ∨
   ∃ u, getPage doc p = Returns u ∧ getTextContent doc p = Throws e) →
  scan doc q (pages ++ p :: rest) results st
  = (Abrupt (Throw e), visiting (pages ++ [p]) st).
Proof.
  revert results st. induction pages as [|p0 pages IH]; intros results st Hall Hp.
  - simpl. unfold mbind, M_bind, visit, modify. simpl.
    destruct Hp as [->|(u & -> & ->)]; simpl; done.
  - assert (is_Some (pageItems doc p0)) as [items Hitems]
      by (apply Hall; left).
    assert (getPage doc p0 = Returns tt ∧ getTextContent doc p0 = Returns items)
      as [Eg Et].
    { unfold pageItems in Hitems.
      destruct (getPage doc p0) as [[]|]; [|done].
      destruct (getTextContent doc p0); [|done]. by injection Hitems as ->. }
    simpl. unfold mbind, M_bind, visit, modify. simpl. rewrite Eg, Et. simpl.
    rewrite IH by (try done; intros p' Hp'; apply Hall; by right).
    unfold visiting. simpl. by rewrite <- !app_assoc.
Qed.

(** X12.  When a page of the document cannot be read, the search stops
    there.  For a query that is not blank and the first page [p] whose
    [getPage] or [getTextContent] throws, [performSearch] rejects with
    that error after visiting the pages 1..p and no other; the results,
    the current match and the page in view stay what they were before the
    search, and [isSearching] is back to false. *)
Theorem search_failure_keeps_results (doc : Doc) (q : str) (st : State)
    (p : nat) (e : Exn) :
  Exists (λ c, isWhite c = false) q →
  1 ≤ p ≤ numPages doc →
  (∀ p', 1 ≤ p' < p → is_Some (pageItems doc p')) →
  (getPage doc p = Throws e ∨
   ∃ u, getPage doc p = Returns u ∧ getTextContent doc p = Throws e) →
  performSearch (Some doc) q st
  = (Abrupt (Throw e),
     {| searchResults := searchResults st;
        currentMatchIndex := currentMatchIndex st;
        isSearching := false; shown := shown st;
        visited := visited st ++ seq 1 p |}).
Proof.
  intros Hq Hp Hbefore Hfail. unfold performSearch.
  rewrite (trim_nonblank q Hq).
  assert (seq 1 (numPages doc)
          = seq 1 (p - 1) ++ p :: seq (S p) (numPages doc - p)) as ->.
  { replace (numPages doc) with ((p - 1) + S (numPages doc - p)) at 1 by lia.
    rewrite seq_app. simpl. repeat f_equal; lia. }
  unfold call, try_finally, mbind, M_bind, setIsSearching, modify. simpl.
  rewrite (scan_fails doc (toLowerCase q) (seq 1 (p - 1)) [] _ p e) by
    (try done; intros p' Hp'; apply Hbefore; apply elem_of_seq in Hp'; lia).
  simpl. do 3 f_equal.
  replace (seq 1 p) with (seq 1 ((p - 1) + 1))
    by (f_equal; lia).
  rewrite seq_app. simpl. repeat f_equal; lia.
Qed.

(** The second page of a three-page document cannot be read. *)
Lemma search_failure_keeps_results_witness :
  snd (performSearch
         (Some {| numPages := 3;
                  getPage := λ _, Returns tt;
                  getTextContent := λ p,
                    match p with
                    | 1 => Returns [TextItem (lit "The Cat")]
                    | _ => Throws (Error "Invalid page request")
                    end |})
         (lit "cat") sampleState)
  = {| searchResults := searchResults sampleState;
       currentMatchIndex := 0; isSearching := false; shown := None;
       visited := [1; 2] |}.
Proof.
  rewrite (search_failure_keeps_results
             {| numPages := 3;
                getPage := λ _, Returns tt;
                getTextContent := λ p,
                  match p with
                  | 1 => Returns [TextItem (lit "The Cat")]
                  | _ => Throws (Error "Invalid page request")
                  end |}
             (lit "cat") sampleState 2 (Error "Invalid page request")).
  - reflexivity.
  - left. reflexivity.
  - simpl. lia.
  - intros p' Hp'. assert (p' = 1) as -> by lia. by eexists.
  - right. by exists tt.
Defined.

Lemma at_index_Some results i :
  (0 ≤ i < Z.of_nat (length results))%Z →
  ∃ r, at_index results i = Some r ∧ results !! Z.to_nat i = Some r.
Proof.
  intros Hi. unfold at_index.
  destruct (Z.ltb_spec i 0); [lia|].
  destruct (lookup_lt_is_Some_2 results (Z.to_nat i)) as [r Hr]; [lia|].
  by exists r.
Qed.

Lemma scan_keeps doc q pages l s0 :
  searchResults (snd (scan doc q pages l s0)) = searchResults s0 ∧
  currentMatchIndex (snd (scan doc q pages l s0)) = currentMatchIndex s0.
Proof.
  revert l s0. induction pages as [|p pages IH]; intros l s0; [done|].
  simpl. unfold mbind, M_bind, visit, modify. simpl.
  destruct (getPage doc p) as [[]|e]; [|done].
  destruct (getTextContent doc p) as [items|e]; [|done].
  simpl.
  destruct (IH (l ++ matchesOf q p items)
               {| searchResults := searchResults s0;
                  currentMatchIndex := currentMatchIndex s0;
                  isSearching := isSearching s0;
                  shown := shown s0;
                  visited := visited s0 ++ [p] |}) as [-> ->].
  done.
Qed.

Lemma performSearch_inRange pdfDoc q s :
  inRange s → inRange (snd (performSearch pdfDoc q s)).
Proof.
  intros Hs. unfold performSearch.
  destruct pdfDoc as [doc|]; [|done].
  destruct (truthy (trim q)); [|done].
  unfold call, try_finally, mbind, M_bind, setIsSearching, modify. simpl.
  match goal with |- context [scan ?d ?qq ?ps ?rs ?s] =>
    pose proof (scan_no_return d qq ps rs s) as Hr;
    pose proof (scan_keeps d qq ps rs s) as Hkeep;
    destruct (scan d qq ps rs s) as [[r|[|e]] s1]
  end; simpl in *.
  - destruct r as [|r0 r]; simpl; unfold inRange; simpl; [done|lia].
  - done.
  - unfold inRange in *. simpl. destruct Hkeep as [-> ->]. done.
Qed.

Lemma rem_next (i n : Z) :
  (0 ≤ i < n)%Z →
  (Z.rem (i + 1) n = if (i + 1 =? n)%Z then 0 else i + 1)%Z.
Proof.
  intros Hi. rewrite Z.rem_mod_nonneg by lia.
  destruct (Z.eqb_spec (i + 1) n) as [->|Hne].
  - apply Z.mod_same. lia.
  - apply Z.mod_small. lia.
Qed.

Lemma rem_prev (i n : Z) :
  (0 ≤ i < n)%Z →
  (Z.rem (i - 1 + n) n = if (i =? 0)%Z then n - 1 else i - 1)%Z.
Proof.
  intros Hi. rewrite Z.rem_mod_nonneg by lia.
  destruct (Z.eqb_spec i 0) as [Hz|Hne].
  - rewrite Z.mod_small; lia.
  - replace (i - 1 + n)%Z with (i - 1 + 1 * n)%Z by lia.
    rewrite Z.mod_add by lia. apply Z.mod_small. lia.
Qed.

Lemma rem_next_range (i n : Z) :
  (0 ≤ i < n)%Z → (0 ≤ Z.rem (i + 1) n < n)%Z.
Proof.
  intros Hi. rewrite rem_next by done.
  destruct (Z.eqb_spec (i + 1) n); lia.
Qed.

Lemma rem_prev_range (i n : Z) :
  (0 ≤ i < n)%Z → (0 ≤ Z.rem (i - 1 + n) n < n)%Z.
Proof.
  intros Hi. rewrite rem_prev by done.
  destruct (Z.eqb_spec i 0); lia.
Qed.

Lemma rem_prev_next (i n : Z) :
  (0 ≤ i < n)%Z → Z.rem (Z.rem (i + 1) n - 1 + n) n = i.
Proof.
  intros Hi. rewrite (rem_prev _ n) by (by apply rem_next_range).
  rewrite rem_next by done.
  destruct (Z.eqb_spec (i + 1) n); simpl.
  - lia.
  - destruct (Z.eqb_spec (i + 1) 0); lia.
Qed.

Lemma rem_next_prev (i n : Z) :
  (0 ≤ i < n)%Z → Z.rem (Z.rem (i - 1 + n) n + 1) n = i.
Proof.
  intros Hi. rewrite (rem_next _ n) by (by apply rem_prev_range).
  rewrite rem_prev by done.
  destruct (Z.eqb_spec i 0).
  - destruct (Z.eqb_spec (n - 1 + 1) n); lia.
  - destruct (Z.eqb_spec (i - 1 + 1) n); lia.
Qed.

Lemma inRange_bounds s :
  inRange s → searchResults s ≠ [] →
  (0 ≤ currentMatchIndex s < Z.of_nat (length (searchResults s)))%Z.
Proof. unfold inRange. by destruct (searchResults s). Qed.

Lemma goToNextMatch_spec s :
  inRange s → searchResults s ≠ [] →
  ∃ r, searchResults s !! Z.to_nat (Z.rem (currentMatchIndex s + 1)
                                      (Z.of_nat (length (searchResults s))))
       = Some r ∧
       goToNextMatch s
       = (Normal tt,
          {| searchResults := searchResults s;
             currentMatchIndex :=
               Z.rem (currentMatchIndex s + 1)
                     (Z.of_nat (length (searchResults s)));
             isSearching := isSearching s;
             shown := Some (pageNum r);
             visited := visited s |}).
Proof.
  intros Hs Hne. unfold inRange in Hs.
  destruct (searchResults s) as [|r0 rs] eqn:Er; [done|].
  assert (0 ≤ Z.rem (currentMatchIndex s + 1) (Z.of_nat (length (r0 :: rs)))
          < Z.of_nat (length (r0 :: rs)))%Z as Hin.
  { by apply rem_next_range. }
  destruct (at_index_Some _ _ Hin) as (r & Hat & Hl).
  exists r. split; [exact Hl|].
  unfold goToNextMatch, call, mbind, M_bind, get, setCurrentMatchIndex,
    showMatch, modify. simpl. rewrite Er. simpl.
  simpl in Hat. rewrite Hat. unfold showPage, modify. simpl. by rewrite Er.
Qed.

Lemma goToPrevMatch_spec s :
  inRange s → searchResults s ≠ [] →
  ∃ r, searchResults s !! Z.to_nat (Z.rem (currentMatchIndex s - 1
                                           + Z.of_nat (length (searchResults s)))
                                      (Z.of_nat (length (searchResults s))))
       = Some r ∧
       goToPrevMatch s
       = (Normal tt,
          {| searchResults := searchResults s;
             currentMatchIndex :=
               Z.rem (currentMatchIndex s - 1
                      + Z.of_nat (length (searchResults s)))
                     (Z.of_nat (length (searchResults s)));
             isSearching := isSearching s;
             shown := Some (pageNum r);
             visited := visited s |}).
Proof.
  intros Hs Hne. unfold inRange in Hs.
  destruct (searchResults s) as [|r0 rs] eqn:Er; [done|].
  assert (0 ≤ Z.rem (currentMatchIndex s - 1 + Z.of_nat (length (r0 :: rs)))
                    (Z.of_nat (length (r0 :: rs)))
          < Z.of_nat (length (r0 :: rs)))%Z as Hin.
  { by apply rem_prev_range. }
  destruct (at_index_Some _ _ Hin) as (r & Hat & Hl).
  exists r. split; [exact Hl|].
  unfold goToPrevMatch, call, mbind, M_bind, get, setCurrentMatchIndex,
    showMatch, modify. simpl. rewrite Er. simpl.
  simpl in Hat. rewrite Hat. unfold showPage, modify. simpl. by rewrite Er.
Qed.

Lemma goTo_no_results s :
  searchResults s = [] →
  goToNextMatch s = (Normal tt, s) ∧ goToPrevMatch s = (Normal tt, s).
Proof.
  intros Er. unfold goToNextMatch, goToPrevMatch, call, mbind, M_bind, get.
  simpl. rewrite Er. done.
Qed.

Lemma step_inRange a s : inRange s → inRange (step a s).
Proof.
  intros Hs. destruct a as [pdfDoc q| | |]; unfold step.
  - by apply performSearch_inRange.
  - destruct (searchResults s) as [|r0 rs] eqn:Er.
    + by rewrite (proj1 (goTo_no_results s Er)).
    + destruct (goToNextMatch_spec s Hs) as (r & _ & ->); [by rewrite Er|].
      unfold inRange in *. simpl. rewrite Er in *.
      by apply rem_next_range.
  - destruct (searchResults s) as [|r0 rs] eqn:Er.
    + by rewrite (proj2 (goTo_no_results s Er)).
    + destruct (goToPrevMatch_spec s Hs) as (r & _ & ->); [by rewrite Er|].
      unfold inRange in *. simpl. rewrite Er in *.
      by apply rem_prev_range.
  - done.
Qed.

Lemma run_inRange l s : inRange s → inRange (run l s).
Proof.
  revert s. induction l as [|a l IH]; intros s Hs; [done|].
  simpl. apply IH. by apply step_inRange.
Qed.

(** X13.  The current match is always a match.  Whatever searches, next
    and previous presses and document loads a freshly mounted viewer has
    seen, [currentMatchIndex] is -1 when there are no results and an index
    into [searchResults] otherwise; and in every such state the next and
    the previous button complete without an exception, leave the results
    alone and bring into view the page of the match they move to. *)
Theorem search_navigation_in_range (l : list Action) :
  let s := run l mounted in
  inRange s ∧
  (searchResults s = [] →
     goToNextMatch s = (Normal tt, s) ∧ goToPrevMatch s = (Normal tt, s)) ∧
  (searchResults s ≠ [] →
     ∀ go, go = goToNextMatch ∨ go = goToPrevMatch →
       fst (go s) = Normal tt ∧
       searchResults (snd (go s)) = searchResults s ∧
       ∃ r, at_index (searchResults s) (currentMatchIndex (snd (go s)))
            = Some r ∧
            shown (snd (go s)) = Some (pageNum r)).
Proof.
  intros s. assert (inRange s) as Hs by (by apply run_inRange).
  split; [exact Hs|]. split; [apply goTo_no_results|].
  intros Hne go [->| ->].
  - destruct (goToNextMatch_spec s Hs Hne) as (r & Hl & ->). simpl.
    split; [done|]. split; [done|]. exists r. split; [|done].
    destruct (at_index_Some (searchResults s)
                (Z.rem (currentMatchIndex s + 1)
                       (Z.of_nat (length (searchResults s)))))
      as (r' & -> & Hl'); [|congruence].
    by apply rem_next_range, inRange_bounds.
  - destruct (goToPrevMatch_spec s Hs Hne) as (r & Hl & ->). simpl.
    split; [done|]. split; [done|]. exists r. split; [|done].
    destruct (at_index_Some (searchResults s)
                (Z.rem (currentMatchIndex s - 1
                        + Z.of_nat (length (searchResults s)))
                       (Z.of_nat (length (searchResults s)))))
      as (r' & -> & Hl'); [|congruence].
    by apply rem_prev_range, inRange_bounds.
Qed.

Lemma presses_index n s :
  inRange s → searchResults s ≠ [] →
  searchResults (run (presses n) s) = searchResults s ∧
  currentMatchIndex (run (presses n) s)
  = ((currentMatchIndex s + Z.of_nat n)
       `mod` Z.of_nat (length (searchResults s)))%Z ∧
  isSearching (run (presses n) s) = isSearching s ∧
  visited (run (presses n) s) = visited s.
Proof.
  revert s. induction n as [|n IH]; intros s Hs Hne.
  - simpl. split; [done|]. split; [|done].
    pose proof (inRange_bounds s Hs Hne).
    rewrite Z.add_0_r, Z.mod_small; lia.
  - change (run (presses (S n)) s) with (run (presses n) (step NextMatch s)).
    pose proof (step_inRange NextMatch s Hs) as Hs'.
    destruct (goToNextMatch_spec s Hs Hne) as (r & _ & Hgo).
    assert (searchResults (step NextMatch s) = searchResults s ∧
            currentMatchIndex (step NextMatch s)
            = Z.rem (currentMatchIndex s + 1)
                    (Z.of_nat (length (searchResults s))) ∧
            isSearching (step NextMatch s) = isSearching s ∧
            visited (step NextMatch s) = visited s) as (Hr0 & Hi0 & Hb0 & Hv0).
    { unfold step. by rewrite Hgo. }
    destruct (IH _ Hs') as (Hr & Hi & Hb & Hv); [by rewrite Hr0|].
    rewrite Hr, Hi, Hb, Hv, Hr0, Hi0, Hb0, Hv0. split; [done|].
    split; [|done].
    pose proof (inRange_bounds s Hs Hne).
    rewrite Z.rem_mod_nonneg by lia.
    rewrite Zplus_mod_idemp_l. f_equal. lia.
Qed.

(** X14.  The matches form a ring.  With at least one result and the
    current match in range, the previous button undoes the next button
    and the next button undoes the previous one; [k] presses of next move
    the current match from [i] to [(i + k) mod n], so [n] presses visit
    every match once and come back to where they started. *)
Theorem search_navigation_cycles (s : State) :
  inRange s → searchResults s ≠ [] →
  currentMatchIndex (snd (goToPrevMatch (snd (goToNextMatch s))))
  = currentMatchIndex s ∧
  currentMatchIndex (snd (goToNextMatch (snd (goToPrevMatch s))))
  = currentMatchIndex s ∧
  (∀ k, currentMatchIndex (run (presses k) s)
        = ((currentMatchIndex s + Z.of_nat k)
             `mod` Z.of_nat (length (searchResults s)))%Z) ∧
  run (presses (length (searchResults s))) s
  = {| searchResults := searchResults s;
       currentMatchIndex := currentMatchIndex s;
       isSearching := isSearching s;
       shown := pageNum <$> at_index (searchResults s) (currentMatchIndex s);
       visited := visited s |}.
Proof.
  intros Hs Hne.
  assert (∀ s, inRange s → searchResults s ≠ [] →
            inRange (snd (goToNextMatch s)) ∧
            searchResults (snd (goToNextMatch s)) = searchResults s) as Hnx.
  { intros s0 H0 Hn0. split.
    - apply (step_inRange NextMatch s0 H0).
    - by destruct (goToNextMatch_spec s0 H0 Hn0) as (r & _ & ->). }
  assert (∀ s, inRange s → searchResults s ≠ [] →
            inRange (snd (goToPrevMatch s)) ∧
            searchResults (snd (goToPrevMatch s)) = searchResults s) as Hpv.
  { intros s0 H0 Hn0. split.
    - apply (step_inRange PrevMatch s0 H0).
    - by destruct (goToPrevMatch_spec s0 H0 Hn0) as (r & _ & ->). }
  split; [|split; [|split]].
  - destruct (Hnx s Hs Hne) as [H1 H2].
    destruct (goToPrevMatch_spec _ H1) as (r & _ & ->); [by rewrite H2|].
    simpl. rewrite H2.
    destruct (goToNextMatch_spec s Hs Hne) as (r' & _ & ->). simpl.
    by apply rem_prev_next, inRange_bounds.
  - destruct (Hpv s Hs Hne) as [H1 H2].
    destruct (goToNextMatch_spec _ H1) as (r & _ & ->); [by rewrite H2|].
    simpl. rewrite H2.
    destruct (goToPrevMatch_spec s Hs Hne) as (r' & _ & ->). simpl.
    by apply rem_next_prev, inRange_bounds.
  - intros k. by apply presses_index.
  - destruct (searchResults s) as [|r0 rs] eqn:Er; [done|].
    change (length (r0 :: rs)) with (S (length rs)).
    unfold presses. rewrite replicate_S_end.
    unfold run. rewrite fold_left_app. simpl.
    fold (run (replicate (length rs) NextMatch) s).
    fold (presses (length rs)).
    destruct (presses_index (length rs) s Hs) as (Hr & Hi & Hb & Hv);
      [by rewrite Er|].
    pose proof (run_inRange (presses (length rs)) s Hs) as Hin.
    unfold step.
    destruct (goToNextMatch_spec _ Hin) as (r & Hl & ->); [by rewrite Hr, Er|].
    simpl. rewrite Hr, Hi, Er in *.
    assert (Z.rem ((currentMatchIndex s + Z.of_nat (length rs))
                     `mod` Z.of_nat (length (r0 :: rs)) + 1)
                  (Z.of_nat (length (r0 :: rs)))
            = currentMatchIndex s) as Hback.
    { unfold inRange in Hs. rewrite Er in Hs.
      rewrite Z.rem_mod_nonneg.
      - rewrite Zplus_mod_idemp_l.
        replace (currentMatchIndex s + Z.of_nat (length rs) + 1)%Z
          with (currentMatchIndex s + 1 * Z.of_nat (length (r0 :: rs)))%Z
          by (simpl length; lia).
        rewrite Z.mod_add by (simpl length; lia).
        apply Z.mod_small. lia.
      - pose proof (Z.mod_pos_bound
                      (currentMatchIndex s + Z.of_nat (length rs))
                      (Z.of_nat (length (r0 :: rs)))). simpl length in *. lia.
      - simpl length. lia. }
    rewrite Hback in *.
    f_equal; [exact Hb| |exact Hv].
    unfold at_index. unfold inRange in Hs. rewrite Er in Hs.
    destruct (Z.ltb_spec (currentMatchIndex s) 0); [lia|].
    by rewrite Hl.
Qed.

(** After the sample search for "cat" (two matches), next and then
    previous is back on the first match. *)
Lemma search_navigation_cycles_witness :
  currentMatchIndex
    (snd (goToPrevMatch
            (snd (goToNextMatch
                    (snd (performSearch (Some sampleDoc) (lit "cat")
                            sampleState))))))
  = 0%Z.
Proof.
  refine (proj1 (search_navigation_cycles
                   (snd (performSearch (Some sampleDoc) (lit "cat")
                           sampleState)) _ _)).
  - unfold inRange. simpl. lia.
  - discriminate.
Defined.

End NavigationFacts.

(* ===================================================================== *)
(** * The text of the text layer *)
(* ===================================================================== *)

Section TextLayerText.
Import Js TextLayer TextOf.
Context {num : Type} (add mul : num → num → num) (ofNat : nat → num).

Local Abbreviation anchorX := (anchorX add mul ofNat).
Local Abbreviation anchorY := (anchorY add mul ofNat).
Local Abbreviation spanAt := (spanAt add mul ofNat).
Local Abbreviation splitLoop := (splitLoop add mul ofNat).
Local Abbreviation splitItem := (splitItem add mul ofNat).
Local Abbreviation itemSpans := (itemSpans add mul ofNat).
Local Abbreviation chars := (@chars num).
Local Abbreviation charsBefore := (@charsBefore num).
Local Abbreviation anchored := (anchored add mul ofNat).
Local Abbreviation keepsText := (keepsText add mul ofNat).
Local Abbreviation shownText := (@shownText num).

Lemma anchored_snoc g l c hl :
  anchored g l → anchored g (l ++ [spanAt g c (chars l) hl]).
Proof.
  intros Hl k s Hk. unfold TextLayer.charsBefore.
  destruct (decide (k < length l)) as [Hlt|Hge].
  - rewrite lookup_app_l in Hk by done.
    rewrite take_app_le by lia. by apply Hl.
  - apply lookup_lt_Some in Hk as Hlen. rewrite length_app in Hlen.
    simpl in Hlen. assert (k = length l) as -> by lia.
    rewrite lookup_app_r, Nat.sub_diag in Hk by lia.
    injection Hk as <-. rewrite take_app_length. done.
Qed.

Lemma length_toLowerCase_ge s : length s ≤ length (toLowerCase s).
Proof.
  induction s as [|c s IH]; [done|].
  rewrite toLowerCase_cons, length_app. simpl.
  pose proof (lowerUnit_length c). lia.
Qed.

Lemma find_le needle hay k : find needle hay = Some k → k ≤ length hay.
Proof.
  revert k. induction hay as [|c hay IH]; intros k; simpl.
  - destruct (startsWith needle []); [|done]. intros [= <-]. lia.
  - destruct (startsWith needle (c :: hay)); [intros [= <-]; lia|].
    destruct (find needle hay) as [j|]; [|done]. simpl.
    intros [= <-]. specialize (IH j eq_refl). lia.
Qed.

Lemma indexOf_le needle hay from k :
  indexOf needle hay from = Some k → k ≤ length hay.
Proof.
  unfold indexOf.
  destruct (find needle (drop _ hay)) as [j|] eqn:E; [|done].
  simpl. intros [= <-]. apply find_le in E. rewrite length_drop in E. lia.
Qed.

Lemma take_slice (text : str) a b :
  a ≤ b → take a text ++ slice a b text = take b text.
Proof.
  intros Hab. unfold slice. rewrite take_take_drop_app. f_equal. lia.
Qed.

Lemma chars_snoc (l : list (@Span num)) x :
  chars (l ++ [x]) = chars l + length (content x).
Proof.
  unfold TextLayer.chars. rewrite fmap_app, concat_app, length_app. simpl.
  by rewrite app_nil_r.
Qed.

Lemma concat_snoc (l : list (@Span num)) x :
  concat (content <$> (l ++ [x])) = concat (content <$> l) ++ content x.
Proof. rewrite fmap_app, concat_app. simpl. by rewrite app_nil_r. Qed.

Lemma splitLoop_keepsText g text lt lq qlen fuel st st' :
  qlen ≤ length lq →
  keepsText g text lt st →
  splitLoop fuel g text lt lq qlen st = Some st' →
  keepsText g text lt st'.
Proof.
  intros Hq. revert st.
  induction fuel as [|fuel IH]; intros st Hinv Hrun; [done|].
  simpl in Hrun.
  destruct (indexOf lq lt (lastIndex st)) as [m|] eqn:Ei.
  2:{ by injection Hrun as <-. }
  destruct Hinv as (Hle & Hoff & Htext & Hanch).
  pose proof (indexOf_le _ _ _ _ Ei) as Hmle.
  apply indexOf_Some in Ei as (Hm & Hst & _).
  rewrite Nat.min_l in Hm by done.
  pose proof (startsWith_length _ _ Hst) as Hlen.
  rewrite length_drop in Hlen.
  apply (IH _) in Hrun; [done|].
  unfold TextOf.keepsText.
  destruct (Nat.ltb_spec (lastIndex st) m) as [Hlt|Hge]; simpl.
  - split; [lia|]. rewrite !chars_snoc, !concat_snoc. simpl.
    rewrite Hoff. split; [done|]. split.
    + rewrite Htext, take_slice by lia. apply take_slice. lia.
    + replace (chars (spans st) + length (slice (lastIndex st) m text))
        with (chars (spans st
                     ++ [spanAt g (slice (lastIndex st) m text)
                           (chars (spans st)) false]))
        by (by rewrite chars_snoc).
      by do 2 apply anchored_snoc.
  - assert (m = lastIndex st) as -> by lia.
    split; [lia|]. rewrite !chars_snoc, !concat_snoc. simpl.
    rewrite Hoff. split; [done|]. split.
    + rewrite Htext. apply take_slice. lia.
    + by apply anchored_snoc.
Qed.

Lemma splitItem_keepsText g query text l :
  splitItem g query text = Some l →
  concat (content <$> l) = text ∧ anchored g l.
Proof.
  unfold TextLayer.splitItem.
  destruct (splitLoop _ _ _ _ _ _ _) as [st|] eqn:Hrun; [|done].
  intros [= <-].
  apply splitLoop_keepsText in Hrun as (Hle & Hoff & Htext & Hanch).
  - destruct (Nat.ltb_spec (lastIndex st) (length text)) as [Hlt|Hge].
    + rewrite concat_snoc. simpl. rewrite Htext. unfold sliceFrom.
      rewrite take_drop. split; [done|]. rewrite Hoff.
      by apply anchored_snoc.
    + rewrite Htext. by rewrite take_ge.
  - apply length_toLowerCase_ge.
  - unfold TextOf.keepsText. simpl. repeat split; try done; lia.
Qed.

Lemma itemSpans_keepsText g query text l :
  itemSpans g query text = Some l → concat (content <$> l) = text.
Proof.
  unfold TextLayer.itemSpans.
  destruct (truthy (toLowerCase query) && includes _ _).
  - intros H. by apply splitItem_keepsText in H as [? _].
  - intros [= <-]. simpl. by rewrite app_nil_r.
Qed.

(** X15.  A text item is split without losing or moving a character.  For
    every query and every text, with or without U+0130, [itemSpans]
    returns spans whose contents, one after the other, are the text of
    the item.  When the lowercased text includes a non-empty lowercased
    query, every span is anchored at the base anchor moved by the number
    of characters in the spans before it; otherwise there is one span,
    not highlighted, at the base anchor. *)
Theorem text_item_spans_keep_text (g : Geometry) (query text : str) :
  ∃ l, itemSpans g query text = Some l ∧
       concat (content <$> l) = text ∧
       (truthy (toLowerCase query)
        && includes (toLowerCase query) (toLowerCase text) = true →
          ∀ k s, l !! k = Some s →
            left s = add (baseLeft g)
                       (mul (mul (ofNat (charsBefore k l)) (charWidth g))
                            (cosAngle g)) ∧
            top s = add (baseTop g)
                      (mul (mul (ofNat (charsBefore k l)) (charWidth g))
                           (sinAngle g))) ∧
       (truthy (toLowerCase query)
        && includes (toLowerCase query) (toLowerCase text) = false →
          l = [{| content := text; left := baseLeft g; top := baseTop g;
                  highlight := false |}]).
Proof.
  destruct (itemSpans_total add mul ofNat g query text) as [l Hl].
  exists l. split; [done|]. split; [by apply (itemSpans_keepsText g query)|].
  unfold TextLayer.itemSpans in Hl.
  destruct (truthy (toLowerCase query) && includes _ _).
  - split; [|done]. intros _ k s Hk.
    apply splitItem_keepsText in Hl as [_ Ha]. by apply Ha.
  - split; [done|]. intros _. by injection Hl as <-.
Qed.

(** X16.  The text layer shows the text of the page.  For every query,
    [renderTextLayer] returns spans whose contents, one after the other,
    are the strings of the text items in their order; marked-content items
    and empty strings add nothing, and no search query removes, repeats or
    reorders a character. *)
Theorem text_layer_shows_every_item (query : str)
    (items : list (option (str * Geometry))) :
  ∃ l, TextLayer.renderTextLayer add mul ofNat query items = Some l ∧
       concat (content <$> l) = shownText items ∧
       (∀ query', ∃ l',
          TextLayer.renderTextLayer add mul ofNat query' items = Some l' ∧
          concat (content <$> l') = concat (content <$> l)).
Proof.
  assert (∀ q, ∃ l, TextLayer.renderTextLayer add mul ofNat q items = Some l ∧
                    concat (content <$> l) = shownText items) as Hall.
  { intros q. induction items as [|[[text g]|] items (r & Hr & IH)]; simpl.
    - by exists [].
    - unfold TextOf.shownText. simpl. destruct text as [|c text]; simpl.
      + exists r. split; [done|]. by rewrite IH.
      + destruct (itemSpans_total add mul ofNat g q (c :: text)) as [l Hl].
        rewrite Hl, Hr. simpl. exists (l ++ r). split; [done|].
        rewrite fmap_app, concat_app, IH.
        by rewrite (itemSpans_keepsText g q (c :: text) l Hl).
    - exists r. split; [done|]. by rewrite IH. }
  destruct (Hall query) as (l & Hl & Ht). exists l.
  split; [done|]. split; [done|].
  intros q'. destruct (Hall q') as (l' & Hl' & Ht'). exists l'.
  split; [done|]. by rewrite Ht, Ht'.
Qed.

Lemma splitLoop_prefix g text lt lq qlen fuel st st' :
  splitLoop fuel g text lt lq qlen st = Some st' →
  ∃ more, spans st' = spans st ++ more.
Proof.
  revert st. induction fuel as [|fuel IH]; intros st Hrun; [done|].
  simpl in Hrun.
  destruct (indexOf lq lt (lastIndex st)) as [m|].
  2:{ injection Hrun as <-. exists []. by rewrite app_nil_r. }
  apply IH in Hrun as [more Hmore]. simpl in Hmore.
  destruct (lastIndex st <? m); simpl in Hmore;
    rewrite Hmore, <- ?app_assoc; by eexists.
Qed.

Lemma splitItem_highlights g query text l :
  includes (toLowerCase query) (toLowerCase text) = true →
  splitItem g query text = Some l →
  ∃ s, s ∈ l ∧ highlight s = true.
Proof.
  intros Hinc. apply includes_indexOf in Hinc as [m Hm].
  unfold TextLayer.splitItem. simpl. rewrite Hm.
  match goal with
  | |- context [TextLayer.splitLoop _ _ _ ?f ?g ?t ?lt ?lq ?ql ?st] =>
      destruct (TextLayer.splitLoop add mul ofNat f g t lt lq ql st)
        as [st'|] eqn:Hrun; [|done];
      apply splitLoop_prefix in Hrun as [more Hmore]; simpl in Hmore
  end.
  intros [= <-].
  match type of Hmore with _ = (_ ++ [?x]) ++ _ => exists x end.
  split; [|reflexivity].
  destruct (lastIndex st' <? length text); rewrite Hmore;
    rewrite !elem_of_app, list_elem_of_singleton; auto.
Qed.

(** X17.  The text layer highlights the items that the search finds.  For
    a query that is not empty, [itemSpans] marks at least one span of a
    text item as a highlight exactly when the callback of [performSearch]
    records the item as a match, that is when the lowercased text includes
    the lowercased query; an empty query highlights nothing. *)
Theorem highlight_iff_search_match (g : Geometry) (searchQuery text : str)
    (pageNum index : nat) :
  ∃ l, itemSpans g searchQuery text = Some l ∧
       ((∃ s, s ∈ l ∧ highlight s = true) ↔
        searchQuery ≠ [] ∧
        includes (toLowerCase searchQuery) (toLowerCase text) = true) ∧
       (searchQuery ≠ [] →
          ((∃ s, s ∈ l ∧ highlight s = true) ↔
           SearchIndex.matchOf (toLowerCase searchQuery) pageNum index
             (SearchIndex.TextItem text)
           = Some {| SearchIndex.pageNum := pageNum;
                     SearchIndex.itemIndex := index;
                     SearchIndex.text := text |})).
Proof.
  destruct (itemSpans_total add mul ofNat g searchQuery text) as [l Hl].
  exists l. split; [done|].
  assert (truthy (toLowerCase searchQuery) = true ↔ searchQuery ≠ []) as Ht.
  { destruct searchQuery as [|c q]; [done|].
    rewrite toLowerCase_cons.
    pose proof (lowerUnit_length c).
    destruct (lowerUnit c); simpl in *; [lia|done]. }
  assert ((∃ s, s ∈ l ∧ highlight s = true) ↔
          searchQuery ≠ [] ∧
          includes (toLowerCase searchQuery) (toLowerCase text) = true) as Hh.
  { unfold TextLayer.itemSpans in Hl.
    destruct (truthy (toLowerCase searchQuery)) eqn:Etr;
      destruct (includes (toLowerCase searchQuery) (toLowerCase text))
        eqn:Einc; simpl in Hl.
    - split; [intros _; split; [by apply Ht|done]|].
      intros _. by apply (splitItem_highlights g searchQuery text).
    - injection Hl as <-. split.
      + intros (s & Hs & Hhl). apply list_elem_of_singleton in Hs as ->.
        done.
      + intros [_ ?]. done.
    - injection Hl as <-. split.
      + intros (s & Hs & Hhl). apply list_elem_of_singleton in Hs as ->.
        done.
      + intros [Hne _]. apply Ht in Hne. congruence.
    - injection Hl as <-. split.
      + intros (s & Hs & Hhl). apply list_elem_of_singleton in Hs as ->.
        done.
      + intros [_ ?]. done. }
  split; [exact Hh|]. intros Hne. rewrite Hh. unfold SearchIndex.matchOf.
  destruct (includes (toLowerCase searchQuery) (toLowerCase text)).
  - split; [done|]. intros _. done.
  - split; [intros [_ ?]; done|done].
Qed.

End TextLayerText.

Section TextLayerTextWitness.
Import Js TextLayer.

(** The query "cat" in the text "The Cat". *)
Lemma highlight_iff_search_match_witness :
  ∃ l, itemSpans Z.add Z.mul Z.of_nat sampleGeometry (lit "cat")
         (lit "The Cat") = Some l ∧
       ((∃ s, s ∈ l ∧ highlight s = true) ↔
        SearchIndex.matchOf (toLowerCase (lit "cat")) 1 0
          (SearchIndex.TextItem (lit "The Cat"))
        = Some {| SearchIndex.pageNum := 1; SearchIndex.itemIndex := 0;
                  SearchIndex.text := lit "The Cat" |}).
Proof.
  destruct (highlight_iff_search_match Z.add Z.mul Z.of_nat sampleGeometry
              (lit "cat") (lit "The Cat") 1 0) as (l & Hl & _ & H).
  exists l. split; [exact Hl|]. apply H. discriminate.
Defined.

End TextLayerTextWitness.

(* ===================================================================== *)
(** * Further properties of the thumbnails *)
(* ===================================================================== *)

Section ThumbsRunsFacts.
Import Eff Thumbs ThumbsRuns.

Lemma runEffect_generators s :
  ∃ new, generators (runEffect s) = (cancel <$> generators s) ++ new ∧
         length new ≤ 1.
Proof.
  unfold runEffect. destruct (pdfDoc s) as [n|].
  - destruct (showThumbnails s && _); simpl.
    + eexists. split; [reflexivity|]. simpl. lia.
    + exists []. split; [by rewrite app_nil_r|simpl; lia].
  - exists []. split; [by rewrite app_nil_r|simpl; lia].
Qed.

Lemma runEffect_oneUncancelled s : oneUncancelled (runEffect s).
Proof.
  destruct (runEffect_generators s) as (new & Hg & Hlen).
  intros i j g g' Hi Hj Hc Hc'. rewrite Hg in Hi, Hj.
  assert (∀ k x, ((cancel <$> generators s) ++ new) !! k = Some x →
                 cancelled x = false →
                 k = length (generators s)) as Hk.
  { intros k x Hx Hcx. apply lookup_app_Some in Hx as [Hx|[Hge Hx]].
    - apply cancel_all_lookup in Hx. congruence.
    - rewrite length_fmap in Hge, Hx.
      apply lookup_lt_Some in Hx. lia. }
  rewrite (Hk i g Hi Hc), (Hk j g' Hj Hc'). done.
Qed.

Lemma oneUncancelled_update s s' i g g' :
  generators s !! i = Some g →
  generators s' = <[i := g']> (generators s) →
  cancelled g' = cancelled g →
  oneUncancelled s → oneUncancelled s'.
Proof.
  intros Hi Hg Hc Hs a b x y Ha Hb Hx Hy. rewrite Hg in Ha, Hb.
  assert (∀ k z, <[i := g']> (generators s) !! k = Some z →
                 cancelled z = false →
                 ∃ z', generators s !! k = Some z' ∧ cancelled z' = false)
    as Hold.
  { intros k z Hz Hcz. destruct (decide (k = i)) as [->|Hne].
    - rewrite list_lookup_insert_eq in Hz by (by eapply lookup_lt_Some).
      injection Hz as <-. exists g. split; [done|congruence].
    - rewrite list_lookup_insert_ne in Hz by done. by exists z. }
  destruct (Hold a x Ha Hx) as (x' & Hax & Hcx).
  destruct (Hold b y Hb Hy) as (y' & Hby & Hcy).
  by apply (Hs a b x' y').
Qed.

Lemma step_oneUncancelled a s : oneUncancelled s → oneUncancelled (step a s).
Proof.
  intros Hs. destruct a as [|i|i env| |n]; simpl;
    try apply runEffect_oneUncancelled.
  - destruct (generators s !! i) as [g|] eqn:Hi; [|done].
    destruct (phase g); try done.
    destruct (negb (pageNum g <=? numPages g));
      [by eapply (oneUncancelled_update s _ i g)|].
    destruct (cancelled g) eqn:Hc;
      by eapply (oneUncancelled_update s _ i g).
  - destruct (generators s !! i) as [g|] eqn:Hi; [|done].
    destruct (phase g); try done.
    destruct (iteration env (pageNum g) (pdfDataForPdfium g) (cancelled g)
                (thumbnails s)) as [r l].
    destruct r; by eapply (oneUncancelled_update _ _ i g).
Qed.

Lemma run_oneUncancelled l s : oneUncancelled s → oneUncancelled (run l s).
Proof.
  revert s. induction l as [|a l IH]; intros s Hs; [done|].
  simpl. apply IH. by apply step_oneUncancelled.
Qed.

Lemma run_app l1 l2 s : run (l1 ++ l2) s = run l2 (run l1 s).
Proof. unfold run. by rewrite fold_left_app. Qed.

(** X18.  At most one generator is at work.  After any sequence of
    events, at most one run of [generateThumbnails] has its [cancelled]
    flag down; and a run whose flag is up adds nothing to the list,
    whatever its pending iteration meets. *)
Theorem thumbnails_one_generator_at_work (l : list Action) :
  let s := run l initial in
  (∀ i j g g', generators s !! i = Some g → generators s !! j = Some g' →
     cancelled g = false → cancelled g' = false → i = j) ∧
  (∀ i g env, generators s !! i = Some g → cancelled g = true →
     thumbnails (step (Body i env) s) = thumbnails s ∧
     thumbnails (step (Head i) s) = thumbnails s).
Proof.
  intros s. split.
  - apply run_oneUncancelled. intros i j g g' Hi. done.
  - intros i g env Hi Hc. simpl. rewrite Hi. split.
    + destruct (phase g); try done.
      pose proof (iteration_cancelled env (pageNum g) (pdfDataForPdfium g)
                    (thumbnails s)) as Hit.
      rewrite Hc.
      destruct (iteration env (pageNum g) (pdfDataForPdfium g) true
                  (thumbnails s)) as [r l']. simpl in Hit. subst l'.
      by destruct r.
    + destruct (phase g); try done.
      destruct (negb (pageNum g <=? numPages g)); [done|].
      by rewrite Hc.
Qed.



Lemma run_appends l s :
  Forall keepsDocument l →
  ∃ suffix, thumbnails (run l s) = thumbnails s ++ suffix.
Proof.
  revert s. induction l as [|a l IH]; intros s Hl.
  - exists []. by rewrite app_nil_r.
  - inversion Hl as [|? ? Ha Hl']; subst. simpl.
    destruct (step_appends a s) as [s1 H1].
    { intros n ->. done. }
    destruct (IH (step a s) Hl') as [s2 H2].
    exists (s1 ++ s2).
    change (run (a :: l) s) with (run l (step a s)).
    by rewrite H2, H1, app_assoc.
Qed.

(** X20.  Entries are only ever appended.  Over any sequence of events
    that loads no document, whatever the iterations meet (errors, a
    missing context, cancellation), the list of thumbnails at the end
    starts with the list at the beginning: no entry is removed, replaced
    or reordered. *)
Theorem thumbnails_only_grow (l : list Action) (s : State) :
  Forall keepsDocument l →
  ∃ suffix, thumbnails (run l s) = thumbnails s ++ suffix.
Proof. apply run_appends. Qed.

Lemma thumbnails_only_grow_witness :
  ∃ suffix,
    thumbnails (run [RunEffect; Head 1; Body 1 lightPage]
                  (run [LoadDocument 2; Head 0; Body 0 lightPage] initial))
    = [DataUrl 1 false] ++ suffix.
Proof.
  apply (thumbnails_only_grow [RunEffect; Head 1; Body 1 lightPage]
           (run [LoadDocument 2; Head 0; Body 0 lightPage] initial)).
  repeat constructor.
Defined.

Lemma iteration_throws_keeps env p b c l e :
  fst (iteration env p b c l) = Abrupt (Throw e) →
  snd (iteration env p b c l) = l.
Proof.
  destruct env as [gp an pt oc re cv]. destruct c.
  all: unfold iteration, append, call, try_catch, when, await, throw,
         return_, modify, mbind, M_bind, mret, M_ret;
       cbn;
       repeat (match goal with
               | |- context [match ?o with Returns _ => _ | Throws _ => _ end] =>
                   is_var o; destruct o
               | |- context [if ?b then _ else _] => is_var b; destruct b
               | |- context [Analyzer.isHeavy ?c] =>
                   is_var c; destruct (Analyzer.isHeavy c) eqn:?
               end; cbn);
       done.
Qed.

Lemma quiet_step a s :
  generatorStep a → quiet s →
  quiet (step a s) ∧ thumbnails (step a s) = thumbnails s ∧
  isGeneratingThumbnails (step a s) = isGeneratingThumbnails s.
Proof.
  intros Ha Hq. destruct a as [|i|i env| |n]; try done; simpl.
  - destruct (generators s !! i) as [g|] eqn:Hi; [|done].
    destruct (Hq i g Hi) as [Hc|Hf].
    2:{ by rewrite Hf. }
    destruct (phase g) eqn:Hph; try done.
    assert (∀ s', s' = finish g s i →
              quiet s' ∧ thumbnails s' = thumbnails s ∧
              isGeneratingThumbnails s' = isGeneratingThumbnails s) as Hfin.
    { intros s' ->. unfold finish. simpl. rewrite Hc.
      split; [|done]. intros j x Hj. simpl in Hj.
      destruct (decide (j = i)) as [->|Hne].
      - rewrite list_lookup_insert_eq in Hj by (by eapply lookup_lt_Some).
        injection Hj as <-. by right.
      - rewrite list_lookup_insert_ne in Hj by done. by apply (Hq j). }
    destruct (negb (pageNum g <=? numPages g)); [by apply Hfin|].
    rewrite Hc. by apply Hfin.
  - destruct (generators s !! i) as [g|] eqn:Hi; [|done].
    destruct (Hq i g Hi) as [Hc|Hf].
    2:{ by rewrite Hf. }
    destruct (phase g) eqn:Hph; try done.
    pose proof (iteration_cancelled env (pageNum g) (pdfDataForPdfium g)
                  (thumbnails s)) as Hit.
    rewrite Hc.
    destruct (iteration env (pageNum g) (pdfDataForPdfium g) true
                (thumbnails s)) as [r l']. simpl in Hit. subst l'.
    destruct r; simpl; rewrite ?Hc.
    + split; [|done]. intros j x Hj. simpl in Hj.
      destruct (decide (j = i)) as [->|Hne].
      * rewrite list_lookup_insert_eq in Hj by (by eapply lookup_lt_Some).
        injection Hj as <-. by left.
      * rewrite list_lookup_insert_ne in Hj by done. by apply (Hq j).
    + split; [|done]. intros j x Hj. simpl in Hj.
      destruct (decide (j = i)) as [->|Hne].
      * rewrite list_lookup_insert_eq in Hj by (by eapply lookup_lt_Some).
        injection Hj as <-. by right.
      * rewrite list_lookup_insert_ne in Hj by done. by apply (Hq j).
Qed.

Lemma quiet_run l s :
  Forall generatorStep l → quiet s →
  thumbnails (run l s) = thumbnails s ∧
  isGeneratingThumbnails (run l s) = isGeneratingThumbnails s.
Proof.
  revert s. induction l as [|a l IH]; intros s Hl Hq; [done|].
  inversion Hl as [|? ? Ha Hl']; subst. simpl.
  destruct (quiet_step a s Ha Hq) as (Hq' & Ht & Hg).
  destruct (IH _ Hl' Hq') as [Ht' Hg'].
  change (run (a :: l) s) with (run l (step a s)).
  by rewrite Ht', Hg', Ht, Hg.
Qed.

(** X21.  A page that cannot be previewed ends the generation.  When an
    iteration of the generator at work throws ([getPage], the analysis,
    the rendering or the conversion rejects), the generator finishes
    without an entry for its page: the list is left as it was,
    [isGeneratingThumbnails] becomes false, and no later step of any
    generator adds an entry; the pages from the failed one on get no
    thumbnail until the effect runs again. *)
Theorem thumbnail_failure_ends_generation (l : list Action) (i : nat)
    (g : Generator) (env : PageEnv) (e : Exn) :
  let s := run l initial in
  generators s !! i = Some g →
  cancelled g = false → phase g = InBody →
  fst (iteration env (pageNum g) (pdfDataForPdfium g) false (thumbnails s))
  = Abrupt (Throw e) →
  let s' := step (Body i env) s in
  thumbnails s' = thumbnails s ∧
  isGeneratingThumbnails s' = false ∧
  (∃ g', generators s' !! i = Some g' ∧ phase g' = Finished) ∧
  ∀ l', Forall generatorStep l' →
    thumbnails (run l' s') = thumbnails s ∧
    isGeneratingThumbnails (run l' s') = false.
Proof.
  intros s Hi Hc Hph Hthrow s'.
  assert (oneUncancelled s) as Hone.
  { apply run_oneUncancelled. intros a b x y Ha. done. }
  pose proof (iteration_throws_keeps env (pageNum g) (pdfDataForPdfium g)
                false (thumbnails s) e Hthrow) as Hsame.
  assert (s' = finish g {| pdfDoc := pdfDoc s;
                           showThumbnails := showThumbnails s;
                           pdfArrayBuffer := pdfArrayBuffer s;
                           thumbnails := thumbnails s;
                           isGeneratingThumbnails := isGeneratingThumbnails s;
                           generators := generators s |} i) as Hs'.
  { subst s'. simpl. rewrite Hi, Hph, Hc.
    destruct (iteration env (pageNum g) (pdfDataForPdfium g) false
                (thumbnails s)) as [r l0]. simpl in *. subst. done. }
  assert (thumbnails s' = thumbnails s ∧ isGeneratingThumbnails s' = false)
    as [Ht Hg].
  { rewrite Hs'. unfold finish. simpl. by rewrite Hc. }
  assert (quiet s') as Hq.
  { rewrite Hs'. intros j x Hj. unfold finish in Hj. simpl in Hj.
    destruct (decide (j = i)) as [->|Hne].
    - rewrite list_lookup_insert_eq in Hj by (by eapply lookup_lt_Some).
      injection Hj as <-. by right.
    - rewrite list_lookup_insert_ne in Hj by done.
      destruct (cancelled x) eqn:Hcx; [by left|].
      destruct Hne. by apply (Hone j i x g). }
  split; [done|]. split; [done|]. split.
  - rewrite Hs'. unfold finish. simpl.
    rewrite list_lookup_insert_eq by (by eapply lookup_lt_Some).
    by eexists.
  - intros l' Hl'. destruct (quiet_run l' s' Hl' Hq) as [-> ->]. done.
Qed.

(** The first page of a two-page document rejects. *)
Lemma thumbnail_failure_ends_generation_witness :
  thumbnails (run [Head 0; Body 0 lightPage]
                (step (Body 0 brokenPage)
                   (run [LoadDocument 2; Head 0] initial)))
  = [] ∧
  isGeneratingThumbnails
    (run [Head 0; Body 0 lightPage]
       (step (Body 0 brokenPage) (run [LoadDocument 2; Head 0] initial)))
  = false.
Proof.
  refine (proj2 (proj2 (proj2
    (thumbnail_failure_ends_generation [LoadDocument 2; Head 0] 0
       {| pageNum := 1; cancelled := false; phase := InBody;
          numPages := 2; pdfDataForPdfium := true |}
       brokenPage (Error "Invalid page request") _ _ _ _)))
    [Head 0; Body 0 lightPage] _); try reflexivity.
  repeat constructor.
Defined.

End ThumbsRunsFacts.

(* ===================================================================== *)
(** * Properties of the toolbar *)
(* ===================================================================== *)

Section ToolbarFacts.
Import Toolbar.

Lemma quarterStep_range s :
  quarterStep s → (MIN_ZOOM <= s)%Q ∧ (s <= MAX_ZOOM)%Q.
Proof.
  intros (k & Hk & Hs). rewrite Hs. unfold MIN_ZOOM, MAX_ZOOM, Qle. simpl.
  lia.
Qed.

Lemma quarter_plus (k : Z) : ((k # 4) + ZOOM_STEP == (k + 1) # 4)%Q.
Proof. unfold ZOOM_STEP, Qeq, Qplus. simpl. lia. Qed.

Lemma quarter_minus (k : Z) : ((k # 4) - ZOOM_STEP == (k - 1) # 4)%Q.
Proof. unfold ZOOM_STEP, Qeq, Qminus, Qplus, Qopp. simpl. lia. Qed.

Lemma quarter_le (j k : Z) : ((j # 4) <= (k # 4))%Q ↔ (j ≤ k)%Z.
Proof. unfold Qle. simpl. lia. Qed.

Lemma quarter_lt (j k : Z) : ((j # 4) < (k # 4))%Q ↔ (j < k)%Z.
Proof. unfold Qlt. simpl. lia. Qed.

Lemma zoomIn_quarter (k : Z) :
  (1 ≤ k ≤ 16)%Z →
  (zoomIn (k # 4) == (if (k =? 16)%Z then 16 else k + 1) # 4)%Q.
Proof.
  intros Hk. unfold zoomIn.
  assert (MAX_ZOOM == 16 # 4)%Q as HM by reflexivity.
  destruct (Z.eqb_spec k 16) as [->|Hne].
  - rewrite Q.min_l; [done|]. rewrite quarter_plus, HM.
    apply quarter_le. lia.
  - rewrite Q.min_r; [apply quarter_plus|]. rewrite quarter_plus, HM.
    apply quarter_le. lia.
Qed.

Lemma zoomOut_quarter (k : Z) :
  (1 ≤ k ≤ 16)%Z →
  (zoomOut (k # 4) == (if (k =? 1)%Z then 1 else k - 1) # 4)%Q.
Proof.
  intros Hk. unfold zoomOut.
  assert (MIN_ZOOM == 1 # 4)%Q as HM by reflexivity.
  destruct (Z.eqb_spec k 1) as [->|Hne].
  - rewrite Q.max_l; [done|]. rewrite quarter_minus, HM.
    apply quarter_le. lia.
  - rewrite Q.max_r; [apply quarter_minus|]. rewrite quarter_minus, HM.
    apply quarter_le. lia.
Qed.

#[local] Instance zoomIn_proper : Proper (Qeq ==> Qeq) zoomIn.
Proof. intros x y H. unfold zoomIn. by rewrite H. Qed.

#[local] Instance zoomOut_proper : Proper (Qeq ==> Qeq) zoomOut.
Proof. intros x y H. unfold zoomOut. by rewrite H. Qed.

Lemma step_quarterStep a v :
  offered a → quarterStep (scale v) → quarterStep (scale (step a v)).
Proof.
  intros Ha (k & Hk & Hs). destruct a as [| |value| | |]; simpl;
    try (by exists k).
  - exists (if (k =? 16)%Z then 16 else k + 1)%Z. split.
    + destruct (Z.eqb_spec k 16); lia.
    + rewrite Hs. by apply zoomIn_quarter.
  - exists (if (k =? 1)%Z then 1 else k - 1)%Z. split.
    + destruct (Z.eqb_spec k 1); lia.
    + rewrite Hs. by apply zoomOut_quarter.
  - simpl in Ha. unfold ZOOM_PRESETS in Ha.
    repeat (apply elem_of_cons in Ha as [->|Ha]);
      [exists 2%Z|exists 3%Z|exists 4%Z|exists 5%Z|exists 6%Z|exists 8%Z|];
      try (split; [lia|reflexivity]).
    by apply elem_of_nil in Ha.
Qed.

Lemma run_quarterStep l v :
  Forall offered l → quarterStep (scale v) → quarterStep (scale (run l v)).
Proof.
  revert v. induction l as [|a l IH]; intros v Hl Hv; [done|].
  inversion Hl; subst. simpl. apply IH; [done|]. by apply step_quarterStep.
Qed.

(** X22.  The scale stays on the zoom grid.  Whatever the user does with
    the plus and minus buttons and the preset list, the scale is a
    multiple of 0.25 between [MIN_ZOOM] and [MAX_ZOOM]; on such a scale a
    zoom button is disabled exactly when pressing it would change
    nothing, and below the maximum zooming out undoes zooming in. *)
Theorem zoom_stays_on_grid (l : list Press) :
  Forall offered l →
  let s := scale (run l mounted) in
  (MIN_ZOOM <= s)%Q ∧ (s <= MAX_ZOOM)%Q ∧
  (∃ k : Z, (s == k # 4)%Q) ∧
  (zoomInDisabled s = true ↔ (zoomIn s == s)%Q) ∧
  (zoomOutDisabled s = true ↔ (zoomOut s == s)%Q) ∧
  (zoomInDisabled s = false → (zoomOut (zoomIn s) == s)%Q).
Proof.
  intros Hl s.
  assert (quarterStep s) as Hq.
  { apply run_quarterStep; [done|]. exists 4%Z. split; [lia|reflexivity]. }
  destruct (quarterStep_range s Hq) as [Hmin Hmax].
  destruct Hq as (k & Hk & Hs).
  split; [done|]. split; [done|]. split; [by exists k|].
  unfold zoomInDisabled, zoomOutDisabled.
  assert (MAX_ZOOM == 16 # 4)%Q as HM by reflexivity.
  assert (MIN_ZOOM == 1 # 4)%Q as Hm by reflexivity.
  split; [|split].
  - rewrite Qle_bool_iff, Hs, HM, quarter_le, zoomIn_quarter by done.
    destruct (Z.eqb_spec k 16) as [->|Hne].
    + split; [done|lia].
    + split; [lia|]. unfold Qeq. simpl. lia.
  - rewrite Qle_bool_iff, Hs, Hm, quarter_le, zoomOut_quarter by done.
    destruct (Z.eqb_spec k 1) as [->|Hne].
    + split; [done|lia].
    + split; [lia|]. unfold Qeq. simpl. lia.
  - intros Hdis.
    assert (¬ (MAX_ZOOM <= s)%Q) as Hlt.
    { rewrite <- Qle_bool_iff. by rewrite Hdis. }
    rewrite Hs, HM, quarter_le in Hlt.
    rewrite Hs, zoomIn_quarter by done.
    destruct (Z.eqb_spec k 16) as [->|Hne]; [lia|].
    rewrite zoomOut_quarter by lia.
    destruct (Z.eqb_spec (k + 1) 1); [lia|].
    unfold Qeq. simpl. lia.
Qed.

(** The preset 2, then plus, minus and plus. *)
Lemma zoom_stays_on_grid_witness :
  (MIN_ZOOM <= scale (run [ZoomChange 2; ZoomIn; ZoomOut; ZoomIn] mounted))%Q ∧
  (scale (run [ZoomChange 2; ZoomIn; ZoomOut; ZoomIn] mounted) <= MAX_ZOOM)%Q.
Proof.
  assert (Forall offered [ZoomChange 2; ZoomIn; ZoomOut; ZoomIn]) as H
    by repeat constructor.
  destruct (zoom_stays_on_grid [ZoomChange 2; ZoomIn; ZoomOut; ZoomIn] H)
    as (H1 & H2 & _).
  split; [exact H1|exact H2].
Defined.

Lemma step_quarterTurn a v :
  quarterTurn (rotation v) → quarterTurn (rotation (step a v)).
Proof.
  intros Hr. destruct a; simpl; try done.
  - destruct Hr as [->|[->|[->| ->]]]; vm_compute; tauto.
  - destruct Hr as [->|[->|[->| ->]]]; vm_compute; tauto.
  - by left.
Qed.

Lemma run_quarterTurn l v :
  quarterTurn (rotation v) → quarterTurn (rotation (run l v)).
Proof.
  revert v. induction l as [|a l IH]; intros v Hv; [done|].
  simpl. apply IH. by apply step_quarterTurn.
Qed.

(** X23.  The rotation is a quarter turn.  Whatever the user does, the
    rotation is 0, 90, 180 or 270; the two rotate buttons undo each other
    and four presses of one come back to the start; and for the PDFium
    adapter the rotation flag is the number of quarter turns, the bitmap
    having its sides swapped exactly when that number is odd. *)
Theorem rotation_is_a_quarter_turn (l : list Press) :
  let r := rotation (run l mounted) in
  (r = 0 ∨ r = 90 ∨ r = 180 ∨ r = 270)%Z ∧
  rotateCounterClockwise (rotateClockwise r) = r ∧
  rotateClockwise (rotateCounterClockwise r) = r ∧
  rotateClockwise (rotateClockwise (rotateClockwise (rotateClockwise r))) = r ∧
  (rotationFlag r * 90 = r)%Z ∧
  isRotated90or270 r = Z.odd (rotationFlag r).
Proof.
  intros r.
  assert (quarterTurn r) as Hr by (apply run_quarterTurn; by left).
  split; [exact Hr|].
  destruct Hr as [->|[->|[->| ->]]]; vm_compute; tauto.
Qed.

End ToolbarFacts.

(* ===================================================================== *)
(** * Properties of the loader *)
(* ===================================================================== *)

Section LoaderFacts.
Import Loader.

Lemma step_consistent e s : consistent s → consistent (step e s).
Proof.
  intros [Hdoc Hdlg]. unfold consistent.
  destruct e as [| |data pw [pages| | |message]|value|]; simpl.
  all: split;
    [first [done | exact Hdoc]
    |first [done | exact Hdlg | intros _; by eexists]].
Qed.

Lemma run_consistent l s : consistent s → consistent (run l s).
Proof.
  revert s. induction l as [|e l IH]; intros s Hs; [done|].
  simpl. apply IH. by apply step_consistent.
Qed.

(** X24.  The fallback renderer is given the bytes of the document on
    screen.  Whatever files are chosen and however the overlapping calls
    of [loadPdfWithPassword] settle, when [pdfDoc] holds a document,
    [pdfArrayBuffer] holds the bytes and [currentPassword] the password
    that document was opened from, and [totalPages] is its page count;
    when [pdfDoc] is null both are cleared; and whenever the password
    dialog is open, [pendingPdfData] holds the bytes to retry with. *)
Theorem loader_document_matches_bytes (l : list Event) :
  let s := run l mounted in
  (∀ d, pdfDoc s = Some d →
     pdfArrayBuffer s = Some (source d) ∧
     currentPassword s = openedWith d ∧
     totalPages s = numPages d) ∧
  (pdfDoc s = None → pdfArrayBuffer s = None ∧ currentPassword s = None) ∧
  (showPasswordDialog s = true → is_Some (pendingPdfData s)).
Proof.
  intros s.
  assert (consistent s) as [Hdoc Hdlg].
  { apply run_consistent. split; simpl; done. }
  split; [|split; [|exact Hdlg]].
  - intros d Hd. by rewrite Hd in Hdoc.
  - intros Hd. by rewrite Hd in Hdoc.
Qed.

(** X25.  The password dialog lets the user try again.  When
    [getDocument] asks for a password, the dialog opens and the bytes are
    kept; a wrong password leaves the dialog open with the bytes and the
    typed password in place and sets the password error; an empty
    password field makes the submit button do nothing; the right password
    loads the document from the kept bytes, closes the dialog and clears
    the field, the error and the kept bytes.  [loading] is false after
    each call. *)
Theorem password_dialog_round_trip
    (getDocument : Data → option string → Settled) (data : Data)
    (wrong right : string) (pages : nat) (s0 : State) :
  getDocument data None = NeedPassword →
  getDocument data (Some wrong) = IncorrectPassword →
  getDocument data (Some right) = Loaded pages →
  wrong ≠ EmptyString → right ≠ EmptyString →
  let s1 := loadPdfWithPassword getDocument data None (loadPdf s0) in
  let s2 := handlePasswordSubmit getDocument (setPassword wrong s1) in
  let s3 := handlePasswordSubmit getDocument (setPassword right s2) in
  (showPasswordDialog s1 = true ∧ pendingPdfData s1 = Some data ∧
   pdfDoc s1 = None ∧ error s1 = None ∧ passwordError s1 = None ∧
   loading s1 = false) ∧
  handlePasswordSubmit getDocument s1 = s1 ∧
  (showPasswordDialog s2 = true ∧ pendingPdfData s2 = Some data ∧
   pdfDoc s2 = None ∧ password s2 = wrong ∧ is_Some (passwordError s2) ∧
   loading s2 = false) ∧
  (pdfDoc s3 = Some {| numPages := pages; source := data;
                       openedWith := Some right |} ∧
   pdfArrayBuffer s3 = Some data ∧ currentPassword s3 = Some right ∧
   showPasswordDialog s3 = false ∧ pendingPdfData s3 = None ∧
   password s3 = EmptyString ∧ passwordError s3 = None ∧
   error s3 = None ∧ loading s3 = false).
Proof.
  intros Hneed Hwrong Hright Hw Hr s1 s2 s3.
  assert (String.eqb wrong EmptyString = false) as Ew
    by (by apply String.eqb_neq).
  assert (String.eqb right EmptyString = false) as Er
    by (by apply String.eqb_neq).
  assert (s1 = {| pdfDoc := None; totalPages := totalPages s0;
                  loading := false; error := None;
                  showPasswordDialog := true; password := EmptyString;
                  passwordError := None; pendingPdfData := Some data;
                  pdfArrayBuffer := None; currentPassword := None |}) as H1.
  { subst s1. unfold loadPdfWithPassword. rewrite Hneed. reflexivity. }
  assert (s2 = {| pdfDoc := None; totalPages := totalPages s0;
                  loading := false; error := None;
                  showPasswordDialog := true; password := wrong;
                  passwordError := Some "パスワードが正しくありません"%string;
                  pendingPdfData := Some data;
                  pdfArrayBuffer := None; currentPassword := None |}) as H2.
  { subst s2. rewrite H1. unfold handlePasswordSubmit. simpl. rewrite Ew.
    unfold loadPdfWithPassword. simpl. rewrite Hwrong. reflexivity. }
  assert (s3 = {| pdfDoc := Some {| numPages := pages; source := data;
                                    openedWith := Some right |};
                  totalPages := pages;
                  loading := false; error := None;
                  showPasswordDialog := false; password := EmptyString;
                  passwordError := None; pendingPdfData := None;
                  pdfArrayBuffer := Some data;
                  currentPassword := Some right |}) as H3.
  { subst s3. rewrite H2. unfold handlePasswordSubmit. simpl. rewrite Er.
    unfold loadPdfWithPassword. simpl. rewrite Hright. reflexivity. }
  rewrite H3, H2. split; [by rewrite H1|]. split; [by rewrite H1|].
  split; [|done]. simpl. repeat split; done.
Qed.

Lemma password_dialog_round_trip_witness :
  pdfDoc (handlePasswordSubmit protected
            (setPassword "secret"%string
               (handlePasswordSubmit protected
                  (setPassword "guess"%string
                     (loadPdfWithPassword protected 7 None
                        (loadPdf mounted))))))
  = Some {| numPages := 3; source := 7; openedWith := Some "secret"%string |}.
Proof.
  refine (proj1 (proj2 (proj2 (proj2
    (password_dialog_round_trip protected 7 "guess"%string "secret"%string
       3 mounted
       _ _ _ _ _))))); first [reflexivity | discriminate].
Defined.

End LoaderFacts.

(* ===================================================================== *)
(** * Properties of the initialisation *)
(* ===================================================================== *)

Section PdfiumInitFacts.
Import Eff PdfiumInit.

Lemma body_cases n s :
  (body n s
   = (Normal tt, {| pdfiumInstance := true; initPromise := initPromise s;
                    fetches := fetches s; extInits := S (extInits s) |}))
  ∨ (∃ e k, k ≤ 1 ∧
       body n s
       = (Abrupt (Throw e),
          {| pdfiumInstance := pdfiumInstance s;
             initPromise := initPromise s;
             fetches := fetches s; extInits := k + extInits s |})).
Proof.
  destruct n as [[[]|e1] [[]|e2] [[]|e3] [[]|e4]]; destruct s;
    unfold body, mbind, M_bind, await, throw, modify, mret, M_ret; simpl;
    first [ by left
          | right; eexists _, 0; split; [lia|reflexivity]
          | right; eexists _, 1; split; [lia|reflexivity] ].
Qed.

Lemma step_shape a s : shape s → shape (step a s).
Proof.
  intros Hs. destruct a as [|n]; simpl.
  - unfold initPdfium.
    destruct (pdfiumInstance s) eqn:Hi; [exact Hs|].
    destruct (initPromise s) as [p|] eqn:Hp; [exact Hs|].
    unfold shape in *. rewrite Hp in Hs. simpl.
    destruct Hs as (_ & -> & ->). done.
  - unfold settle, shape in *.
    destruct (initPromise s) as [[| |e]|] eqn:Hp; try (by rewrite Hp).
    destruct Hs as (Hinst & Hf & Hx).
    destruct (body_cases n s) as [->|(e & k & Hk & ->)]; simpl.
    + rewrite Hf, Hx. done.
    + rewrite Hf, Hx, Hinst. split; [done|]. split; [done|]. lia.
Qed.

Lemma run_shape l s : shape s → shape (run l s).
Proof.
  revert s. induction l as [|a l IH]; intros s Hs; [done|].
  simpl. apply IH. by apply step_shape.
Qed.

Lemma rejected_stays l s e :
  shape s → initPromise s = Some (Rejected e) → run l s = s.
Proof.
  revert s. induction l as [|a l IH]; intros s Hs He; [done|].
  assert (step a s = s) as Hstep.
  { destruct a as [|n]; simpl.
    - unfold initPdfium. unfold shape in Hs. rewrite He in Hs.
      destruct Hs as (-> & _). by rewrite He.
    - unfold settle. by rewrite He. }
  simpl. rewrite Hstep. by apply IH.
Qed.

(** X26.  PDFium is initialised at most once.  Whatever calls of
    [initPdfium] are made and however the initialisation settles, the
    WebAssembly binary is fetched at most once and [PDFiumExt_Init] is
    called at most once; the instance is set exactly when the shared
    promise is fulfilled, and then every call returns it without touching
    the network. *)
Theorem pdfium_initialised_once (l : list Event) :
  let s := run l loaded in
  fetches s ≤ 1 ∧ extInits s ≤ 1 ∧
  (pdfiumInstance s = true ↔ initPromise s = Some Fulfilled) ∧
  (pdfiumInstance s = true →
     extInits s = 1 ∧ initPdfium s = (Instance, s)) ∧
  (initPromise s = None ↔ fetches s = 0).
Proof.
  intros s. assert (shape s) as Hs by (by apply run_shape).
  unfold shape in Hs. unfold initPdfium.
  destruct (initPromise s) as [[| |e]|] eqn:Hp;
    destruct Hs as (Hi & Hf & Hx); rewrite Hi, Hf, ?Hx.
  all: repeat split; try done; try lia.
Qed.

(** X27.  A failed initialisation is never retried.  Once the shared
    promise is rejected, which happens when [fetch], [arrayBuffer],
    [init] or [PDFiumExt_Init] throws, the module state never changes
    again: every later call of [initPdfium] returns the same rejected
    promise, so it delivers the same error, and fetches nothing. *)
Theorem pdfium_init_failure_is_kept (l l' : list Event) (e : Exn) :
  let s := run l loaded in
  initPromise s = Some (Rejected e) →
  let s' := run l' s in
  s' = s ∧
  pdfiumInstance s' = false ∧
  initPdfium s' = (InitPromise, s') ∧
  delivered (fst (initPdfium s')) s' = Some (Throws e) ∧
  fetches s' = 1.
Proof.
  intros s He s'.
  assert (shape s) as Hs by (by apply run_shape).
  assert (s' = s) as -> by (by apply (rejected_stays l' s e)).
  unfold shape in Hs. rewrite He in Hs. destruct Hs as (Hi & Hf & Hx).
  unfold initPdfium, delivered. rewrite Hi, He. done.
Qed.

(** The network is down when the first render asks for PDFium and back
    when the second does. *)
Lemma pdfium_init_failure_is_kept_witness :
  delivered
    (fst (initPdfium (run [Call; Settle online]
                        (run [Call; Settle offline] loaded))))
    (run [Call; Settle online] (run [Call; Settle offline] loaded))
  = Some (Throws (Error "Failed to fetch")).
Proof.
  refine (proj1 (proj2 (proj2 (proj2
    (pdfium_init_failure_is_kept [Call; Settle offline]
       [Call; Settle online] (Error "Failed to fetch") _))))).
  reflexivity.
Defined.

End PdfiumInitFacts.

(* ===================================================================== *)
(** * Properties of the page in view *)
(* ===================================================================== *)

Section ScrollSpyFacts.
Import ScrollSpy.
Context {num : Type} (lt : num → num → bool) (distance : num → num → num).

Local Abbreviation visit := (visit lt distance).
Local Abbreviation handleScroll := (handleScroll lt distance).
Local Abbreviation chosen := (chosen lt distance).

(** The comparison is a strict total order, as [<] is on numbers that
    are not NaN. *)
Hypothesis lt_irrefl : ∀ a, lt a a = false.
Hypothesis lt_trans : ∀ a b c, lt a b = true → lt b c = true → lt a c = true.
Hypothesis lt_total : ∀ a b, lt a b = false → lt b a = false → a = b.

Lemma lt_le_trans a b c : lt a b = true → lt c b = false → lt a c = true.
Proof using lt_trans lt_total.
  intros Hab Hcb. destruct (lt a c) eqn:Hac; [done|].
  destruct (lt b c) eqn:Hbc.
  - by rewrite (lt_trans a b c Hab Hbc) in Hac.
  - rewrite (lt_total b c Hbc Hcb) in Hab. congruence.
Qed.

Lemma fold_chosen center l :
  chosen center l
    (fold_left (visit center) l
       {| closestPage := 1; closestDistance := None |}).
Proof using lt_irrefl lt_trans lt_total.
  induction l as [|[p c] l IH] using rev_ind; [done|].
  rewrite fold_left_app. simpl.
  set (st := fold_left (visit center) l _) in *.
  unfold ScrollSpy.chosen. destruct (l ++ [(p, c)]) as [|x l'] eqn:El.
  { by destruct l. }
  rewrite <- El. clear El x l'.
  destruct l as [|x l].
  - simpl in IH. subst st. rewrite IH. simpl.
    exists [], c, []. split; [done|]. split; [done|].
    split; intros q c' Hq; by apply elem_of_nil in Hq.
  - destruct IH as (before & c0 & after & Hl & Hd & Hb & Ha).
    unfold ScrollSpy.visit. rewrite Hd.
    destruct (lt (distance c center) (distance c0 center)) eqn:Hlt; simpl.
    + exists (x :: l), c, []. split; [done|]. split; [done|]. split.
      * intros q c' Hq. rewrite Hl in Hq.
        apply elem_of_app in Hq as [Hq|Hq].
        -- apply (lt_trans _ (distance c0 center)); [done|]. by apply (Hb q).
        -- apply elem_of_cons in Hq as [[= -> ->]|Hq]; [done|].
           apply (lt_le_trans _ (distance c0 center)); [done|].
           by apply (Ha q).
      * intros q c' Hq. by apply elem_of_nil in Hq.
    + exists before, c0, (after ++ [(p, c)]).
      split; [by rewrite app_comm_cons, Hl, <- app_assoc|]. split; [done|].
      split; [done|]. intros q c' Hq.
      apply elem_of_app in Hq as [Hq|Hq]; [by apply (Ha q)|].
      apply list_elem_of_singleton in Hq as [= -> ->]. done.
Qed.

(** X28.  The current page is the page nearest to the middle of the
    view.  Among the page elements of [pageRefsMap], [handleScroll] picks
    one whose center is at the least distance from the center of the
    container: no page is strictly nearer, every page visited before the
    chosen one is strictly farther, so that of two pages at the same
    distance the one inserted first wins; without page elements it picks
    page 1. *)
Theorem scroll_picks_nearest_page (center : num) (pages : list (nat * num)) :
  (pages = [] → handleScroll center pages = 1) ∧
  (pages ≠ [] →
     ∃ before c after,
       pages = before ++ (handleScroll center pages, c) :: after ∧
       (∀ q c', (q, c') ∈ pages →
          lt (distance c' center) (distance c center) = false) ∧
       (∀ q c', (q, c') ∈ before →
          lt (distance c center) (distance c' center) = true)).
Proof using lt_irrefl lt_trans lt_total.
  split; [by intros ->|]. intros Hne.
  pose proof (fold_chosen center pages) as H. unfold ScrollSpy.chosen in H.
  destruct pages as [|x l] eqn:El; [done|]. rewrite <- El in *.
  destruct H as (before & c & after & Hl & Hd & Hb & Ha).
  exists before, c, after. split; [exact Hl|]. split; [|exact Hb].
  intros q c' Hq. rewrite Hl in Hq.
  apply elem_of_app in Hq as [Hq|Hq].
  - specialize (Hb q c' Hq).
    destruct (lt (distance c' center) (distance c center)) eqn:E; [|done].
    pose proof (lt_trans _ _ _ Hb E) as Habs. by rewrite lt_irrefl in Habs.
  - apply elem_of_cons in Hq as [[= -> ->]|Hq]; [apply lt_irrefl|].
    by apply (Ha q).
Qed.

End ScrollSpyFacts.

Section ScrollSpyWitness.
Import ScrollSpy.

(** Three pages with centers at 100, 900 and 1700 pixels and the middle
    of the view at 500: pages 1 and 2 are equally near, page 1 wins. *)
Lemma scroll_picks_nearest_page_witness :
  handleScroll Z.ltb pixelDistance 500%Z
    [(1, 100%Z); (2, 900%Z); (3, 1700%Z)] = 1 ∧
  ∃ before c after,
    [(1, 100%Z); (2, 900%Z); (3, 1700%Z)]
    = before ++ (handleScroll Z.ltb pixelDistance 500%Z
                   [(1, 100%Z); (2, 900%Z); (3, 1700%Z)], c) :: after ∧
    (∀ q c', (q, c') ∈ [(1, 100%Z); (2, 900%Z); (3, 1700%Z)] →
       (pixelDistance c' 500 <? pixelDistance c 500)%Z = false) ∧
    (∀ q c', (q, c') ∈ before →
       (pixelDistance c 500 <? pixelDistance c' 500)%Z = true).
Proof.
  split; [reflexivity|].
  apply (proj2 (scroll_picks_nearest_page Z.ltb pixelDistance
                  Z.ltb_irrefl
                  (λ a b c Hab Hbc,
                     proj2 (Z.ltb_lt a c)
                       (Z.lt_trans a b c (proj1 (Z.ltb_lt a b) Hab)
                          (proj1 (Z.ltb_lt b c) Hbc)))
                  (λ a b Hab Hba,
                     Z.le_antisymm a b
                       (proj1 (Z.ltb_ge b a) Hba)
                       (proj1 (Z.ltb_ge a b) Hab))
                  500%Z [(1, 100%Z); (2, 900%Z); (3, 1700%Z)])).
  discriminate.
Defined.

End ScrollSpyWitness.
